(** * rag_basic: chunking, sequence building, embedding fallback, index
      ingestion and the question loop

    A shallow embedding of [step2.py], [v_embed.py] and [step3.py].

    Python [str] values are sequences of Unicode code points; they are
    modelled as [list N].  External collaborators (the embedding service,
    the vector index, the retriever, the language model, the file system,
    standard input) are modelled as explicit oracles whose calls are
    recorded in a trace. *)

From Stdlib Require Import ZArith NArith List Ascii String Lia Bool.
From stdpp Require Import base tactics option list numbers countable gmap.

Open Scope Z_scope.

(** ** Python strings *)

Abbreviation char := N (only parsing).
Abbreviation str := (list N) (only parsing).

(** An ASCII literal as a Python string. *)
Definition py (s : string) : str :=
  List.map N_of_ascii (list_ascii_of_string s).

(** [len(text)] as a Python integer. *)
Definition len (s : str) : Z := Z.of_nat (length s).

(** [str.isspace] on one code point (CPython's [_PyUnicode_IsWhitespace]);
    the same set is what [str.strip()] removes and what [\s] matches. *)
Definition is_space (c : char) : bool :=
  ((9 <=? c) && (c <=? 13) || (28 <=? c) && (c <=? 32)
   || (c =? 133) || (c =? 160) || (c =? 5760)
   || (8192 <=? c) && (c <=? 8202)
   || (c =? 8232) || (c =? 8233) || (c =? 8239) || (c =? 8287)
   || (c =? 12288))%N.

(** The character class [[.!?。！？]] of [chunk_text]. *)
Definition is_terminator (c : char) : bool :=
  ((c =? 46) || (c =? 33) || (c =? 63)
   || (c =? 12290) || (c =? 65281) || (c =? 65311))%N.

Fixpoint lstrip (s : str) : str :=
  match s with
  | [] => []
  | c :: s' => if is_space c then lstrip s' else s
  end.
Definition rstrip (s : str) : str := reverse (lstrip (reverse s)).
(** [str.strip()] *)
Definition strip (s : str) : str := rstrip (lstrip s).

(** [re.split(r'[.!?。！？]', text)]: the pieces between terminators, empty
    pieces included. *)
Fixpoint re_split (s : str) : list str :=
  match s with
  | [] => [[]]
  | c :: s' =>
      if is_terminator c then [] :: re_split s'
      else match re_split s' with
           | piece :: rest => (c :: piece) :: rest
           | [] => [[c]]
           end
  end.

(** ** [chunk_text] (step2.py) *)

Module Chunker.

(** The separator [". "] appended after every sentence. *)
Definition sep : str := [46; 32]%N.

(** The loop state: [chunks] and [current_chunk]. *)
Record loop_state := LoopState { chunks : list str; current_chunk : str }.

(** [chunks.append(current_chunk.strip())] guarded by [if current_chunk:]. *)
Definition flush (st : loop_state) : list str :=
  match current_chunk st with
  | [] => chunks st
  | _ :: _ => chunks st ++ [strip (current_chunk st)]
  end.

(** One iteration of [for sentence in sentences:]. *)
Definition loop_body (max_length : Z) (st : loop_state) (sentence : str)
  : loop_state :=
  let sentence := strip sentence in
  match sentence with
  | [] => st
  | _ :: _ =>
      if len (current_chunk st) + len sentence <? max_length
      then LoopState (chunks st) (current_chunk st ++ sentence ++ sep)
      else LoopState (flush st) (sentence ++ sep)
  end.

Definition chunk_text (text : str) (max_length : Z) : list str :=
  if len text <=? max_length then [text]
  else
    let sentences := re_split text in
    let st := fold_left (loop_body max_length) sentences (LoopState [] []) in
    match flush st with
    | [] => [text]
    | chunks => chunks
    end.

End Chunker.

(** ** Regular-expression scanning *)

(** [span_until stop s]: the longest prefix of [s] free of [stop], and the
    rest.  This is what a greedy negated class such as [[^\]]*] consumes
    when the pattern continues with [stop] itself. *)
Fixpoint span_until (stop : char) (s : str) : str * str :=
  match s with
  | [] => ([], [])
  | c :: s' =>
      if (c =? stop)%N then ([], s)
      else let '(pre, rest) := span_until stop s' in (c :: pre, rest)
  end.

(** [strip_prefix lit s]: [s] without its prefix [lit], when it has it. *)
Fixpoint strip_prefix (lit s : str) : option str :=
  match lit, s with
  | [], _ => Some s
  | a :: lit', c :: s' => if (a =? c)%N then strip_prefix lit' s' else None
  | _ :: _, [] => None
  end.

(** [re.finditer] for a pattern that matches no empty string: [match_at s]
    is the length of the match at the very start of [s].  The scan reports
    the spans [(start, end)] of the leftmost non-overlapping matches;
    [skip] counts the characters of the last match still to be passed. *)
Fixpoint finditer_from (match_at : str → option nat) (pos skip : nat)
    (s : str) : list (nat * nat) :=
  match s with
  | [] => []
  | _ :: s' =>
      match skip with
      | S k => finditer_from match_at (S pos) k s'
      | O =>
          match match_at s with
          | Some (S n) =>
              (pos, (pos + S n)%nat) :: finditer_from match_at (S pos) n s'
          | _ => finditer_from match_at (S pos) 0 s'
          end
      end
  end.

Definition finditer (match_at : str → option nat) (s : str)
  : list (nat * nat) :=
  finditer_from match_at 0 0 s.

(** [s[a:b]] for non-negative [a] and [b]. *)
Definition slice (s : str) (a b : nat) : str := drop a (take b s).

(** ** [create_multimodal_sequences] (step2.py and v_embed.py) *)

(** A [Path] object, as far as the builders use it. *)
Record path := Path { parent : str; name : str }.

(** One element of [multimodal_content]. *)
Inductive segment :=
| TextSeg (content : str)
| ImageSeg (content : str) (image_name : str) (caption : str).

Record sequence := Sequence {
  seq_pdf_name : str;
  multimodal_content : list segment;
  seq_image_files : list path;
  seq_images_dir : path
}.

Module SequenceBuilder.
Section Builder.

(** Opening an image and base64-encoding its bytes: [Some img_data], or
    [None] when anything in the [try] block raises. *)
Variable read_b64 : path → option str.

(** The caption chosen for the [i]-th marker and its image name: the one
    point where the two scripts differ inside the loop. *)
Variable caption_for : nat → str → str.

(** ["data:image/png;base64,"] *)
Definition data_url_prefix : str :=
  [100; 97; 116; 97; 58; 105; 109; 97; 103; 101; 47; 112; 110; 103; 59;
   98; 97; 115; 101; 54; 52; 44]%N.

(** The loop state: [multimodal_content] and [current_pos]. *)
Record loop_state := LoopState {
  content_acc : list segment;
  current_pos : nat
}.

(** The image half of the loop body: nothing for a marker beyond the
    image list, nothing when the image cannot be loaded. *)
Definition image_part (image_files : list path) (i : nat) : list segment :=
  match image_files !! i with
  | None => []
  | Some image_file =>
      match read_b64 image_file with
      | Some img_data =>
          [ImageSeg (data_url_prefix ++ img_data) (name image_file)
                    (caption_for i (name image_file))]
      | None => []
      end
  end.

(** The text half: the stripped text since [current_pos], if any. *)
Definition text_part (md_content : str) (a b : nat) : list segment :=
  match strip (slice md_content a b) with
  | [] => []
  | text_before => [TextSeg text_before]
  end.

(** One iteration of [for i, match in enumerate(matches):]. *)
Definition loop_body (md_content : str) (image_files : list path)
    (st : loop_state) (im : nat * (nat * nat)) : loop_state :=
  let '(i, (m_start, m_end)) := im in
  LoopState
    (content_acc st
       ++ text_part md_content (current_pos st) m_start
       ++ image_part image_files i)
    m_end.

(** The body of [for pdf_data in processed_data:], given the matches. *)
Definition build_content (md_content : str) (matches : list (nat * nat))
    (image_files : list path) : list segment :=
  match matches with
  | [] => [TextSeg md_content]
  | _ :: _ =>
      let st := fold_left (loop_body md_content image_files)
                  (imap (λ i m, (i, m)) matches) (LoopState [] 0) in
      content_acc st
        ++ text_part md_content (current_pos st) (length md_content)
  end.

End Builder.
End SequenceBuilder.

(** *** step2.py: markdown image references, captions from the captioned
    markdown *)

Module Step2Builder.

(** The image reference pattern at the start of [s]: an exclamation
    mark, a bracketed alternative text free of closing brackets
    (possibly empty), then a parenthesised target free of closing
    parentheses (at least one character). *)
Definition image_pattern (s : str) : option nat :=
  match s with
  | 33%N :: 91%N :: s1 =>
      let '(alt, s2) := span_until 93 s1 in
      match s2 with
      | 93%N :: 40%N :: s3 =>
          let '(url, s4) := span_until 41 s3 in
          match url, s4 with
          | _ :: _, 41%N :: _ => Some (length alt + length url + 5)%nat
          | _, _ => None
          end
      | _ => None
      end
  | _ => None
  end.

(** ["[이미지 캡션: "] *)
Definition caption_open : str :=
  [91; 51060; 48120; 51648; 32; 52897; 49496; 58; 32]%N.

(** [\[이미지 캡션: ([^\]]+)\]] at the start of [s]: the group. *)
Definition caption_pattern (s : str) : option str :=
  match strip_prefix caption_open s with
  | Some s1 =>
      let '(body, s2) := span_until 93 s1 in
      match body, s2 with
      | _ :: _, 93%N :: _ => Some body
      | _, _ => None
      end
  | None => None
  end.

(** [re.findall(caption_pattern, captioned_content)]. *)
Fixpoint findall_from (skip : nat) (s : str) : list str :=
  match s with
  | [] => []
  | _ :: s' =>
      match skip with
      | S k => findall_from k s'
      | O =>
          match caption_pattern s with
          | Some body =>
              body :: findall_from (length caption_open + length body) s'
          | None => findall_from 0 s'
          end
      end
  end.

Definition caption_matches (captioned_content : str) : list str :=
  findall_from 0 captioned_content.

Record pdf_data := PdfData {
  pdf_name : str;
  md_content : str;
  captioned_content : str;
  image_files : list path;
  images_dir : path
}.

Definition caption_for (captioned_content : str) (i : nat) (_ : str) : str :=
  default [] (caption_matches captioned_content !! i).

Definition build (read_b64 : path → option str) (d : pdf_data) : sequence :=
  Sequence (pdf_name d)
    (SequenceBuilder.build_content read_b64
       (caption_for (captioned_content d))
       (md_content d) (finditer image_pattern (md_content d))
       (image_files d))
    (image_files d) (images_dir d).

Definition create_multimodal_sequences (read_b64 : path → option str)
    (processed_data : list pdf_data) : list sequence :=
  build read_b64 <$> processed_data.

End Step2Builder.

(** *** v_embed.py: [<!-- image -->] markers, captions from a JSON list *)

Module VEmbedBuilder.

(** [<!-- image -->] *)
Definition marker : str :=
  [60; 33; 45; 45; 32; 105; 109; 97; 103; 101; 32; 45; 45; 62]%N.

Definition image_pattern (s : str) : option nat :=
  match strip_prefix marker s with
  | Some _ => Some (length marker)
  | None => None
  end.

(** One entry of the captions file: the ['image'] key, and the
    ['caption'] key when present. *)
Record caption_entry := CaptionEntry {
  image : str;
  caption : option str
}.

(** [{caption['image']: caption for caption in captions}]: a later entry
    for the same image replaces an earlier one. *)
Definition caption_map (captions : list caption_entry)
  : gmap (list N) caption_entry :=
  fold_left (λ m c, <[image c := c]> m) captions ∅.

(** [caption_map.get(image_name, {}).get('caption', '')] *)
Definition caption_for (captions : list caption_entry) (_ : nat)
    (image_name : str) : str :=
  match caption_map captions !! image_name with
  | Some c => default [] (caption c)
  | None => []
  end.

Record pdf_data := PdfData {
  pdf_name : str;
  md_content : str;
  captions : list caption_entry;
  image_files : list path;
  images_dir : path
}.

Definition build (read_b64 : path → option str) (d : pdf_data) : sequence :=
  Sequence (pdf_name d)
    (SequenceBuilder.build_content read_b64 (caption_for (captions d))
       (md_content d) (finditer image_pattern (md_content d))
       (image_files d))
    (image_files d) (images_dir d).

Definition create_multimodal_sequences (read_b64 : path → option str)
    (parsed_data : list pdf_data) : list sequence :=
  build read_b64 <$> parsed_data.

End VEmbedBuilder.

(** ** State passing *)

(** Computations that thread the state of the outside world. *)
Definition State (W A : Type) : Type := W → A * W.

#[global] Instance State_ret {W} : MRet (State W) := λ A a w, (a, w).
#[global] Instance State_bind {W} : MBind (State W) :=
  λ A B f m w, let '(a, w') := m w in f a w'.

(** A [for] loop that updates an accumulator. *)
Fixpoint for_each {W A B} (body : B → A → State W B) (l : list A) (acc : B)
  : State W B :=
  match l with
  | [] => mret acc
  | a :: l' => acc' ← body acc a; for_each body l' acc'
  end.

(** [enumerate(l)] *)
Definition enumerate {A} (l : list A) : list (nat * A) := imap (λ i a, (i, a)) l.

(** [sep.join(parts)] *)
Fixpoint join (sep : str) (parts : list str) : str :=
  match parts with
  | [] => []
  | [p] => p
  | p :: rest => p ++ sep ++ join sep rest
  end.

(** ** [preprocess_korean_text] (step2.py) *)

Section Normalizer.

(** [str.isalnum] on one code point: the Unicode table behind [\w]. *)
Variable unicode_isalnum : char → bool.

(** [\w] *)
Definition is_word (c : char) : bool := unicode_isalnum c || (c =? 95)%N.

(** The range [가-힣]. *)
Definition is_hangul (c : char) : bool := ((44032 <=? c) && (c <=? 55203))%N.

(** [re.sub(r'\s+', ' ', s)]; [in_run] holds inside a whitespace run
    whose replacement has been emitted already. *)
Fixpoint collapse_ws_from (in_run : bool) (s : str) : str :=
  match s with
  | [] => []
  | c :: s' =>
      if is_space c
      then (if in_run then collapse_ws_from true s'
            else 32%N :: collapse_ws_from true s')
      else c :: collapse_ws_from false s'
  end.

Definition collapse_ws (s : str) : str := collapse_ws_from false s.

(** [re.sub(r'[^\w\s가-힣]', ' ', s)] *)
Definition blank_specials (s : str) : str :=
  (λ c, if is_word c || is_space c || is_hangul c then c else 32%N) <$> s.

Definition preprocess_korean_text (text : str) : str :=
  collapse_ws (blank_specials (collapse_ws (strip text))).

End Normalizer.

(** [str.isalnum] on ASCII; used for concrete runs on ASCII text. *)
Definition ascii_isalnum (c : char) : bool :=
  ((48 <=? c) && (c <=? 57) || (65 <=? c) && (c <=? 90)
   || (97 <=? c) && (c <=? 122))%N.

(** ** [create_voyage_multimodal_embeddings] (step2.py) *)

Module Embedder.

(** ["voyage-large-2"], ["voyage-02"], ["voyage-01"] *)
Definition voyage_large_2 : str := py "voyage-large-2".
Definition voyage_02 : str := py "voyage-02".
Definition voyage_01 : str := py "voyage-01".
Definition models_to_try : list str := [voyage_large_2; voyage_02; voyage_01].

Section Service.

(** The numbers of an embedding, with the two operations [np.mean] uses:
    addition, and division by the number of rows. *)
Variable num : Type.
Variable nadd : num → num → num.
Variable ndiv : num → nat → num.

(** The state of the embedding service behind [voyage_client]. *)
Variable client : Type.

(** What [voyage_client.embed] does: raise an [Exception] (a rate limit,
    a refused model, a network failure), or return [result] with its
    [embeddings]. *)
Inductive response :=
| Raises
| Result (embeddings : list (list num)).

Variable embed : client → str → list str → response * client.
Variable list_models : client → client.

(** [result.embeddings[0]], when the call in the [try] block succeeds. *)
Definition first_embedding (r : response) : option (list num) :=
  match r with
  | Result (v :: _) => Some v
  | _ => None
  end.

(** A call of [voyage_client.embed(texts=..., model=...)] and what came
    back. *)
Record event := CallEmbed {
  ev_model : str;
  ev_texts : list str;
  ev_response : response
}.

Record world := World { service : client; trace : list event }.

Definition call_embed (model_name : str) (texts : list str)
  : State world response :=
  λ w, let '(r, c) := embed (service w) model_name texts in
       (r, World c (trace w ++ [CallEmbed model_name texts r])).

(** [for model_name in models_to_try: try: ... break / except: continue]
    with the [else] branch as [None]. *)
Fixpoint try_models (models : list str) (text : str)
  : State world (option (list num * str)) :=
  match models with
  | [] => mret None
  | model_name :: rest =>
      r ← call_embed model_name [text];
      match first_embedding r with
      | Some v => mret (Some (v, model_name))
      | None => try_models rest text
      end
  end.

(** An element of [chunk_embeddings]. *)
Record chunk_embedding := ChunkEmbedding {
  chunk_index : nat;
  chunk_text_of : str;
  embedding : list num;
  model_used : str
}.

(** The body of [for j, chunk in enumerate(text_chunks):]. *)
Definition chunk_body (acc : list chunk_embedding) (jc : nat * str)
  : State world (list chunk_embedding) :=
  r ← try_models models_to_try jc.2;
  mret match r with
       | Some (v, model_name) =>
           acc ++ [ChunkEmbedding jc.1 jc.2 v model_name]
       | None => acc
       end.

Definition embed_chunks (text_chunks : list str)
  : State world (list chunk_embedding) :=
  for_each chunk_body (enumerate text_chunks) [].

(** [np.mean(rows, axis=0).tolist()] on a non-empty list of rows: rows of
    different lengths make NumPy raise ([None]); otherwise the rows are
    added from the first on and every sum is divided by their number. *)
Definition vadd (u v : list num) : list num := zip_with nadd u v.

Definition np_mean (row : list num) (rows : list (list num))
  : option (list num) :=
  if forallb (λ v, Nat.eqb (length v) (length row)) rows
  then Some ((λ x, ndiv x (S (length rows))) <$> fold_left vadd rows row)
  else None.

Variable unicode_isalnum : char → bool.

(** ["[이미지: "] and ["[이미지]"] *)
Definition image_open : str := [91; 51060; 48120; 51648; 58; 32]%N.
Definition image_placeholder : str := [91; 51060; 48120; 51648; 93]%N.

(** The entries one item adds to [text_content]. *)
Definition item_text (item : segment) : list str :=
  match item with
  | TextSeg content =>
      match preprocess_korean_text unicode_isalnum content with
      | [] => []
      | processed_text => [processed_text]
      end
  | ImageSeg _ _ [] => [image_placeholder]
  | ImageSeg _ _ caption =>
      [image_open ++ preprocess_korean_text unicode_isalnum caption ++ [93%N]]
  end.

Definition combined_text (seq : sequence) : str :=
  join [32%N] (multimodal_content seq ≫= item_text).

(** An element of the returned [embeddings]. *)
Record doc_embedding := DocEmbedding {
  doc_pdf_name : str;
  doc_content : list segment;
  doc_embedding_vector : list num;
  doc_text : str;
  doc_chunks : list chunk_embedding
}.

(** What the body of the outer loop does with [chunk_embeddings]. *)
Definition aggregate (seq : sequence) (chunk_embeddings : list chunk_embedding)
  : option doc_embedding :=
  match chunk_embeddings with
  | [] => None
  | c :: cs =>
      match np_mean (embedding c) (embedding <$> cs) with
      | Some avg_embedding =>
          Some (DocEmbedding (seq_pdf_name seq) (multimodal_content seq)
                  avg_embedding (combined_text seq) chunk_embeddings)
      | None => None
      end
  end.

(** The body of [for i, sequence in enumerate(sequences):]: the
    document's element of [embeddings], if it gets one. *)
Definition embed_sequence (seq : sequence) : State world (option doc_embedding) :=
  chunk_embeddings ←
    embed_chunks (Chunker.chunk_text (combined_text seq) 1500);
  mret (aggregate seq chunk_embeddings).

Definition sequence_body (embeddings : list doc_embedding) (seq : sequence)
  : State world (list doc_embedding) :=
  r ← embed_sequence seq;
  mret match r with
       | Some d => embeddings ++ [d]
       | None => embeddings
       end.

Definition embed_sequences (sequences : list sequence)
  : State world (list doc_embedding) :=
  for_each sequence_body sequences [].

Definition create_voyage_multimodal_embeddings (sequences : list sequence)
  : State world (list doc_embedding) :=
  λ w, embed_sequences sequences (World (list_models (service w)) (trace w)).

End Service.

Arguments Raises {num}.
Arguments Result {num} embeddings.
Arguments first_embedding {num} r.
Arguments CallEmbed {num} ev_model ev_texts ev_response.
Arguments ev_model {num} e.
Arguments ev_texts {num} e.
Arguments ev_response {num} e.
Arguments World {num client} service trace.
Arguments service {num client} w.
Arguments trace {num client} w.
Arguments ChunkEmbedding {num} chunk_index chunk_text_of embedding model_used.
Arguments chunk_index {num} c.
Arguments chunk_text_of {num} c.
Arguments embedding {num} c.
Arguments model_used {num} c.
Arguments DocEmbedding {num} doc_pdf_name doc_content doc_embedding_vector
  doc_text doc_chunks.
Arguments doc_pdf_name {num} d.
Arguments doc_content {num} d.
Arguments doc_embedding_vector {num} d.
Arguments doc_text {num} d.
Arguments doc_chunks {num} d.

End Embedder.

(** ** [save_to_qdrant] (step2.py and v_embed.py) and
       [search_similar_documents] (step2.py) *)

Module Index.
Section Client.

Variable num : Type.

(** An entry of the payload's ['images'] list (step2.py). *)
Record image_info := ImageInfo {
  info_image_name : str;
  info_caption : str;
  info_image_path : str
}.

(** The payload of a point; v_embed.py stores neither the image count nor
    the image entries. *)
Record payload := Payload {
  payload_pdf_name : str;
  payload_text : str;
  content_count : nat;
  image_count : option nat;
  images : option (list image_info)
}.

(** [models.PointStruct] *)
Record point := Point {
  point_id : str;
  point_vector : list num;
  point_payload : payload
}.

(** A hit of [qdrant_client.search]. *)
Record scored_point := ScoredPoint { hit : point; score : num }.

(** The calls made on [qdrant_client]; every collection is created with
    [Distance.COSINE]. *)
Inductive qcall :=
| DeleteCollection (collection_name : str)
| CreateCollection (collection_name : str) (size : nat)
| Upsert (collection_name : str) (points : list point)
| SearchPoints (collection_name : str) (query_vector : list num) (limit : nat).

Inductive qreply :=
| QRaises
| QReturns (hits : list scored_point).

(** The state of the index service, and how it answers a call. *)
Variable qclient : Type.
Variable qdrant : qclient → qcall → qreply * qclient.

(** [uuid.uuid4()]: the identifier drawn for the [i]-th point. *)
Variable uuid4 : nat → str.

Record qworld := QWorld { qservice : qclient; qtrace : list qcall }.

Definition call (c : qcall) : State qworld qreply :=
  λ w, let '(r, q) := qdrant (qservice w) c in (r, QWorld q (qtrace w ++ [c])).

(** How a function ends: an exception leaves it, or it returns. *)
Inductive outcome (A : Type) :=
| Raised
| Returned (a : A).
Arguments Raised {A}.
Arguments Returned {A} a.

(** What every [save_to_qdrant] does around its points: delete the
    collection (any failure is swallowed), create it, upsert. *)
Definition reset_and_upsert (collection_name : str) (vector_size : nat)
    (points : list point) : State qworld (outcome str) :=
  _ ← call (DeleteCollection collection_name);
  created ← call (CreateCollection collection_name vector_size);
  match created with
  | QRaises => mret Raised
  | QReturns _ =>
      upserted ← call (Upsert collection_name points);
      match upserted with
      | QRaises => mret Raised
      | QReturns _ => mret (Returned collection_name)
      end
  end.

(** ["[이미지: " + caption + "]"] *)
Definition image_tag (caption : str) : str :=
  Embedder.image_open ++ caption ++ [93%N].

(** [content[:100] + '...' if len(content) > 100 else content] *)
Definition preview (content : str) : str :=
  if 100 <? len content then take 100 content ++ [46; 46; 46]%N
  else content.

(** *** step2.py *)

Definition step2_text (item : segment) : str :=
  match item with
  | TextSeg content => content
  | ImageSeg _ _ caption => image_tag caption
  end.

Definition step2_image_info (item : segment) : list image_info :=
  match item with
  | TextSeg _ => []
  | ImageSeg content image_name caption =>
      [ImageInfo image_name caption (preview content)]
  end.

Definition step2_point (i : nat) (emb_data : Embedder.doc_embedding num)
  : point :=
  let content := Embedder.doc_content emb_data in
  let image_info := content ≫= step2_image_info in
  Point (uuid4 i) (Embedder.doc_embedding_vector emb_data)
    (Payload (Embedder.doc_pdf_name emb_data)
       (join [32%N] (step2_text <$> content))
       (length content)
       (Some (length image_info))
       (Some image_info)).

(** [len(embeddings[0]['embedding'])], or 1536 for no embeddings. *)
Definition step2_vector_size (embeddings : list (Embedder.doc_embedding num))
  : nat :=
  match embeddings with
  | first :: _ => length (Embedder.doc_embedding_vector first)
  | [] => 1536%nat
  end.

Definition step2_save_to_qdrant
    (embeddings : list (Embedder.doc_embedding num)) (collection_name : str)
  : State qworld (outcome str) :=
  reset_and_upsert collection_name (step2_vector_size embeddings)
    (imap step2_point embeddings).

(** *** v_embed.py *)

(** An element of [embeddings] as v_embed.py builds it. *)
Record vembed_doc := VEmbedDoc {
  vdoc_pdf_name : str;
  vdoc_content : list segment;
  vdoc_embedding : list num
}.




(** *** [search_similar_documents] (step2.py) *)

Variable client : Type.
Variable embed : client → str → list str → Embedder.response num * client.
Variable unicode_isalnum : char → bool.

(** The value of [limit] when the caller gives none. *)
Definition default_limit : nat := 5.

Definition search_similar_documents (collection_name query_text : str)
    (limit : option nat)
    (vw : Embedder.world num client) (qw : qworld)
  : outcome (list scored_point) * Embedder.world num client * qworld :=
  let limit := default default_limit limit in
  let processed_query := preprocess_korean_text unicode_isalnum query_text in
  let '(found, vw') :=
    Embedder.try_models num client embed Embedder.models_to_try
      processed_query vw in
  match found with
  | None => (Returned [], vw', qw)
  | Some (query_vector, _) =>
      let '(r, qw') :=
        call (SearchPoints collection_name query_vector limit) qw in
      match r with
      | QRaises => (Raised, vw', qw')
      | QReturns search_result => (Returned search_result, vw', qw')
      end
  end.

End Client.

Arguments Raised {A}.
Arguments Returned {A} a.
Arguments Point {num} point_id point_vector point_payload.
Arguments point_id {num} _.
Arguments point_vector {num} _.
Arguments point_payload {num} _.
Arguments ScoredPoint {num} hit score.
Arguments DeleteCollection {num} collection_name.
Arguments CreateCollection {num} collection_name size.
Arguments Upsert {num} collection_name points.
Arguments SearchPoints {num} collection_name query_vector limit.
Arguments QRaises {num}.
Arguments QReturns {num} hits.
Arguments QWorld {num qclient} qservice qtrace.
Arguments qservice {num qclient} _.
Arguments qtrace {num qclient} _.
Arguments VEmbedDoc {num} vdoc_pdf_name vdoc_content vdoc_embedding.
Arguments vdoc_pdf_name {num} _.
Arguments vdoc_content {num} _.
Arguments vdoc_embedding {num} _.

End Index.

(** ** The retrieve-generate workflow and [interactive_qa] (step3.py) *)

Module Workflow.

(** Python exceptions, by the classes the [except] clauses tell apart:
    [KeyboardInterrupt], instances of [Exception], and the remaining
    [BaseException]s ([SystemExit], [GeneratorExit]). *)
Inductive exn :=
| KeyboardInterrupt
| Exception (msg : str)
| OtherBaseException.

(** A LangChain document, as far as the workflow reads it. *)
Record document := Document { page_content : str; doc_source : str }.

(** What [create_retriever_from_existing_data] fixes: the collection, the
    one embedding model, and [search_kwargs={"k": 10}]. *)
Record retriever := Retriever {
  retriever_collection : str;
  retriever_embedding_model : str;
  retriever_k : nat
}.

Definition text_embedding_3_small : str := py "text-embedding-3-small".

Definition create_retriever_from_existing_data (collection_name : str)
  : retriever :=
  Retriever collection_name text_embedding_3_small 10.

Record RAGState := MkRAGState {
  question : str;
  documents : list document;
  answer : str
}.

(** The lines the workflow and the loop print. *)
Inductive message :=
| MsgSearching
| MsgRetrieved (n : nat)
| MsgGenerating
| MsgGenerated
| MsgAnswering
| MsgAnswer (answer : str)
| MsgReferenced (n : nat)
| MsgBye
| MsgError (msg : str).

(** What one run does to the outside world, in order. *)
Inductive effect :=
| Prompt
| CallRetriever (r : retriever) (query : str)
| CallChain (context question : str)
| Say (m : message).

(** How the outside world answers during one pass of the loop: what
    [input] gives, what [retriever.invoke] and the prompt-model chain
    give. *)
Record turn := Turn {
  stdin : exn + str;
  retriever_invoke : retriever → str → exn + list document;
  chain_invoke : str → str → exn + str
}.

(** A computation that logs its effects and may end in an exception. *)
Definition Run (A : Type) : Type := list effect * (exn + A).

#[global] Instance Run_ret : MRet Run := λ A a, ([], inr a).
#[global] Instance Run_bind : MBind Run :=
  λ A B f m,
    match m with
    | (log, inl e) => (log, inl e)
    | (log, inr a) => let '(log', r) := f a in (log ++ log', r)
    end.

Definition say (m : message) : Run unit := ([Say m], inr tt).
Definition perform {A} (e : effect) (result : exn + A) : Run A :=
  ([e], result).

Definition retrieve_documents (r : retriever) (t : turn) (state : RAGState)
  : Run RAGState :=
  _ ← say MsgSearching;
  let question := question state in
  documents ← perform (CallRetriever r question)
                (retriever_invoke t r question);
  _ ← say (MsgRetrieved (length documents));
  mret (MkRAGState question documents []).

Definition generate_answer (t : turn) (state : RAGState) : Run RAGState :=
  _ ← say MsgGenerating;
  let question := question state in
  let documents := documents state in
  let context := join [10; 10]%N (page_content <$> documents) in
  answer ← perform (CallChain context question)
             (chain_invoke t context question);
  _ ← say MsgGenerated;
  mret (MkRAGState question documents answer).

(** [rag_app.invoke]: the graph retrieve, generate, END. *)
Definition rag_app_invoke (r : retriever) (t : turn) (initial_state : RAGState)
  : Run RAGState :=
  retrieve_documents r t initial_state ≫= generate_answer t.

Section Loop.

(** [str.lower], which rests on the Unicode case tables. *)
Variable str_lower : str → str.

(** ['quit'], ['exit'], ['종료'] *)
Definition termination_tokens : list str :=
  [py "quit"; py "exit"; [51333; 47308]%N].

(** How one pass of [while True:] ends. *)
Inductive control :=
| Continue
| Break
| Propagate (e : exn).

(** The [try] block of the loop. *)
Definition try_block (r : retriever) (t : turn) : Run control :=
  line ← perform Prompt (stdin t);
  let question := strip line in
  if bool_decide (str_lower question ∈ termination_tokens)
  then _ ← say MsgBye; mret Break
  else
    match question with
    | [] => mret Continue
    | _ :: _ =>
        _ ← say MsgAnswering;
        result ← rag_app_invoke r t (MkRAGState question [] []);
        _ ← say (MsgAnswer (answer result));
        _ ← say (MsgReferenced (length (documents result)));
        mret Continue
    end.

(** One pass: the [try] block with its two [except] clauses. *)
Definition iteration (r : retriever) (t : turn) : list effect * control :=
  match try_block r t with
  | (log, inr c) => (log, c)
  | (log, inl KeyboardInterrupt) => (log ++ [Say MsgBye], Break)
  | (log, inl (Exception msg)) => (log ++ [Say (MsgError msg)], Continue)
  | (log, inl OtherBaseException) => (log, Propagate OtherBaseException)
  end.

(** Where the loop stands once the outside world has answered the turns
    of a script: still at the prompt, returned, or left by an uncaught
    exception. *)
Inductive status :=
| AtPrompt
| Exited
| Crashed (e : exn).

Fixpoint interactive_qa (r : retriever) (script : list turn)
  : list effect * status :=
  match script with
  | [] => ([], AtPrompt)
  | t :: rest =>
      let '(log, c) := iteration r t in
      match c with
      | Continue =>
          let '(log', s) := interactive_qa r rest in (log ++ log', s)
      | Break => (log, Exited)
      | Propagate e => (log, Crashed e)
      end
  end.

End Loop.
End Workflow.

(** [str.lower] on ASCII; used for concrete runs on ASCII text. *)
Definition ascii_lower (s : str) : str :=
  (λ c, if (65 <=? c) && (c <=? 90) then c + 32 else c)%N <$> s.

(** ** Vocabulary of the statements *)

(** The characters that are neither whitespace nor sentence terminators. *)
Definition is_content (c : char) : Prop :=
  is_space c = false ∧ is_terminator c = false.

#[global] Instance is_content_dec c : Decision (is_content c).
Proof. unfold is_content. apply _. Defined.

(** A text without its whitespace and its sentence terminators. *)
Definition content_of (s : str) : str := filter is_content s.

Module ChunkerSpec.
Import Chunker.

(** Everything the loop has produced so far, in order. *)
Definition produced (st : loop_state) : str :=
  concat (chunks st) ++ current_chunk st.

(** What can be said of one chunk of [text] under [max_length]: it is
    within the bound, or it is the text itself and the text has blank
    sentences only, or it is one stripped sentence followed by a full
    stop. *)
Definition chunk_ok (text : str) (max_length : Z) (c : str) : Prop :=
  len c <= max_length
  ∨ (c = text ∧ Forall (λ s, strip s = []) (re_split text))
  ∨ ∃ s, s ∈ re_split text ∧ strip s ≠ [] ∧ c = strip s ++ [46%N].

(** The loop invariant behind [chunk_ok]: the buffer is empty, or it is
    a body that starts with a non-space character, followed by the
    separator, and flushing it gives an acceptable chunk. *)
Definition buffer_ok (text : str) (max_length : Z) (cur : str) : Prop :=
  cur = [] ∨
  ∃ c body, cur = (c :: body) ++ sep ∧ is_space c = false
            ∧ chunk_ok text max_length ((c :: body) ++ [46%N]).

Definition state_ok text max_length (st : loop_state) : Prop :=
  Forall (chunk_ok text max_length) (chunks st)
  ∧ buffer_ok text max_length (current_chunk st).

End ChunkerSpec.

Module SequenceSpec.

(** The image segments of a sequence, in order: content, image name and
    caption of each. *)
Definition images_of (l : list segment) : list (str * str * str) :=
  omap (λ seg, match seg with
               | ImageSeg c n cap => Some (c, n, cap)
               | TextSeg _ => None
               end) l.

(** The text segments of a sequence, in order. *)
Definition texts_of (l : list segment) : list str :=
  omap (λ seg, match seg with
               | TextSeg t => Some t
               | ImageSeg _ _ _ => None
               end) l.

(** The stripped stretches of [md_content] around the markers: before
    the first, between consecutive ones, after the last. *)
Fixpoint gaps (md_content : str) (pos : nat) (matches : list (nat * nat))
  : list str :=
  match matches with
  | [] => [strip (slice md_content pos (length md_content))]
  | (m_start, m_end) :: rest =>
      strip (slice md_content pos m_start) :: gaps md_content m_end rest
  end.

(** The Image segment made of the [i]-th image file once it is read. *)
Definition image_of (read_b64 : path → option str)
    (caption_for : nat → str → str) (i : nat) (image_file : path)
  : str * str * str :=
  (SequenceBuilder.data_url_prefix ++ default [] (read_b64 image_file),
   name image_file, caption_for i (name image_file)).

(** The loop of the builder as a recursion over the markers left, [k]
    being the index of the next marker and [pos] the position reached. *)
Fixpoint interleave (read_b64 : path → option str)
    (caption_for : nat → str → str) (md_content : str)
    (image_files : list path) (k pos : nat) (matches : list (nat * nat))
  : list segment :=
  match matches with
  | [] => []
  | (m_start, m_end) :: rest =>
      SequenceBuilder.text_part md_content pos m_start
        ++ SequenceBuilder.image_part read_b64 caption_for image_files k
        ++ interleave read_b64 caption_for md_content image_files
             (S k) m_end rest
  end.

End SequenceSpec.

Module EmbedderSpec.
Section Spec.
Import Embedder.

Variable num : Type.
Variable client : Type.
Variable embed : client → str → list str → response num * client.

(** A call that supplied no vector: it raised, or its result had no
    embedding to take. *)
Definition failed (e : event num) : Prop :=
  first_embedding (ev_response e) = None.

(** [served c log c']: from state [c], the service answered the calls of
    [log], one after the other, as recorded, and was left in [c']. *)
Inductive served : client → list (event num) → client → Prop :=
| served_nil c : served c [] c
| served_cons c e c' log c'' :
    embed c (ev_model e) (ev_texts e) = (ev_response e, c') →
    served c' log c'' →
    served c (e :: log) c''.

(** What the fallback gives for each chunk in turn, the service state
    passing from one chunk to the next. *)
Fixpoint chunk_outcomes (text_chunks : list str)
  : State (world num client) (list (option (list num * str))) :=
  match text_chunks with
  | [] => mret []
  | chunk :: rest =>
      r ← try_models num client embed models_to_try chunk;
      rs ← chunk_outcomes rest;
      mret (r :: rs)
  end.

(** The entries of [chunk_embeddings] that outcomes amount to, the first
    chunk having index [j]. *)
Fixpoint collect (j : nat) (text_chunks : list str)
    (outcomes : list (option (list num * str))) : list (chunk_embedding num) :=
  match text_chunks, outcomes with
  | chunk :: rest, r :: rs =>
      match r with
      | Some (v, model_name) => [ChunkEmbedding j chunk v model_name]
      | None => []
      end ++ collect (S j) rest rs
  | _, _ => []
  end.

(** The vectors of the chunks that got one. *)
Definition vectors_of (outcomes : list (option (list num * str)))
  : list (list num) :=
  omap (fmap fst) outcomes.

End Spec.
End EmbedderSpec.

(** ** Sample collaborators, for concrete runs *)

Module Samples.

(** Integers as numbers, with integer division by the count. *)
Definition zdiv (x : Z) (n : nat) : Z := x / Z.of_nat n.

(** An embedding service that counts its calls and answers only the
    second model of the list, with a vector of two numbers. *)
Definition second_model_only (calls : nat) (model_name : str)
    (texts : list str) : Embedder.response Z * nat :=
  if bool_decide (model_name = Embedder.voyage_02)
  then (Embedder.Result [[Z.of_nat calls; 2]], S calls)
  else (Embedder.Raises, S calls).

(** An index service that accepts every call. *)
Definition accepting (q : unit) (c : Index.qcall Z)
  : Index.qreply Z * unit :=
  (Index.QReturns [], tt).

Definition uuid4 (i : nat) : str := py "id".

Definition hello : sequence :=
  Sequence (py "doc") [TextSeg (py "hello world")] []
    (Path (py "data/parsed/doc") (py "images")).

Definition start : Embedder.world Z nat := Embedder.World 0%nat [].

(** A turn of the question loop: the retriever gives back one document
    holding the query it was given, the chain answers with its context. *)
Definition echo (line : Workflow.exn + str) : Workflow.turn :=
  Workflow.Turn line
    (λ _ query, inr [Workflow.Document query (py "src")])
    (λ context _, inr context).

(** A turn in which the chain fails with an [Exception]. *)
Definition failing_chain (line : Workflow.exn + str) : Workflow.turn :=
  Workflow.Turn line
    (λ _ query, inr [Workflow.Document query (py "src")])
    (λ _ _, inl (Workflow.Exception (py "rate limit"))).

End Samples.

Module WorkflowSpec.
Section Spec.
Import Workflow.

Variable str_lower : str → str.

(** The turn makes the loop end: its line is a termination token, or a
    [KeyboardInterrupt] arrives during it. *)
Definition ends_loop (r : retriever) (t : turn) : Prop :=
  (∃ line, stdin t = inr line
           ∧ str_lower (strip line) ∈ termination_tokens)
  ∨ (try_block str_lower r t).2 = inl KeyboardInterrupt.

(** The turn raises what no [except] clause of the loop catches. *)
Definition escapes (r : retriever) (t : turn) : Prop :=
  (try_block str_lower r t).2 = inl OtherBaseException.

End Spec.
End WorkflowSpec.

(** * Further code and vocabulary *)

Module ChunkShapeSpec.
Import Chunker.

(** The loop state of [chunk_text] when every chunk so far satisfies [P]
    and the buffer is empty or made of a body, starting with a non-space
    character, and the separator. *)
Definition shaped (P : str → Prop) (st : loop_state) : Prop :=
  Forall P (chunks st)
  ∧ (current_chunk st = []
     ∨ ∃ c body, current_chunk st = (c :: body) ++ sep ∧ is_space c = false).

End ChunkShapeSpec.

(** No two whitespace characters in a row. *)
Fixpoint single_spaced (s : str) : bool :=
  match s with
  | a :: (b :: _) as rest => negb (is_space a && is_space b) && single_spaced rest
  | _ => true
  end.

Module ScanSpec.

(** Spans that follow one another from position [lo] on: each is not
    empty and starts at or after the end of the one before. *)
Fixpoint chained (lo : nat) (spans : list (nat * nat)) : Prop :=
  match spans with
  | [] => True
  | (a, b) :: rest => (lo ≤ a)%nat ∧ (a < b)%nat ∧ chained b rest
  end.

(** Position [p] lies inside one of the spans. *)
Definition covered (p : nat) (spans : list (nat * nat)) : Prop :=
  Exists (λ ab, (ab.1 ≤ p)%nat ∧ (p < ab.2)%nat) spans.

(** The stretches of [s] outside the spans, unstripped: before the first
    span, between consecutive spans, after the last. *)
Fixpoint raw_gaps (s : str) (pos : nat) (spans : list (nat * nat))
  : list str :=
  match spans with
  | [] => [slice s pos (length s)]
  | (a, b) :: rest => slice s pos a :: raw_gaps s b rest
  end.

End ScanSpec.

(** A text without its whitespace. *)
Definition nonspace (s : str) : str := filter (λ c, is_space c = false) s.


(** The text from [pos] on, put together again from the stretches
    outside the spans and the spans themselves. *)
Fixpoint reassemble (s : str) (pos : nat) (spans : list (nat * nat)) : str :=
  match spans with
  | [] => slice s pos (length s)
  | (a, b) :: rest => slice s pos a ++ slice s a b ++ reassemble s b rest
  end.


(** ** The batch of embeddings *)

Module BatchSpec.
Section Spec.
Import Embedder.

Variable num : Type.
Variable client : Type.
Variable embed : client → str → list str → response num * client.

(** From [w] to [w'] the service answered between [lo] and [hi] calls
    and nothing else happened; each call was for one of the three models,
    on one text. *)
Definition calls (lo hi : nat) (w w' : world num client) : Prop :=
  ∃ log,
    trace w' = trace w ++ log
    ∧ EmbedderSpec.served num client embed (service w) log (service w')
    ∧ Forall (λ e, ev_model e ∈ models_to_try
                   ∧ length (ev_texts e) = 1%nat) log
    ∧ (lo ≤ length log)%nat ∧ (length log ≤ hi)%nat.

(** [d] is an entry made for the document [seq]. *)
Definition entry_of (unicode_isalnum : char → bool)
    (d : doc_embedding num) (seq : sequence) : Prop :=
  doc_pdf_name d = seq_pdf_name seq
  ∧ doc_content d = multimodal_content seq
  ∧ doc_text d = combined_text unicode_isalnum seq
  ∧ doc_chunks d ≠ [].

(** The chunks of a batch of documents. *)
Definition chunks_of (unicode_isalnum : char → bool)
    (sequences : list sequence) : list str :=
  sequences ≫= λ seq,
    Chunker.chunk_text (combined_text unicode_isalnum seq) 1500.

End Spec.
End BatchSpec.


(** ** What a log of the question loop holds *)

Module EffectSpec.
Import Workflow.

(** The calls of the retriever in a log, in order. *)
Definition retriever_calls (log : list effect) : list (retriever * str) :=
  omap (λ e, match e with
             | CallRetriever r query => Some (r, query)
             | _ => None
             end) log.

(** The calls of the prompt-model chain in a log, in order: context and
    question. *)
Definition chain_calls (log : list effect) : list (str * str) :=
  omap (λ e, match e with
             | CallChain context question => Some (context, question)
             | _ => None
             end) log.

(** The number of times the loop asked for a line. *)
Definition prompts (log : list effect) : nat :=
  length (omap (λ e, match e with Prompt => Some tt | _ => None end) log).

End EffectSpec.


Module LoopSpec.
Section Spec.
Import Workflow EffectSpec.

Variable str_lower : str → str.

(** What the log of one pass of the loop holds: one prompt, at most one
    call of the retriever, a call of the chain only after a call of the
    retriever, for the same question; and the retriever is asked a
    stripped question that is neither empty nor a termination token. *)
Definition pass_ok (r : retriever) (log : list effect) : Prop :=
  prompts log = 1%nat
  ∧ (length (retriever_calls log) ≤ 1)%nat
  ∧ (length (chain_calls log) ≤ length (retriever_calls log))%nat
  ∧ Forall (λ rq, rq.1 = r ∧ rq.2 ≠ [] ∧ strip rq.2 = rq.2
                  ∧ (str_lower rq.2 ∉ termination_tokens))
      (retriever_calls log)
  ∧ Forall (λ cq, cq.2 ∈ (retriever_calls log).*2) (chain_calls log).

End Spec.
End LoopSpec.


(** ** [test_search_functionality] and [main] (step2.py) *)

Module Step2Main.
Section Main.

Variable num : Type.
Variable nadd : num → num → num.
Variable ndiv : num → nat → num.
Variable client : Type.
Variable embed : client → str → list str → Embedder.response num * client.
Variable list_models : client → client.
Variable unicode_isalnum : char → bool.
Variable qclient : Type.
Variable qdrant : qclient → Index.qcall num → Index.qreply num * qclient.
Variable uuid4 : nat → str.
Variable read_b64 : path → option str.

(** The default of [collection_name] in [save_to_qdrant]:
    ["voyage-multimodal-docs"]. *)
Definition default_collection : str := py "voyage-multimodal-docs".

(** The eight queries of [test_queries]. *)
Definition test_queries : list str :=
  [[46392; 44592; 32; 45453; 51109; 51032; 32; 50728; 46020; 32; 44288; 47532];
   [54872; 44221; 32; 51312; 51208; 32; 49884; 49828; 53596];
   [45453; 51089; 47932; 32; 49373; 50977; 32; 44288; 47532];
   [48708; 45776; 54616; 50864; 49828; 32; 49884; 49444];
   [46392; 44592; 32; 51116; 48176; 32; 44592; 49696];
   [50728; 49892; 32; 54872; 44221; 32; 44288; 47532];
   [45453; 50629; 32; 49884; 49444; 32; 51088; 46041; 54868];
   [46392; 44592; 32; 54408; 51656; 32; 44288; 47532]]%N.

(** [for query in test_queries: search_similar_documents(..., query,
    limit=3)]; a search that raises ends the loop and the function. *)
Fixpoint search_each (collection_name : str) (queries : list str)
    (vw : Embedder.world num client) (qw : Index.qworld num qclient)
  : Index.outcome unit * Embedder.world num client * Index.qworld num qclient :=
  match queries with
  | [] => (Index.Returned tt, vw, qw)
  | query :: rest =>
      let '(r, vw', qw') :=
        Index.search_similar_documents num qclient qdrant client embed
          unicode_isalnum collection_name query (Some 3%nat) vw qw in
      match r with
      | Index.Raised => (Index.Raised, vw', qw')
      | Index.Returned _ => search_each collection_name rest vw' qw'
      end
  end.

Definition test_search_functionality (collection_name : str) :=
  search_each collection_name test_queries.

(** How [main] ends: at one of its four early [return]s, by an exception
    out of [save_to_qdrant] or of a search, or after its last line. *)
Inductive ending :=
| MissingApiKey
| NoProcessedData
| NoSequences
| NoEmbeddings
| Failed
| Completed.

(** [main], from what [os.getenv("VOYAGE_API_KEY")] gives and what
    [load_processed_data] returned. *)
Definition main (api_key : option str)
    (processed_data : list Step2Builder.pdf_data)
    (vw : Embedder.world num client) (qw : Index.qworld num qclient)
  : ending * Embedder.world num client * Index.qworld num qclient :=
  match api_key with
  | None | Some [] => (MissingApiKey, vw, qw)
  | Some (_ :: _) =>
      match processed_data with
      | [] => (NoProcessedData, vw, qw)
      | _ :: _ =>
          let sequences :=
            Step2Builder.create_multimodal_sequences read_b64 processed_data in
          match sequences with
          | [] => (NoSequences, vw, qw)
          | _ :: _ =>
              let '(embeddings, vw1) :=
                Embedder.create_voyage_multimodal_embeddings num nadd ndiv
                  client embed list_models unicode_isalnum sequences vw in
              match embeddings with
              | [] => (NoEmbeddings, vw1, qw)
              | _ :: _ =>
                  let '(saved, qw1) :=
                    Index.step2_save_to_qdrant num qclient qdrant uuid4
                      embeddings default_collection qw in
                  match saved with
                  | Index.Raised => (Failed, vw1, qw1)
                  | Index.Returned collection_name =>
                      let '(r, vw2, qw2) :=
                        test_search_functionality collection_name vw1 qw1 in
                      match r with
                      | Index.Raised => (Failed, vw2, qw2)
                      | Index.Returned _ => (Completed, vw2, qw2)
                      end
                  end
              end
          end
      end
  end.

End Main.
End Step2Main.

Module Step2MainSpec.

(** A search of [collection_name] for three hits. *)
Definition is_test_search {num} (collection_name : str) (c : Index.qcall num)
  : Prop :=
  match c with
  | Index.SearchPoints name _ limit => name = collection_name ∧ limit = 3%nat
  | _ => False
  end.

End Step2MainSpec.


(** ** [create_voyage_multimodal_embeddings] and
       [search_similar_documents] (v_embed.py) *)

Module VEmbed.

(** ["voyage-multimodal-3"], ["document"], ["query"] *)
Definition voyage_multimodal_3 : str := py "voyage-multimodal-3".
Definition input_document : str := py "document".
Definition input_query : str := py "query".

(** An element of the list handed to [voyage_client.embed]. *)
Inductive input_item :=
| InText (text : str)
| InImage (image : str).

Section Service.

Variable num : Type.
Variable client : Type.

(** [voyage_client.embed(input, model=..., input_type=...)] *)
Variable embed :
  client → list input_item → str → str → Embedder.response num * client.

Record event := CallEmbed {
  ev_input : list input_item;
  ev_model : str;
  ev_input_type : str;
  ev_response : Embedder.response num
}.

Record world := World { service : client; trace : list event }.

Definition call_embed (input : list input_item) (model input_type : str)
  : State world (Embedder.response num) :=
  λ w, let '(r, c) := embed (service w) input model input_type in
       (r, World c (trace w ++ [CallEmbed input model input_type r])).

(** What one item of [multimodal_content] adds to [multimodal_input]. *)
Definition to_input (item : segment) : input_item :=
  match item with
  | TextSeg content => InText content
  | ImageSeg content _ _ => InImage content
  end.

(** The body of [for i, sequence in enumerate(sequences):]. *)
Definition sequence_body (embeddings : list (Index.vembed_doc num))
    (seq : sequence) : State world (list (Index.vembed_doc num)) :=
  result ← call_embed (to_input <$> multimodal_content seq)
             voyage_multimodal_3 input_document;
  mret match Embedder.first_embedding result with
       | Some embedding =>
           embeddings
           ++ [Index.VEmbedDoc (seq_pdf_name seq) (multimodal_content seq)
                 embedding]
       | None => embeddings
       end.

Definition create_voyage_multimodal_embeddings (sequences : list sequence)
  : State world (list (Index.vembed_doc num)) :=
  for_each sequence_body sequences [].

Variable qclient : Type.
Variable qdrant : qclient → Index.qcall num → Index.qreply num * qclient.

(** What is embedded for a query: the text, and the image when one is
    given and is not empty. *)
Definition query_input (query_text : str) (query_image : option str)
  : list input_item :=
  match query_image with
  | Some ((_ :: _) as image) => [InText query_text; InImage image]
  | _ => [InText query_text]
  end.

Definition search_similar_documents (collection_name query_text : str)
    (query_image : option str) (limit : option nat)
    (vw : world) (qw : Index.qworld num qclient)
  : Index.outcome (list (Index.scored_point num)) * world
    * Index.qworld num qclient :=
  let limit := default 5%nat limit in
  let '(result, vw') :=
    call_embed (query_input query_text query_image) voyage_multimodal_3
      input_query vw in
  match Embedder.first_embedding result with
  | None => (Index.Returned [], vw', qw)
  | Some query_vector =>
      let '(r, qw') :=
        Index.call num qclient qdrant
          (Index.SearchPoints collection_name query_vector limit) qw in
      match r with
      | Index.QRaises => (Index.Raised, vw', qw')
      | Index.QReturns search_result => (Index.Returned search_result, vw', qw')
      end
  end.

End Service.

Arguments CallEmbed {num} ev_input ev_model ev_input_type ev_response.
Arguments ev_input {num} _.
Arguments ev_model {num} _.
Arguments ev_input_type {num} _.
Arguments ev_response {num} _.
Arguments World {num client} service trace.
Arguments service {num client} _.
Arguments trace {num client} _.

End VEmbed.


(** ** [check_existing_qdrant_collections], [load_existing_qdrant_data]
       and [main] (step3.py) *)

Module Step3Main.

(** A point as [client.scroll] returns it, with its payload if it has
    one; of the payload, the text under ['text'] if there is one. *)
Record stored_point := StoredPoint {
  stored_id : str;
  stored_payload : option (option str)
}.

(** The calls step3.py makes on the index by itself. *)
Inductive scall :=
| GetCollections
| GetCollection (collection_name : str)
| Scroll (collection_name : str) (limit : nat).

Section Main.

(** The state of the index service, and its three read operations, each
    of which raises ([None]) or returns: the names of the collections,
    the points count of a collection, the first page of its points. *)
Variable qclient : Type.
Variable get_collections : qclient → option (list str) * qclient.
Variable get_collection : qclient → str → option nat * qclient.
Variable scroll : qclient → str → nat → option (list stored_point) * qclient.

Record sworld := SWorld { sservice : qclient; strace : list scall }.

Definition call_get_collections : State sworld (option (list str)) :=
  λ w, let '(r, q) := get_collections (sservice w) in
       (r, SWorld q (strace w ++ [GetCollections])).

Definition call_get_collection (collection_name : str)
  : State sworld (option nat) :=
  λ w, let '(r, q) := get_collection (sservice w) collection_name in
       (r, SWorld q (strace w ++ [GetCollection collection_name])).

Definition call_scroll (collection_name : str) (limit : nat)
  : State sworld (option (list stored_point)) :=
  λ w, let '(r, q) := scroll (sservice w) collection_name limit in
       (r, SWorld q (strace w ++ [Scroll collection_name limit])).

(** [for collection in collections.collections:] inside the [try]: the
    information of each collection is asked for; [false] when a call
    raised, which ends the loop. *)
Fixpoint describe_each (names : list str) : State sworld bool :=
  match names with
  | [] => mret true
  | collection_name :: rest =>
      info ← call_get_collection collection_name;
      match info with
      | None => mret false
      | Some _ => describe_each rest
      end
  end.

Definition check_existing_qdrant_collections : State sworld (list str) :=
  collections ← call_get_collections;
  match collections with
  | None => mret []
  | Some names =>
      described ← describe_each names;
      mret (if described : bool then names else [])
  end.

(** The lines printed for the first three points read the payload of
    each: a point without payload makes [point.payload.get] raise. *)
Definition previewable (points : list stored_point) : bool :=
  forallb (λ p, bool_decide (is_Some (stored_payload p))) (take 3 points).

Definition load_existing_qdrant_data (collection_name : str)
  : State sworld (list stored_point) :=
  info ← call_get_collection collection_name;
  match info with
  | None => mret []
  | Some _ =>
      page ← call_scroll collection_name 1000;
      match page with
      | None => mret []
      | Some points => mret (if previewable points then points else [])
      end
  end.

(** ["voyage-multimodal-docs"], the default of [collection_name]. *)
Definition default_collection : str := py "voyage-multimodal-docs".

(** How [main] ends: at one of its two early [return]s, or with the
    question loop. *)
Inductive ending :=
| NoCollections
| NoData
| Asked (s : Workflow.status).

Variable str_lower : str → str.

Definition main (script : list Workflow.turn) (w : sworld)
  : ending * list Workflow.effect * sworld :=
  let '(collections, w1) := check_existing_qdrant_collections w in
  match collections with
  | [] => (NoCollections, [], w1)
  | _ :: _ =>
      let '(existing_data, w2) := load_existing_qdrant_data default_collection w1 in
      match existing_data with
      | [] => (NoData, [], w2)
      | _ :: _ =>
          let retriever :=
            Workflow.create_retriever_from_existing_data default_collection in
          let '(log, s) := Workflow.interactive_qa str_lower retriever script in
          (Asked s, log, w2)
      end
  end.

End Main.

Arguments SWorld {qclient} sservice strace.
Arguments sservice {qclient} _.
Arguments strace {qclient} _.

End Step3Main.


(** ** [process_pdf_files] and [main] (step1.py) *)

Module Step1.

(** What the [try] block of the conversion loop asks of Docling and of
    the file system for one PDF. *)
Inductive action :=
| Convert (pdf_path : str)
| Mkdir (dir : str)
| SaveAsMarkdown (md_filename : str).

(** [input_dir.glob("*.pdf")] gives the files of ["data"] whose name ends
    in [".pdf"]; such a file is given here by its stem. *)
Definition pdf_path (pdf_name : str) : str :=
  py "data/" ++ pdf_name ++ py ".pdf".

(** [output_dir / pdf_name] *)
Definition pdf_output_dir (pdf_name : str) : str :=
  py "data/parsed/" ++ pdf_name.

(** [pdf_output_dir / f"{pdf_name}-with-image-refs.md"] *)
Definition md_filename (pdf_name : str) : str :=
  pdf_output_dir pdf_name ++ py "/" ++ pdf_name ++ py "-with-image-refs.md".

Section Convert.

(** The state of the outside, and whether an action completes ([true])
    or raises an [Exception] ([false]). *)
Variable outside : Type.
Variable perform : outside → action → bool * outside.

Record cworld := CWorld { coutside : outside; ctrace : list action }.

Definition act (a : action) : State cworld bool :=
  λ w, let '(ok, o) := perform (coutside w) a in
       (ok, CWorld o (ctrace w ++ [a])).

(** The [try] block for one PDF: conversion (with the walk over the
    items of the document), directory, markdown file; [true] when it
    reaches [successful_count += 1]. *)
Definition convert_one (pdf_name : str) : State cworld bool :=
  converted ← act (Convert (pdf_path pdf_name));
  if converted : bool then
    made ← act (Mkdir (pdf_output_dir pdf_name));
    if made : bool then act (SaveAsMarkdown (md_filename pdf_name))
    else mret false
  else mret false.

(** The body of [for i, pdf_path in enumerate(pdf_files, 1):] on the two
    counters. *)
Definition count_one (counts : nat * nat) (pdf_name : str)
  : State cworld (nat * nat) :=
  ok ← convert_one pdf_name;
  mret (if ok : bool then (S counts.1, counts.2) else (counts.1, S counts.2)).

(** [process_pdf_files]: [None] for the bare [return] taken when there is
    no PDF, else the pair of counters. *)
Definition process_pdf_files (pdf_files : list str)
  : State cworld (option (nat * nat)) :=
  match pdf_files with
  | [] => mret None
  | _ :: _ =>
      counts ← for_each count_one pdf_files (0%nat, 0%nat);
      mret (Some counts)
  end.

(** How [main] goes on after [successful, failed = process_pdf_files()]:
    the unpacking of [None] raises [TypeError]; with a success the two
    later stages are run; without one only a line is printed. *)
Inductive ending :=
| RaisesTypeError
| StagesRun
| NothingProcessed.

Definition main (pdf_files : list str) : State cworld ending :=
  result ← process_pdf_files pdf_files;
  mret match result with
       | None => RaisesTypeError
       | Some (successful, failed) =>
           if (0 <? successful)%nat then StagesRun else NothingProcessed
       end.

End Convert.

Arguments CWorld {outside} coutside ctrace.
Arguments coutside {outside} _.
Arguments ctrace {outside} _.

End Step1.

Module Step1Spec.

(** The conversions asked for in a log, in order. *)
Definition conversions (log : list Step1.action) : list str :=
  omap (λ a, match a with Step1.Convert p => Some p | _ => None end) log.

(** The markdown files written in a log, in order. *)
Definition saved (log : list Step1.action) : list str :=
  omap (λ a, match a with Step1.SaveAsMarkdown f => Some f | _ => None end) log.

End Step1Spec.


(** ** [create_image_captions_with_gemini] (step1.py) *)

Module Step1Captions.

(** The names bound at the top level of step1.py: those of its import
    statements ([logging], [time], [Path], the seven names taken from
    Docling, [glob], [os], [re]) and its five functions. *)
Definition module_names : list str :=
  [py "logging"; py "time"; py "Path"; py "ImageRefMode"; py "PictureItem";
   py "TableItem"; py "InputFormat"; py "PdfPipelineOptions";
   py "DocumentConverter"; py "PdfFormatOption"; py "glob"; py "os"; py "re";
   py "setup_logging"; py "process_pdf_files"; py "analyze_document_structure";
   py "create_image_captions_with_gemini"; py "main"].

(** The lookup of a name that no function assigns: it is found among the
    names of the module, or [NameError] is raised ([false]). *)
Definition bound (name : str) : bool := bool_decide (name ∈ module_names).

(** The two groups of a match of the image reference pattern: the
    alternative text and the target. *)
Definition groups (m : str) : str * str :=
  match m with
  | 33%N :: 91%N :: s1 =>
      let '(alt_text, s2) := span_until 93 s1 in
      match s2 with
      | 93%N :: 40%N :: s3 => (alt_text, (span_until 41 s3).1)
      | _ => (alt_text, [])
      end
  | _ => ([], [])
  end.

(** [re.findall(image_pattern, content)] *)
Definition findall (content : str) : list (str * str) :=
  (λ ab, groups (slice content ab.1 ab.2))
  <$> finditer Step2Builder.image_pattern content.

(** [s.replace(old, new)] for a non-empty [old]: every occurrence, from
    the left, without overlap. *)
Fixpoint replace_from (old new : str) (skip : nat) (s : str) : str :=
  match s with
  | [] => []
  | c :: s' =>
      match skip with
      | S k => replace_from old new k s'
      | O =>
          match strip_prefix old s with
          | Some _ => new ++ replace_from old new (length old - 1) s'
          | None => c :: replace_from old new 0 s'
          end
      end
  end.

Definition replace (old new s : str) : str := replace_from old new 0 s.

(** [f"![{alt_text}]({image_path})"] *)
Definition image_ref (alt_text image_path : str) : str :=
  [33; 91]%N ++ alt_text ++ [93; 40]%N ++ image_path ++ [41%N].

(** [f"[이미지 캡션: {caption}]"] *)
Definition caption_text (caption : str) : str :=
  Step2Builder.caption_open ++ caption ++ [93%N].

(** What the loop asks of the outside. *)
Inductive event :=
| Checked (full_image_path : str)
| Opened (full_image_path : str)
| Read (full_image_path : str)
| Invoked (image_url : str).

Section Captions.

(** The state of the outside: the file system and the Gemini model. *)
Variable outside : Type.

(** [full_image_path.exists()]; [open(full_image_path, "rb")], which
    raises or not; [image_file.read()]; and [llm.invoke([message])] with
    the content of its result, each of the last two raising ([None]) or
    returning. *)
Variable path_exists : outside → str → bool * outside.
Variable open_file : outside → str → bool * outside.
Variable read_file : outside → str → option (list N) * outside.
Variable llm_invoke : outside → str → option str * outside.

(** [base64.b64encode(...).decode("utf-8")] and [pdf_dir / image_path] *)
Variable b64encode : list N → str.
Variable joinpath : str → str → str.

Record cworld := CWorld { coutside : outside; ctrace : list event }.

Definition check (p : str) : State cworld bool :=
  λ w, let '(r, o) := path_exists (coutside w) p in
       (r, CWorld o (ctrace w ++ [Checked p])).

Definition open_image (p : str) : State cworld bool :=
  λ w, let '(r, o) := open_file (coutside w) p in
       (r, CWorld o (ctrace w ++ [Opened p])).

Definition read_image (p : str) : State cworld (option (list N)) :=
  λ w, let '(r, o) := read_file (coutside w) p in
       (r, CWorld o (ctrace w ++ [Read p])).

Definition invoke (image_url : str) : State cworld (option str) :=
  λ w, let '(r, o) := llm_invoke (coutside w) image_url in
       (r, CWorld o (ctrace w ++ [Invoked image_url])).

(** The body of [for i, (alt_text, image_path) in enumerate(matches, 1):]
    on [content]: the [try] block with its [except Exception], which
    leaves [content] as it is. In
    [base64.b64encode(image_file.read())] the name [base64] is looked up
    before the file is read. *)
Definition caption_one (pdf_dir : str) (content : str) (m : str * str)
  : State cworld str :=
  let '(alt_text, image_path) := m in
  let full_image_path := joinpath pdf_dir image_path in
  found ← check full_image_path;
  if found : bool then
    opened ← open_image full_image_path;
    if opened : bool then
      if bound (py "base64") then
        bytes ← read_image full_image_path;
        match bytes with
        | None => mret content
        | Some bytes =>
            let encoded_image := b64encode bytes in
            result ← invoke (SequenceBuilder.data_url_prefix ++ encoded_image);
            match result with
            | None => mret content
            | Some result_content =>
                let caption := strip result_content in
                mret (replace (image_ref alt_text image_path)
                        (caption_text caption) content)
            end
        end
      else mret content
    else mret content
  else mret content.

(** What is written to the captioned markdown file of one document. *)
Definition caption_document (pdf_dir content : str) : State cworld str :=
  for_each (caption_one pdf_dir) (findall content) content.

End Captions.

Arguments CWorld {outside} coutside ctrace.
Arguments coutside {outside} _.
Arguments ctrace {outside} _.

End Step1Captions.

Module Step1CaptionsSpec.

(** The calls of the model in a log. *)
Definition invocations (log : list Step1Captions.event) : list str :=
  omap (λ e, match e with Step1Captions.Invoked u => Some u | _ => None end) log.

(** The files read in a log. *)
Definition reads (log : list Step1Captions.event) : list str :=
  omap (λ e, match e with Step1Captions.Read p => Some p | _ => None end) log.

End Step1CaptionsSpec.


(** ** The parsing loop of llama_parse.py *)

Module LlamaParse.

(** A page of the parse result, as far as the script reads it: the
    markdown under ['md'] and the text the page number under
    ['page_number'] is printed as, each if the key is there. *)
Record page := Page { md : option str; page_number : option str }.

(** [needle in s] *)
Fixpoint contains (needle s : str) : bool :=
  match strip_prefix needle s with
  | Some _ => true
  | None => match s with
            | [] => false
            | _ :: s' => contains needle s'
            end
  end.

(** [f"{output_dir}/{pdf_name}_parsed.json"] and
    [f"{output_dir}/{pdf_name}_parsed.md"] *)
Definition json_output_path (pdf_name : str) : str :=
  py "data/parsed/" ++ pdf_name ++ py "_parsed.json".
Definition md_output_path (pdf_name : str) : str :=
  py "data/parsed/" ++ pdf_name ++ py "_parsed.md".

(** The part of [markdown_content] one page adds. *)
Definition page_markdown (p : page) : str :=
  match md p with
  | Some text =>
      [35; 35; 32; 54168; 51060; 51648; 32]%N
        ++ default (py "N/A") (page_number p) ++ [10; 10]%N
        ++ text ++ [10; 10]%N
        ++ py "---" ++ [10; 10]%N
  | None => []
  end.

Definition markdown_content (pdf_name : str) (json_dicts : list page) : str :=
  py "# " ++ pdf_name ++ [10; 10]%N ++ (json_dicts ≫= page_markdown).

(** What the loop asks of the outside. *)
Inductive event :=
| Existed (p : str)
| Delayed
| Waited30
| Parsed (pdf_path : str)
| WroteJson (p : str)
| WroteMarkdown (p : str) (content : str).

Section Loop.

(** The state of the outside: the file system and the parsing service.
    An operation that raises gives the text of its exception. *)
Variable outside : Type.
Variable file_exists : outside → str → bool * outside.
Variable get_pages : outside → str → (str + list page) * outside.
Variable write_json : outside → str → option str * outside.
Variable write_text : outside → str → str → option str * outside.

Record lworld := LWorld { loutside : outside; ltrace : list event }.

Definition log_event (e : event) : State lworld unit :=
  λ w, (tt, LWorld (loutside w) (ltrace w ++ [e])).

Definition check (p : str) : State lworld bool :=
  λ w, let '(r, o) := file_exists (loutside w) p in
       (r, LWorld o (ltrace w ++ [Existed p])).

(** [parser.get_json_result(pdf_path)] and [md_json_objs[0]["pages"]] *)
Definition parse (pdf_path : str) : State lworld (str + list page) :=
  λ w, let '(r, o) := get_pages (loutside w) pdf_path in
       (r, LWorld o (ltrace w ++ [Parsed pdf_path])).

Definition dump_json (p : str) : State lworld (option str) :=
  λ w, let '(r, o) := write_json (loutside w) p in
       (r, LWorld o (ltrace w ++ [WroteJson p])).

Definition write_markdown (p content : str) : State lworld (option str) :=
  λ w, let '(r, o) := write_text (loutside w) p content in
       (r, LWorld o (ltrace w ++ [WroteMarkdown p content])).

(** The [except Exception as e:] clause, from [str(e)]. *)
Definition on_exception (pdf_path msg : str) : State lworld unit :=
  if contains (py "429") msg || contains (py "Too Many Requests") msg
  then
    _ ← log_event Waited30;
    _ ← parse pdf_path;
    mret tt
  else mret tt.

(** The body of [for i, pdf_path in enumerate(pdf_files, 1):]. *)
Definition parse_one (i : nat) (pdf_name : str) : State lworld unit :=
  let pdf_path := Step1.pdf_path pdf_name in
  done ← check (json_output_path pdf_name);
  if done : bool then mret tt
  else
    _ ← (if (1 <? i)%nat then log_event Delayed else mret tt);
    parsed ← parse pdf_path;
    match parsed with
    | inl msg => on_exception pdf_path msg
    | inr [] => mret tt
    | inr json_dicts =>
        dumped ← dump_json (json_output_path pdf_name);
        match dumped with
        | Some msg => on_exception pdf_path msg
        | None =>
            written ← write_markdown (md_output_path pdf_name)
                        (markdown_content pdf_name json_dicts);
            match written with
            | Some msg => on_exception pdf_path msg
            | None => mret tt
            end
        end
    end.

Definition parse_all (pdf_files : list str) : State lworld unit :=
  for_each (λ _ ip, parse_one (S ip.1) ip.2) (enumerate pdf_files) tt.

End Loop.

Arguments LWorld {outside} loutside ltrace.
Arguments loutside {outside} _.
Arguments ltrace {outside} _.

End LlamaParse.

Module LlamaParseSpec.
Import LlamaParse.

(** The parsing calls of a log. *)
Definition parses (log : list event) : list str :=
  omap (λ e, match e with Parsed p => Some p | _ => None end) log.

(** The files written in a log. *)
Definition written (log : list event) : list str :=
  omap (λ e, match e with
             | WroteJson p | WroteMarkdown p _ => Some p
             | _ => None
             end) log.

End LlamaParseSpec.


Module LlamaRetrySpec.
Import LlamaParse.

(** What a log holds after its first wait of thirty seconds, if it has
    one. *)
Fixpoint after_wait (log : list event) : option (list event) :=
  match log with
  | [] => None
  | Waited30 :: rest => Some rest
  | _ :: rest => after_wait rest
  end.

End LlamaRetrySpec.


(** ** dc_parse.py *)

(** [str(n)] for a natural number, least significant digit first: one
    more than the number written by [l]. *)
Fixpoint succ_digits (l : str) : str :=
  match l with
  | [] => [49%N]
  | d :: rest =>
      if (d =? 57)%N then 48%N :: succ_digits rest else (d + 1)%N :: rest
  end.

(** [str(n)]: the decimal digits of [n], without leading zero. *)
Definition decimal (n : nat) : str := reverse (Nat.iter n succ_digits [48%N]).

Module DcParse.

(** A picture of the converted document, as far as the script reads it:
    [str(picture.image.uri)] if the picture has an image, and the page
    number of its first provenance entry if it has one. *)
Record picture := Picture { uri : option str; prov : option nat }.

(** An element of [saved_images]. *)
Record saved_image := SavedImage {
  filepath : str;
  saved_page_no : nat;
  index : nat
}.

(** An element of [image_captions]. *)
Record image_caption := ImageCaption {
  cap_page : nat;
  cap_image : str;
  cap_caption : str
}.

(** [uri_str.split(',')[1]] for a text with a comma: what lies between
    the first comma and the second, or the end. *)
Definition base64_data (uri_str : str) : str :=
  (span_until 44 (drop 1 (span_until 44 uri_str).2)).1.

(** [f"page_{page_no}_img_{idx+1}.png"] *)
Definition filename (page_no idx : nat) : str :=
  py "page_" ++ decimal page_no ++ py "_img_" ++ decimal (idx + 1) ++ py ".png".

(** [output_dir / "images"], for [output_dir = Path("data/parsed") /
    pdf_name], and a file in it. *)
Definition images_dir (pdf_name : str) : str :=
  py "data/parsed/" ++ pdf_name ++ py "/images".
Definition image_path (pdf_name file : str) : str :=
  images_dir pdf_name ++ py "/" ++ file.

(** [Path(p).name] for a path that does not end in a slash: what follows
    the last slash. *)
Fixpoint path_name_from (acc p : str) : str :=
  match p with
  | [] => acc
  | c :: p' => if (c =? 47)%N then path_name_from p' p' else path_name_from acc p'
  end.
Definition path_name (p : str) : str := path_name_from p p.




(** What the script asks of the outside for one PDF. *)
Inductive event :=
| Exported (pdf_path : str)
| Converted (pdf_path : str)
| MadeDir (dir : str)
| SavedPicture (filepath : str)
| ReadImage (filepath : str)
| Posted (image_url : str)
| WroteMarkdown (p content : str)
| WroteCaptions (p : str) (captions : list image_caption).

Section Script.

(** The state of the outside: Docling, the file system and the OpenAI
    endpoint. An operation gives [None] or [false] when it raises. *)
Variable outside : Type.

(** [converter.convert(pdf_path)] and [export_to_markdown()]. *)
Variable export_markdown : outside → str → option str * outside.

(** The second conversion, in [extract_images_from_pdf], and the
    pictures of its document. *)
Variable convert : outside → str → option (list picture) * outside.

Variable mkdir : outside → str → bool * outside.

(** Whether [base64.b64decode] and [Image.open] accept the data. *)
Variable decodes : str → bool.

Variable save_image : outside → str → bool * outside.
Variable read_file : outside → str → option (list N) * outside.
Variable b64encode : list N → str.

(** [requests.post]: the status code, and the text found under
    [choices[0].message.content] of the JSON body if it is there. *)
Variable post : outside → str → option (nat * option str) * outside.

Variable write_text : outside → str → str → bool * outside.
Variable write_captions :
  outside → str → list image_caption → bool * outside.

Record dworld := DWorld { doutside : outside; dtrace : list event }.

(** An operation on the outside, logged. *)
Definition logged {A} (op : outside → A * outside) (e : event)
  : State dworld A :=
  λ w, let '(r, o) := op (doutside w) in (r, DWorld o (dtrace w ++ [e])).

(** The body of [for idx, picture in enumerate(result.document.pictures):]
    on [saved_images]; every exception of the [try] block leaves the
    list as it is. *)
Definition save_one (pdf_name : str) (saved_images : list saved_image)
    (ip : nat * picture) : State dworld (list saved_image) :=
  let '(idx, picture) := ip in
  match uri picture with
  | None => mret saved_images
  | Some uri_str =>
      if bool_decide (44%N ∈ uri_str) then
        if decodes (base64_data uri_str) then
          let page_no := default 0%nat (prov picture) in
          let file := image_path pdf_name (filename page_no idx) in
          saved ← logged (λ o, save_image o file) (SavedPicture file);
          mret (if saved : bool
                then saved_images ++ [SavedImage file page_no (idx + 1)]
                else saved_images)
        else mret saved_images
      else mret saved_images
  end.

(** [extract_images_from_pdf]: [None] when the conversion or the
    creation of the directory raises. *)
Definition extract_images_from_pdf (pdf_path pdf_name : str)
  : State dworld (option (list saved_image)) :=
  result ← logged (λ o, convert o pdf_path) (Converted pdf_path);
  match result with
  | None => mret None
  | Some pictures =>
      made ← logged (λ o, mkdir o (images_dir pdf_name))
               (MadeDir (images_dir pdf_name));
      if made : bool then
        saved_images ← for_each (save_one pdf_name) (enumerate pictures) [];
        mret (Some saved_images)
      else mret None
  end.

(** [generate_image_caption_with_vlm]: the stripped caption, or [None]. *)
Definition generate_image_caption_with_vlm (image_file : str)
  : State dworld (option str) :=
  bytes ← logged (λ o, read_file o image_file) (ReadImage image_file);
  match bytes with
  | None => mret None
  | Some bytes =>
      let image_url := SequenceBuilder.data_url_prefix ++ b64encode bytes in
      response ← logged (λ o, post o image_url) (Posted image_url);
      mret match response with
           | Some (status_code, content) =>
               if (status_code =? 200)%nat then strip <$> content else None
           | None => None
           end
  end.

(** The body of [for img_info in saved_images:] on [image_captions]:
    an empty caption counts as none. *)
Definition caption_one (image_captions : list image_caption)
    (img_info : saved_image) : State dworld (list image_caption) :=
  caption ← generate_image_caption_with_vlm (filepath img_info);
  mret match caption with
       | None | Some [] => image_captions
       | Some text =>
           image_captions
           ++ [ImageCaption (saved_page_no img_info)
                 (path_name (filepath img_info)) text]
       end.


End Script.

Arguments DWorld {outside} doutside dtrace.
Arguments doutside {outside} _.
Arguments dtrace {outside} _.

End DcParse.

Module DcParseSpec.

(** The number that digits, least significant first, write. *)
Fixpoint value (l : str) : nat :=
  match l with
  | [] => 0
  | d :: rest => (N.to_nat d - 48) + 10 * value rest
  end.

Definition is_digit (c : char) : Prop := (48 ≤ c)%N ∧ (c ≤ 57)%N.

(** The entry of [saved_images] for the picture at [idx]. *)
Definition saved_for (pdf_name : str) (ip : nat * DcParse.picture)
  : DcParse.saved_image :=
  let page_no := default 0%nat (DcParse.prov ip.2) in
  DcParse.SavedImage
    (DcParse.image_path pdf_name (DcParse.filename page_no ip.1))
    page_no (ip.1 + 1).


(** The captions files written in a log, with their entries. *)
Definition captions_written (log : list DcParse.event)
  : list (str * list DcParse.image_caption) :=
  omap (λ e, match e with
             | DcParse.WroteCaptions p cs => Some (p, cs)
             | _ => None
             end) log.

(** The markdown files written in a log, with their text. *)
Definition markdown_written (log : list DcParse.event) : list (str * str) :=
  omap (λ e, match e with
             | DcParse.WroteMarkdown p c => Some (p, c)
             | _ => None
             end) log.

End DcParseSpec.


Module DcCaptionSpec.
Import DcParse DcParseSpec.


(** From [w] to [w'] no markdown file and no captions file was
    written. *)
Definition quiet {outside} (w w' : dworld outside) : Prop :=
  ∃ log, dtrace w' = dtrace w ++ log
         ∧ markdown_written log = [] ∧ captions_written log = [].

End DcCaptionSpec.

(** ** Proof steps *)

(** Length arithmetic over appended strings. *)
Ltac len_solve :=
  unfold len, Chunker.sep in *;
  repeat (rewrite ?length_app, ?length_cons, ?length_nil in *; simpl length in * );
  lia.

(** Case analysis on a code point matched against a literal: the cases
    that the literal excludes are closed. *)
Ltac split_char c :=
  destruct c as [|c]; [done|];
  repeat (destruct c as [c|c|]; try done).


(** * Facts *)

(** ** Strings *)

Lemma content_of_app s1 s2 : content_of (s1 ++ s2) = content_of s1 ++ content_of s2.
Proof. apply filter_app. Qed.

Lemma content_of_space c s : is_space c = true → content_of (c :: s) = content_of s.
Proof.
  intros Hc. unfold content_of. rewrite filter_cons_False; [done|].
  unfold is_content. rewrite Hc. by intros [? ?].
Qed.

Lemma content_of_terminator c s :
  is_terminator c = true → content_of (c :: s) = content_of s.
Proof.
  intros Hc. unfold content_of. rewrite filter_cons_False; [done|].
  unfold is_content. rewrite Hc. by intros [? ?].
Qed.

Lemma content_of_lstrip s : content_of (lstrip s) = content_of s.
Proof.
  induction s as [|c s IH]; [done|]. simpl.
  destruct (is_space c) eqn:Hc; [|done].
  by rewrite IH, content_of_space.
Qed.

Lemma content_of_reverse s : content_of (reverse s) = reverse (content_of s).
Proof. apply filter_reverse. Qed.

Lemma content_of_strip s : content_of (strip s) = content_of s.
Proof.
  unfold strip, rstrip.
  rewrite content_of_reverse, content_of_lstrip, content_of_reverse.
  by rewrite reverse_involutive, content_of_lstrip.
Qed.

Lemma lstrip_head c s : is_space c = false → lstrip (c :: s) = c :: s.
Proof. intros Hc. simpl. by rewrite Hc. Qed.

Lemma lstrip_snoc s c : is_space c = false → lstrip (s ++ [c]) = lstrip s ++ [c].
Proof.
  intros Hc. induction s as [|a s IH]; simpl.
  - by rewrite Hc.
  - destruct (is_space a); [apply IH | done].
Qed.

Lemma lstrip_starts s c r : lstrip s = c :: r → is_space c = false.
Proof.
  induction s as [|a s IH]; simpl; [done|].
  destruct (is_space a) eqn:Ha; [apply IH|]. by intros [= <- _].
Qed.

(** A stripped string does not start with whitespace. *)
Lemma strip_starts s c r : strip s = c :: r → is_space c = false.
Proof.
  unfold strip, rstrip. destruct (lstrip s) as [|a u] eqn:Hu.
  - by rewrite reverse_nil.
  - pose proof (lstrip_starts _ _ _ Hu) as Ha.
    rewrite reverse_cons, (lstrip_snoc _ _ Ha), reverse_snoc.
    by intros [= <- _].
Qed.

(** Stripping a buffer that starts with a character and ends with the
    separator removes the final space only. *)
Lemma strip_with_sep c body :
  is_space c = false →
  strip ((c :: body) ++ Chunker.sep) = (c :: body) ++ [46%N].
Proof.
  intros Hc. unfold strip, rstrip, Chunker.sep.
  rewrite <- app_comm_cons, (lstrip_head _ _ Hc), app_comm_cons.
  rewrite (reverse_app (c :: body)). simpl.
  by rewrite <- (reverse_snoc (c :: body)), reverse_involutive.
Qed.

Lemma re_split_nonempty s : re_split s ≠ [].
Proof.
  destruct s as [|c s]; simpl; [done|].
  destruct (is_terminator c); [done|]. by destruct (re_split s).
Qed.

Lemma content_of_re_split s : content_of (concat (re_split s)) = content_of s.
Proof.
  induction s as [|c s IH]; [done|]. simpl.
  destruct (is_terminator c) eqn:Hc.
  - simpl. by rewrite IH, content_of_terminator.
  - pose proof (re_split_nonempty s) as Hne.
    destruct (re_split s) as [|piece rest]; [done|].
    simpl in *. unfold content_of in *.
    rewrite !(filter_cons _ c). by rewrite IH.
Qed.

(** A text without terminators is one sentence. *)
Lemma re_split_no_terminator s :
  Forall (λ c, is_terminator c = false) s → re_split s = [s].
Proof.
  induction 1 as [|c s Hc _ IH]; [done|]. simpl. by rewrite Hc, IH.
Qed.

(** ** The chunker *)

Section ChunkerFacts.
Import Chunker ChunkerSpec.

Lemma content_of_flush st :
  content_of (concat (flush st)) = content_of (produced st).
Proof.
  unfold flush, produced. destruct st as [cs cur]; simpl.
  destruct cur as [|c cur]; [by rewrite app_nil_r|].
  rewrite concat_app, !content_of_app. simpl.
  by rewrite app_nil_r, content_of_strip.
Qed.

Lemma content_of_loop_body max_length st sentence :
  content_of (produced (loop_body max_length st sentence))
  = content_of (produced st) ++ content_of sentence.
Proof.
  unfold loop_body. rewrite <- (content_of_strip sentence).
  destruct (strip sentence) as [|c s]; [by rewrite app_nil_r|].
  destruct (_ <? _).
  - unfold produced; simpl.
    change (c :: s ++ sep) with ((c :: s) ++ sep).
    rewrite !content_of_app. change (content_of sep) with (@nil N).
    by rewrite !app_nil_r, ?app_assoc.
  - unfold produced at 1; simpl.
    change (c :: s ++ sep) with ((c :: s) ++ sep).
    rewrite !content_of_app, content_of_flush.
    change (content_of sep) with (@nil N). by rewrite !app_nil_r, ?app_assoc.
Qed.

Lemma content_of_loop max_length sentences st :
  content_of (produced (fold_left (loop_body max_length) sentences st))
  = content_of (produced st) ++ content_of (concat sentences).
Proof.
  revert st. induction sentences as [|s l IH]; intros st; simpl.
  - by rewrite app_nil_r.
  - by rewrite IH, content_of_loop_body, content_of_app, app_assoc.
Qed.

(** Whatever the branch, the chunks carry the content of the text. *)
Lemma chunk_text_content text max_length :
  content_of (concat (chunk_text text max_length)) = content_of text.
Proof.
  unfold chunk_text. destruct (_ <=? _); [by simpl; rewrite app_nil_r|].
  simpl. set (st := fold_left _ _ _).
  assert (content_of (concat (flush st)) = content_of text) as Hst.
  { rewrite content_of_flush. subst st. rewrite content_of_loop.
    simpl. apply content_of_re_split. }
  destruct (flush st); [by simpl; rewrite app_nil_r | done].
Qed.

(** A long text without terminators: its stripped form and a full stop,
    or the text itself when it is blank. *)
Lemma chunk_text_one_sentence text max_length :
  max_length < len text →
  Forall (λ c, is_terminator c = false) text →
  chunk_text text max_length
  = match strip text with
    | [] => [text]
    | sentence => [sentence ++ [46%N]]
    end.
Proof.
  intros Hlong Hterm. unfold chunk_text.
  destruct (Z.leb_spec (len text) max_length) as [?|_]; [lia|].
  rewrite (re_split_no_terminator _ Hterm). simpl.
  unfold loop_body. destruct (strip text) as [|c s] eqn:Hs; [done|].
  pose proof (strip_starts _ _ _ Hs) as Hc.
  destruct (_ <? _); unfold flush; simpl;
    change (c :: s ++ sep) with ((c :: s) ++ sep);
    by rewrite (strip_with_sep _ _ Hc).
Qed.

Lemma flush_ok text max_length st :
  state_ok text max_length st → Forall (chunk_ok text max_length) (flush st).
Proof.
  intros [Hcs Hcur]. unfold flush. destruct (current_chunk st) as [|a cur]; [done|].
  apply Forall_app; split; [done|]. apply Forall_singleton.
  destruct Hcur as [?|(c & body & -> & Hc & Hok)]; [done|].
  by rewrite (strip_with_sep _ _ Hc).
Qed.

Lemma loop_body_ok text max_length st sentence :
  sentence ∈ re_split text →
  state_ok text max_length st →
  state_ok text max_length (loop_body max_length st sentence).
Proof.
  intros Hin Hst. unfold loop_body.
  destruct (strip sentence) as [|c s] eqn:Hs; [done|].
  pose proof (strip_starts _ _ _ Hs) as Hc.
  destruct (Z.ltb_spec (len (current_chunk st) + len (c :: s)) max_length)
    as [Hfit|_].
  - destruct Hst as [Hcs Hcur]. split; [done|]. simpl. right.
    destruct Hcur as [Hcur|(c0 & body & Hcur & Hc0 & _)]; rewrite Hcur in *.
    + exists c, s. split_and!; [done..|]. left. len_solve.
    + exists c0, (body ++ sep ++ c :: s). split_and!; [|done|].
      * simpl. by rewrite <- !app_assoc.
      * left. len_solve.
  - split; [by apply flush_ok|]. simpl. right.
    exists c, s. split_and!; [done..|]. right; right.
    exists sentence. by rewrite Hs.
Qed.

Lemma loop_ok text max_length sentences st :
  sentences ⊆ re_split text →
  state_ok text max_length st →
  state_ok text max_length (fold_left (loop_body max_length) sentences st).
Proof.
  revert st. induction sentences as [|s l IH]; intros st Hsub Hst; [done|].
  simpl. apply IH; [set_solver|]. apply loop_body_ok; [set_solver|done].
Qed.

(** The buffer is empty after the loop only if it was empty before and
    every sentence was blank. *)
Lemma loop_buffer_empty max_length sentences st :
  current_chunk (fold_left (loop_body max_length) sentences st) = [] →
  current_chunk st = [] ∧ Forall (λ s, strip s = []) sentences.
Proof.
  revert st. induction sentences as [|s l IH]; intros st Hend; [done|].
  simpl in Hend. apply IH in Hend as [Hbody Hl].
  unfold loop_body in Hbody. destruct (strip s) as [|c r] eqn:Hs.
  - split; [done|]. by constructor.
  - destruct (_ <? _); simpl in Hbody.
    + by destruct (current_chunk st).
    + done.
Qed.

Lemma flush_empty st : flush st = [] → current_chunk st = [].
Proof.
  unfold flush. destruct (current_chunk st); [done|].
  by destruct (chunks st).
Qed.

Lemma chunk_text_chunks_ok text max_length :
  Forall (chunk_ok text max_length) (chunk_text text max_length).
Proof.
  unfold chunk_text. destruct (Z.leb_spec (len text) max_length) as [Hle|_].
  - apply Forall_singleton. by left.
  - simpl. set (st := fold_left _ _ _).
    assert (Forall (chunk_ok text max_length) (flush st)) as Hfl.
    { apply flush_ok. subst st. apply loop_ok; [done|].
      split; [done | by left]. }
    destruct (flush st) eqn:Hflush; [|done].
    apply Forall_singleton. right; left. split; [done|].
    apply flush_empty in Hflush. subst st.
    by apply loop_buffer_empty in Hflush as [_ ?].
Qed.

End ChunkerFacts.

Example chunk_text_short :
  Chunker.chunk_text (py "Hi. Yo!") 1000 = [py "Hi. Yo!"].
Proof. reflexivity. Qed.

Example chunk_text_split :
  Chunker.chunk_text (py "ab. cd! ef") 6 = [py "ab."; py "cd."; py "ef."].
Proof. reflexivity. Qed.

Example chunk_text_accumulate :
  Chunker.chunk_text (py "ab. cd! ef") 9 = [py "ab. cd."; py "ef."].
Proof. reflexivity. Qed.

Example chunk_text_only_terminators :
  Chunker.chunk_text (py "...") 2 = [py "..."].
Proof. reflexivity. Qed.

(** C1, as stated, fails: the exclamation mark of ["a!b"] is in no chunk
    (a full stop stands in its place), and the long text ["ab"], which
    has no terminator, comes back as ["ab."] and not as itself. *)
Lemma chunk_text_drops_terminators :
  Chunker.chunk_text (py "a!b") 2 = [py "a."; py "b."]
  ∧ (33%N ∈ py "a!b")
  ∧ (33%N ∉ concat (Chunker.chunk_text (py "a!b") 2))
  ∧ Chunker.chunk_text (py "ab") 1 = [py "ab."]
  ∧ (Chunker.chunk_text (py "ab") 1 ≠ [py "ab"]).
Proof.
  split_and!; try reflexivity; try discriminate.
  - by apply (bool_decide_unpack _).
  - by apply (bool_decide_unpack _).
Qed.

(** C1, amended: the chunks of [chunk_text], put end to end and read
    without whitespace and sentence terminators, are the text read the
    same way, for every text and every bound; and a text longer than the
    bound with no terminator in it comes back as one chunk, its stripped
    form followed by a full stop (the text itself when it is blank). *)
Theorem chunk_text_keeps_content (text : str) (max_length : Z) :
  content_of (concat (Chunker.chunk_text text max_length)) = content_of text
  ∧ (max_length < len text →
     Forall (λ c, is_terminator c = false) text →
     Chunker.chunk_text text max_length
     = match strip text with
       | [] => [text]
       | sentence => [sentence ++ [46%N]]
       end).
Proof.
  split; [apply chunk_text_content | apply chunk_text_one_sentence].
Qed.

Lemma chunk_text_keeps_content_witness :
  Chunker.chunk_text (py " ab ") 1 = [py "ab."].
Proof.
  refine (proj2 (chunk_text_keeps_content (py " ab ") 1) _ _).
  - reflexivity.
  - repeat constructor.
Defined.

(** C2: a text no longer than the bound is returned as the one-element
    list of itself, unchanged. *)
Theorem chunk_text_short_text (text : str) (max_length : Z) :
  len text <= max_length → Chunker.chunk_text text max_length = [text].
Proof.
  intros Hle. unfold Chunker.chunk_text.
  by destruct (Z.leb_spec (len text) max_length); [|lia].
Qed.

Lemma chunk_text_short_text_witness :
  Chunker.chunk_text (py " Hi. Yo!  ") 10 = [py " Hi. Yo!  "].
Proof. apply chunk_text_short_text. vm_compute. discriminate. Defined.

(** C3, as stated, fails: a sentence as long as the bound makes a chunk
    longer than the bound, and so does a long text of terminators only. *)
Lemma chunk_text_exceeds_bound :
  (∃ c, c ∈ Chunker.chunk_text (py "abcd. e") 3 ∧ 3 < len c)
  ∧ (∃ c, c ∈ Chunker.chunk_text (py "...") 2 ∧ 2 < len c).
Proof.
  split.
  - exists (py "abcd."). split; [|reflexivity]. by apply (bool_decide_unpack _).
  - exists (py "..."). split; [|reflexivity]. by apply (bool_decide_unpack _).
Qed.

(** C3, amended: every chunk of [chunk_text] is within the bound, unless
    it is a single stripped sentence of the text followed by a full stop,
    or the text itself, returned because every sentence of it is blank. *)
Theorem chunk_text_chunk_lengths (text : str) (max_length : Z) :
  Forall (λ c, len c <= max_length
               ∨ (c = text ∧ Forall (λ s, strip s = []) (re_split text))
               ∨ ∃ s, s ∈ re_split text ∧ strip s ≠ [] ∧ c = strip s ++ [46%N])
    (Chunker.chunk_text text max_length).
Proof. apply chunk_text_chunks_ok. Qed.

(** ** The sequence builder *)

Section BuilderFacts.
Import SequenceBuilder SequenceSpec.

Variable read_b64 : path → option str.
Variable caption_for : nat → str → str.
Variable md_content : str.
Variable image_files : list path.

Abbreviation body := (loop_body read_b64 caption_for md_content image_files).
Abbreviation weave := (interleave read_b64 caption_for md_content image_files).

(** The [for] loop over the enumerated matches, as a recursion. *)
Lemma loop_interleave matches k st :
  let st' := fold_left body (imap (λ i m, ((k + i)%nat, m)) matches) st in
  content_acc st' = content_acc st ++ weave k (current_pos st) matches
  ∧ current_pos st' = default (current_pos st) (snd <$> last matches).
Proof.
  revert k st. induction matches as [|[a b] l IH]; intros k st; simpl.
  - by rewrite app_nil_r.
  - rewrite (imap_ext _ (λ i m, ((S k + i)%nat, m))); last first.
    { intros i m _. simpl. f_equal. lia. }
    match goal with
    | |- content_acc (fold_left _ _ ?st1) = _ ∧ _ =>
        destruct (IH (S k) st1) as [-> ->]
    end.
    simpl. rewrite Nat.add_0_r, <- !app_assoc. split; [done|].
    rewrite last_cons. by destruct (last l).
Qed.

Lemma texts_of_app l1 l2 : texts_of (l1 ++ l2) = texts_of l1 ++ texts_of l2.
Proof. apply omap_app. Qed.

Lemma images_of_app l1 l2 : images_of (l1 ++ l2) = images_of l1 ++ images_of l2.
Proof. apply omap_app. Qed.

Lemma texts_of_text_part a b :
  texts_of (text_part md_content a b)
  = filter (λ t, t ≠ []) [strip (slice md_content a b)].
Proof. unfold text_part. by destruct (strip _). Qed.

Lemma images_of_text_part a b : images_of (text_part md_content a b) = [].
Proof. unfold text_part. by destruct (strip _). Qed.

Lemma texts_of_image_part i :
  texts_of (image_part read_b64 caption_for image_files i) = [].
Proof.
  unfold image_part. destruct (image_files !! i) as [f|]; [|done].
  by destruct (read_b64 f).
Qed.

(** The text segments do not depend on the images. *)
Lemma texts_of_interleave matches k pos :
  texts_of (weave k pos matches
            ++ text_part md_content
                 (default pos (snd <$> last matches)) (length md_content))
  = filter (λ t, t ≠ []) (gaps md_content pos matches).
Proof.
  revert k pos. induction matches as [|[a b] l IH]; intros k pos.
  - simpl. apply texts_of_text_part.
  - cbn [interleave gaps]. rewrite <- !app_assoc, !texts_of_app.
    rewrite texts_of_image_part, texts_of_text_part. simpl app.
    replace (default pos (snd <$> last ((a, b) :: l)))
      with (default b (snd <$> last l))
      by (rewrite last_cons; by destruct (last l)).
    rewrite <- texts_of_app, IH.
    change (strip (slice md_content pos a) :: gaps md_content b l)
      with ([strip (slice md_content pos a)] ++ gaps md_content b l).
    by rewrite filter_app.
Qed.

(** The image segments, when the files of the markers can be read: one
    for each marker that has an image file at its index. *)
Lemma images_of_interleave matches k pos :
  Forall (λ f, is_Some (read_b64 f))
    (take (length matches) (drop k image_files)) →
  images_of (weave k pos matches)
  = imap (λ i f, image_of read_b64 caption_for (k + i) f)
      (take (length matches) (drop k image_files)).
Proof.
  revert k pos. induction matches as [|[a b] l IH]; intros k pos Hread.
  - done.
  - cbn [interleave]. rewrite !images_of_app, images_of_text_part. simpl app.
    unfold image_part at 1. cbn [length] in *.
    destruct (image_files !! k) as [f|] eqn:Hk.
    + rewrite (drop_S _ _ _ Hk) in *. cbn [take imap] in *.
      apply Forall_cons in Hread as [[data Hdata] Hread].
      rewrite Hdata, IH by done. simpl. unfold image_of at 2.
      rewrite Hdata, Nat.add_0_r. simpl. f_equal.
      apply imap_ext. intros i g _. simpl. f_equal; f_equal; lia.
    + apply lookup_ge_None in Hk.
      rewrite IH; rewrite !drop_ge by lia; by rewrite ?take_nil.
Qed.

(** The builder, for at least one marker, is the recursion followed by
    the text after the last marker. *)
Lemma build_content_interleave m l :
  build_content read_b64 caption_for md_content (m :: l) image_files
  = weave 0 0 (m :: l)
    ++ text_part md_content (default 0%nat (snd <$> last (m :: l)))
         (length md_content).
Proof.
  unfold build_content.
  pose proof (loop_interleave (m :: l) 0 (LoopState [] 0)) as H.
  cbv zeta in H. destruct H as [Hacc Hpos].
  change (imap (λ i m0, ((0 + i)%nat, m0)) (m :: l))
    with (imap (λ i (m0 : nat * nat), (i, m0)) (m :: l)) in *.
  by rewrite Hacc, Hpos.
Qed.

Lemma build_content_texts matches :
  texts_of (build_content read_b64 caption_for md_content matches image_files)
  = match matches with
    | [] => [md_content]
    | _ => filter (λ t, t ≠ []) (gaps md_content 0 matches)
    end.
Proof.
  destruct matches as [|m l]; [done|].
  rewrite build_content_interleave. apply texts_of_interleave.
Qed.

Lemma build_content_images matches :
  Forall (λ f, is_Some (read_b64 f)) (take (length matches) image_files) →
  images_of (build_content read_b64 caption_for md_content matches image_files)
  = imap (image_of read_b64 caption_for) (take (length matches) image_files).
Proof.
  intros Hread. destruct matches as [|m l]; [done|].
  rewrite build_content_interleave.
  rewrite images_of_app, images_of_text_part, app_nil_r.
  by rewrite (images_of_interleave (m :: l) 0 0).
Qed.

End BuilderFacts.

(** The markers of the two scripts, found by their patterns. *)
Example finditer_markdown_refs :
  finditer Step2Builder.image_pattern (py "x![a](b)![](c)![]()![![q](z)")
  = [(1, 8); (8, 14); (19, 28)]%nat.
Proof. reflexivity. Qed.

Example finditer_comment_markers :
  finditer VEmbedBuilder.image_pattern (py "a <!-- image --> b<!-- image -->")
  = [(2, 16); (18, 32)]%nat.
Proof. reflexivity. Qed.

(** Three markers and two images: the third marker gives no Image segment,
    the text around it is kept. *)
Example build_more_markers_than_images :
  SequenceBuilder.build_content (λ _, Some (py "QQ")) (λ _ _, [])
    (py "a <!-- image --> b <!-- image --> c <!-- image --> d")
    (finditer VEmbedBuilder.image_pattern
       (py "a <!-- image --> b <!-- image --> c <!-- image --> d"))
    [Path (py "dir") (py "i0.png"); Path (py "dir") (py "i1.png")]
  = [TextSeg (py "a");
     ImageSeg (py "data:image/png;base64,QQ") (py "i0.png") [];
     TextSeg (py "b");
     ImageSeg (py "data:image/png;base64,QQ") (py "i1.png") [];
     TextSeg (py "c");
     TextSeg (py "d")].
Proof. reflexivity. Qed.

(** C6: in both scripts, for a document with N markers whose image files
    can be loaded, the Image segments of the sequence are, in order, those
    of the first N image files, the i-th marker taking the i-th file: N
    of them when there are at least N files, and one per file when there
    are fewer, the markers beyond the last file adding nothing; the
    builder is a total function, and the Text segments are the non-empty
    stripped stretches around the markers whatever the image files. *)
Theorem sequence_images_positional (read_b64 : path → option str)
    (d2 : Step2Builder.pdf_data) (dv : VEmbedBuilder.pdf_data) :
  let markers2 := finditer Step2Builder.image_pattern (Step2Builder.md_content d2) in
  let out2 := multimodal_content (Step2Builder.build read_b64 d2) in
  let markersv := finditer VEmbedBuilder.image_pattern (VEmbedBuilder.md_content dv) in
  let outv := multimodal_content (VEmbedBuilder.build read_b64 dv) in
  (Forall (λ f, is_Some (read_b64 f))
     (take (length markers2) (Step2Builder.image_files d2)) →
   SequenceSpec.images_of out2
   = imap (SequenceSpec.image_of read_b64
             (Step2Builder.caption_for (Step2Builder.captioned_content d2)))
       (take (length markers2) (Step2Builder.image_files d2))
   ∧ length (SequenceSpec.images_of out2)
     = (length markers2 `min` length (Step2Builder.image_files d2))%nat
   ∧ SequenceSpec.texts_of out2
     = match markers2 with
       | [] => [Step2Builder.md_content d2]
       | _ => filter (λ t, t ≠ [])
                (SequenceSpec.gaps (Step2Builder.md_content d2) 0 markers2)
       end)
  ∧ (Forall (λ f, is_Some (read_b64 f))
       (take (length markersv) (VEmbedBuilder.image_files dv)) →
     SequenceSpec.images_of outv
     = imap (SequenceSpec.image_of read_b64
               (VEmbedBuilder.caption_for (VEmbedBuilder.captions dv)))
         (take (length markersv) (VEmbedBuilder.image_files dv))
     ∧ length (SequenceSpec.images_of outv)
       = (length markersv `min` length (VEmbedBuilder.image_files dv))%nat
     ∧ SequenceSpec.texts_of outv
       = match markersv with
         | [] => [VEmbedBuilder.md_content dv]
         | _ => filter (λ t, t ≠ [])
                  (SequenceSpec.gaps (VEmbedBuilder.md_content dv) 0 markersv)
         end).
Proof.
  cbv zeta. unfold Step2Builder.build, VEmbedBuilder.build. simpl.
  split; intros Hread.
  - rewrite (build_content_images _ _ _ _ _ Hread).
    rewrite length_imap, length_take. split_and!; [done..|].
    apply build_content_texts.
  - rewrite (build_content_images _ _ _ _ _ Hread).
    rewrite length_imap, length_take. split_and!; [done..|].
    apply build_content_texts.
Qed.

Lemma sequence_images_positional_witness :
  let read_b64 := λ _ : path, Some (py "QQ") in
  let dir := Path (py "data/parsed") (py "doc") in
  let d2 :=
    Step2Builder.PdfData (py "doc") (py "x ![a](b) y ![c](d)") []
      [Path (py "dir") (py "i0.png"); Path (py "dir") (py "i1.png");
       Path (py "dir") (py "i2.png")] dir in
  let dv :=
    VEmbedBuilder.PdfData (py "doc") (py "a <!-- image --> b <!-- image --> c")
      [VEmbedBuilder.CaptionEntry (py "i0.png") (Some (py "cap"))]
      [Path (py "dir") (py "i0.png")] dir in
  length (SequenceSpec.images_of
            (multimodal_content (Step2Builder.build read_b64 d2))) = 2%nat
  ∧ length (SequenceSpec.images_of
              (multimodal_content (VEmbedBuilder.build read_b64 dv))) = 1%nat.
Proof.
  intros read_b64 dir d2 dv.
  destruct (sequence_images_positional read_b64 d2 dv) as [H2 Hv].
  split.
  - refine (proj1 (proj2 (H2 _))).
    vm_compute. repeat constructor; by exists (py "QQ").
  - refine (proj1 (proj2 (Hv _))).
    vm_compute. repeat constructor; by exists (py "QQ").
Defined.

(** ** State passing *)

Lemma for_each_app {W A B} (body : B → A → State W B) l1 l2 acc w :
  for_each body (l1 ++ l2) acc w
  = let '(acc1, w1) := for_each body l1 acc w in for_each body l2 acc1 w1.
Proof.
  revert acc w. induction l1 as [|a l1 IH]; intros acc w; simpl; [done|].
  unfold mbind, State_bind. destruct (body acc a w) as [acc' w']. apply IH.
Qed.

Lemma for_each_cons {W A B} (body : B → A → State W B) a l acc w :
  for_each body (a :: l) acc w
  = let '(acc', w') := body acc a w in for_each body l acc' w'.
Proof. done. Qed.

(** ** The embedding generator *)

Section EmbedderFacts.
Import Embedder EmbedderSpec.

Variable num : Type.
Variable nadd : num → num → num.
Variable ndiv : num → nat → num.
Variable client : Type.
Variable embed : client → str → list str → response num * client.
Variable list_models : client → client.
Variable unicode_isalnum : char → bool.

Abbreviation try_models' := (try_models num client embed).
Abbreviation chunk_body' := (chunk_body num client embed).
Abbreviation served' := (served num client embed).

Lemma served_app c1 log1 c2 log2 c3 :
  served' c1 log1 c2 → served' c2 log2 c3 → served' c1 (log1 ++ log2) c3.
Proof.
  induction 1 as [|c e c' log c'' He _ IH]; intros H2; [done|].
  simpl. econstructor; [done|]. by apply IH.
Qed.

(** The fallback loop: the calls it makes are for a prefix of the models,
    in their order, each on the one text; all but the last fail; the
    last either supplies the vector or is the last model of the list. *)
Lemma try_models_spec models text w :
  let '(r, w') := try_models' models text w in
  ∃ log,
    trace w' = trace w ++ log
    ∧ served' (service w) log (service w')
    ∧ Forall (λ e, ev_texts e = [text]) log
    ∧ match r with
      | Some (v, model_name) =>
          ∃ log0 e rest,
            log = log0 ++ [e]
            ∧ models = (ev_model <$> log0) ++ model_name :: rest
            ∧ Forall (failed num) log0
            ∧ ev_model e = model_name
            ∧ first_embedding (ev_response e) = Some v
      | None => ev_model <$> log = models ∧ Forall (failed num) log
      end.
Proof.
  revert w. induction models as [|m models IH]; intros w.
  - simpl. exists []. by rewrite app_nil_r; repeat split; constructor.
  - simpl. unfold mbind, State_bind, call_embed.
    destruct (embed (service w) m [text]) as [r c] eqn:Hcall.
    set (e := CallEmbed m [text] r).
    destruct (first_embedding r) as [v|] eqn:Hr.
    + simpl. exists [e]. split_and!; [done| |by repeat constructor|].
      * econstructor; [done|constructor].
      * exists [], e, models. split_and!; done.
    + specialize (IH (World c (trace w ++ [e]))).
      destruct (try_models' models text _) as [r' w'].
      destruct IH as (log & Htr & Hserved & Htexts & Hr').
      simpl in Htr, Hserved. exists (e :: log). split_and!.
      * by rewrite Htr, <- app_assoc.
      * by econstructor.
      * by constructor.
      * destruct r' as [[v model_name]|].
        -- destruct Hr' as (log0 & e' & rest & -> & -> & Hfail & He' & Hv).
           exists (e :: log0), e', rest. split_and!; try done.
           by constructor.
        -- destruct Hr' as [<- Hfail]. split; [done|]. by constructor.
Qed.

(** The chunk loop, read off the outcomes of the chunks. *)
Lemma chunk_loop_outcomes text_chunks j acc w :
  for_each chunk_body' (imap (λ i c, ((j + i)%nat, c)) text_chunks) acc w
  = let '(outcomes, w') := chunk_outcomes num client embed text_chunks w in
    (acc ++ collect num j text_chunks outcomes, w').
Proof.
  revert j acc w. induction text_chunks as [|c l IH]; intros j acc w.
  - simpl. by rewrite app_nil_r.
  - cbn [imap]. rewrite for_each_cons.
    rewrite (imap_ext _ (λ i c, ((S j + i)%nat, c))); last first.
    { intros i x _. simpl. f_equal. lia. }
    cbn [chunk_outcomes]. unfold chunk_body at 1.
    unfold mbind, State_bind, mret, State_ret. cbn [fst snd].
    destruct (try_models' models_to_try c w) as [r w1].
    rewrite IH.
    destruct (chunk_outcomes num client embed l w1) as [rs w2].
    rewrite Nat.add_0_r. cbn [collect].
    destruct r as [[v m]|]; by rewrite <- ?app_assoc.
Qed.

Lemma embed_chunks_outcomes text_chunks w :
  embed_chunks num client embed text_chunks w
  = let '(outcomes, w') := chunk_outcomes num client embed text_chunks w in
    (collect num 0 text_chunks outcomes, w').
Proof.
  unfold embed_chunks, enumerate.
  pose proof (chunk_loop_outcomes text_chunks 0 [] w) as H.
  simpl in H. apply H.
Qed.

Lemma chunk_outcomes_length text_chunks w :
  length (chunk_outcomes num client embed text_chunks w).1 = length text_chunks.
Proof.
  revert w. induction text_chunks as [|c l IH]; intros w; [done|].
  cbn [chunk_outcomes]. unfold mbind, State_bind.
  destruct (try_models' models_to_try c w) as [r w1].
  specialize (IH w1).
  destruct (chunk_outcomes num client embed l w1) as [rs w2].
  simpl in *. by rewrite IH.
Qed.

(** The vectors in [chunk_embeddings] are those of the chunks that got
    one, in the order of the chunks. *)
Lemma collect_vectors j text_chunks outcomes :
  length outcomes = length text_chunks →
  embedding <$> collect num j text_chunks outcomes = vectors_of num outcomes.
Proof.
  revert j outcomes. induction text_chunks as [|c l IH];
    intros j [|r rs] Hlen; try done.
  simpl in *. rewrite fmap_app, IH by lia.
  unfold vectors_of. simpl. by destruct r as [[v m]|].
Qed.

(** *** [np.mean] *)

Abbreviation vadd' := (vadd num nadd).
Abbreviation np_mean' := (np_mean num nadd ndiv).

Lemma vsum_length rows row :
  Forall (λ v, length v = length row) rows →
  length (fold_left vadd' rows row) = length row.
Proof.
  revert row. induction rows as [|u rows IH]; intros row Hlen; [done|].
  apply Forall_cons in Hlen as [Hu Hlen]. simpl. rewrite IH.
  - unfold vadd. rewrite length_zip_with. lia.
  - unfold vadd. rewrite length_zip_with.
    eapply Forall_impl; [done|]. simpl. intros; lia.
Qed.

(** Each coordinate of the sum is the sum of that coordinate, added from
    the first row on. *)
Lemma vsum_lookup rows row k x xs :
  row !! k = Some x →
  Forall2 (λ v y, v !! k = Some y) rows xs →
  fold_left vadd' rows row !! k = Some (fold_left nadd xs x).
Proof.
  intros Hx Hxs. revert row x Hx.
  induction Hxs as [|u y rows xs Hy _ IH]; intros row x Hx; [done|].
  simpl. apply IH. unfold vadd. rewrite lookup_zip_with, Hx. simpl.
  by rewrite Hy.
Qed.

Lemma np_mean_some row rows :
  Forall (λ v, length v = length row) rows →
  np_mean' row rows
  = Some ((λ x, ndiv x (S (length rows))) <$> fold_left vadd' rows row).
Proof.
  intros Hlen. unfold np_mean.
  replace (forallb _ rows) with true; [done|].
  symmetry. apply forallb_forall. intros v Hv.
  apply Nat.eqb_eq. rewrite Forall_forall in Hlen.
  apply Hlen. by apply list_elem_of_In.
Qed.

Lemma np_mean_none row rows :
  ¬ Forall (λ v, length v = length row) rows → np_mean' row rows = None.
Proof.
  intros Hlen. unfold np_mean.
  destruct (forallb _ rows) eqn:Hall; [|done].
  exfalso. apply Hlen. rewrite Forall_forall. intros v Hv.
  rewrite forallb_forall in Hall. apply Nat.eqb_eq, Hall.
  by apply list_elem_of_In.
Qed.

End EmbedderFacts.


Lemma sequence_loop_continues (num : Type) (nadd : num → num → num)
    (ndiv : num → nat → num) (client : Type)
    (embed : client → str → list str → Embedder.response num * client)
    (unicode_isalnum : char → bool) s1 seq s2 acc w :
  let body := Embedder.sequence_body num nadd ndiv client embed unicode_isalnum in
  for_each body (s1 ++ seq :: s2) acc w
  = let run1 := for_each body s1 acc w in
    let one :=
      Embedder.embed_sequence num nadd ndiv client embed unicode_isalnum seq
        run1.2 in
    for_each body s2
      match one.1 with
      | Some d => run1.1 ++ [d]
      | None => run1.1
      end one.2.
Proof.
  cbv zeta. rewrite for_each_app.
  destruct (for_each _ s1 acc w) as [acc1 w1]. rewrite for_each_cons.
  unfold Embedder.sequence_body at 1. unfold mbind, State_bind, mret, State_ret.
  cbn [fst snd].
  by destruct (Embedder.embed_sequence _ _ _ _ _ _ seq w1) as [r w2].
Qed.


Section AggregateFacts.
Import Embedder EmbedderSpec.

Variable num : Type.
Variable nadd : num → num → num.
Variable ndiv : num → nat → num.
Variable client : Type.
Variable embed : client → str → list str → response num * client.
Variable unicode_isalnum : char → bool.

Abbreviation embed_sequence' :=
  (embed_sequence num nadd ndiv client embed unicode_isalnum).
Abbreviation sequence_body' :=
  (sequence_body num nadd ndiv client embed unicode_isalnum).
Abbreviation embed_sequences' :=
  (embed_sequences num nadd ndiv client embed unicode_isalnum).

(** A document's entry is the aggregate of what its chunks collected. *)
Lemma embed_sequence_outcomes seq w :
  let text_chunks := Chunker.chunk_text (combined_text unicode_isalnum seq) 1500 in
  let run := chunk_outcomes num client embed text_chunks w in
  embed_sequence' seq w
  = (aggregate num nadd ndiv unicode_isalnum seq
       (collect num 0 text_chunks run.1), run.2).
Proof.
  cbv zeta. unfold embed_sequence, mbind, State_bind, mret, State_ret.
  rewrite embed_chunks_outcomes.
  by destruct (chunk_outcomes _ _ _ _ w) as [outcomes w'].
Qed.

(** The aggregate of a non-empty [chunk_embeddings] whose vectors have one
    length. *)
Lemma aggregate_mean seq c cs :
  Forall (λ u, length u = length (embedding c)) (embedding <$> cs) →
  ∃ d, aggregate num nadd ndiv unicode_isalnum seq (c :: cs) = Some d
    ∧ doc_chunks d = c :: cs
    ∧ doc_pdf_name d = seq_pdf_name seq
    ∧ length (doc_embedding_vector d) = length (embedding c)
    ∧ ∀ k x xs,
        embedding c !! k = Some x →
        Forall2 (λ u y, u !! k = Some y) (embedding <$> cs) xs →
        doc_embedding_vector d !! k
        = Some (ndiv (fold_left nadd xs x) (S (length cs))).
Proof.
  intros Hlen. unfold aggregate. rewrite (np_mean_some _ _ _ _ _ Hlen).
  eexists. split_and!; try done; simpl.
  - by rewrite length_fmap, vsum_length.
  - intros k x xs Hx Hxs. rewrite list_lookup_fmap.
    rewrite (vsum_lookup _ _ _ _ _ _ _ Hx Hxs). simpl.
    by rewrite length_fmap.
Qed.

(** The mean of one vector is that vector, when dividing by one changes
    nothing. *)
Lemma aggregate_single seq c :
  (∀ x, ndiv x 1 = x) →
  ∃ d, aggregate num nadd ndiv unicode_isalnum seq [c] = Some d
    ∧ doc_embedding_vector d = embedding c.
Proof.
  intros Hone. unfold aggregate, np_mean. simpl. eexists. split; [done|].
  simpl. rewrite <- (list_fmap_id (embedding c)) at 2.
  apply list_fmap_ext. intros _ x _. apply Hone.
Qed.

(** Vectors of different lengths: NumPy raises, the document is dropped. *)
Lemma aggregate_ragged seq c cs :
  ¬ Forall (λ u, length u = length (embedding c)) (embedding <$> cs) →
  aggregate num nadd ndiv unicode_isalnum seq (c :: cs) = None.
Proof.
  intros Hlen. unfold aggregate. by rewrite (np_mean_none _ _ _ _ _ Hlen).
Qed.

(** The documents loop appends to what it was given. *)
Lemma sequence_loop_appends sequences acc w :
  for_each sequence_body' sequences acc w
  = (acc ++ (embed_sequences' sequences w).1, (embed_sequences' sequences w).2).
Proof.
  unfold embed_sequences. revert acc w.
  induction sequences as [|seq l IH]; intros acc w.
  - simpl. by rewrite app_nil_r.
  - rewrite !for_each_cons. unfold sequence_body.
    unfold mbind, State_bind, mret, State_ret.
    destruct (embed_sequence' seq w) as [r w1].
    fold sequence_body'. rewrite (IH (match r with Some d => [d] | None => [] end)).
    rewrite IH. destruct r as [d|]; simpl; by rewrite <- ?app_assoc.
Qed.

(** The batch is the entries of the documents, in order, a dropped
    document leaving no entry. *)
Lemma embed_sequences_split s1 seq s2 w :
  let run1 := embed_sequences' s1 w in
  let one := embed_sequence' seq run1.2 in
  let run2 := embed_sequences' s2 one.2 in
  embed_sequences' (s1 ++ seq :: s2) w
  = (run1.1 ++ option_list one.1 ++ run2.1, run2.2).
Proof.
  cbv zeta. unfold embed_sequences at 1.
  rewrite (sequence_loop_continues num nadd ndiv client embed unicode_isalnum).
  cbv zeta. fold (embed_sequences' s1 w).
  destruct (embed_sequences' s1 w) as [out1 w1]. cbn [fst snd].
  destruct (embed_sequence' seq w1) as [r w2]. cbn [fst snd].
  rewrite sequence_loop_appends. f_equal.
  destruct r as [d|]; simpl; by rewrite <- ?app_assoc, ?app_nil_r.
Qed.

End AggregateFacts.

(** The second model answers after the first has failed, and the third is
    not called. *)
Example try_models_second_wins :
  Embedder.try_models Z nat Samples.second_model_only
    Embedder.models_to_try (py "hello") Samples.start
  = (Some ([1; 2], Embedder.voyage_02),
     Embedder.World 2%nat
       [Embedder.CallEmbed Embedder.voyage_large_2 [py "hello"] Embedder.Raises;
        Embedder.CallEmbed Embedder.voyage_02 [py "hello"]
          (Embedder.Result [[1; 2]])]).
Proof. reflexivity. Qed.

(** C4: the chunks of a document that got a vector being known from the
    fallback run on each chunk in turn, the document has no entry when
    there is none; when there is at least one, and the vectors have one
    length, the document has an entry whose chunk vectors are exactly
    those, and whose vector has, at every coordinate, the sum of the chunk
    vectors' coordinates divided by their number; with a single vector,
    the entry's vector is that vector (dividing by one changing nothing).
    In the batch, the entries are those of the documents in order, a
    document without an entry leaving none. *)
Theorem aggregate_is_mean (num : Type) (nadd : num → num → num)
    (ndiv : num → nat → num) (client : Type)
    (embed : client → str → list str → Embedder.response num * client)
    (unicode_isalnum : char → bool)
    (seq : sequence) (w : Embedder.world num client) :
  let text_chunks :=
    Chunker.chunk_text (Embedder.combined_text unicode_isalnum seq) 1500 in
  let run := EmbedderSpec.chunk_outcomes num client embed text_chunks w in
  let one :=
    Embedder.embed_sequence num nadd ndiv client embed unicode_isalnum seq w in
  one.2 = run.2
  ∧ match EmbedderSpec.vectors_of num run.1 with
    | [] => one.1 = None
    | v :: vs =>
        Forall (λ u, length u = length v) vs →
        ∃ d, one.1 = Some d
          ∧ Embedder.embedding <$> Embedder.doc_chunks d = v :: vs
          ∧ length (Embedder.doc_embedding_vector d) = length v
          ∧ (∀ k x xs,
               v !! k = Some x →
               Forall2 (λ u y, u !! k = Some y) vs xs →
               Embedder.doc_embedding_vector d !! k
               = Some (ndiv (fold_left nadd xs x) (S (length vs))))
          ∧ (vs = [] → (∀ x, ndiv x 1%nat = x) →
             Embedder.doc_embedding_vector d = v)
    end
  ∧ ∀ s1 s2 w0,
      let run1 :=
        Embedder.embed_sequences num nadd ndiv client embed unicode_isalnum
          s1 w0 in
      let this :=
        Embedder.embed_sequence num nadd ndiv client embed unicode_isalnum
          seq run1.2 in
      let run2 :=
        Embedder.embed_sequences num nadd ndiv client embed unicode_isalnum
          s2 this.2 in
      Embedder.embed_sequences num nadd ndiv client embed unicode_isalnum
        (s1 ++ seq :: s2) w0
      = (run1.1 ++ option_list this.1 ++ run2.1, run2.2).
Proof.
  cbv zeta. rewrite embed_sequence_outcomes. cbv zeta.
  pose proof (chunk_outcomes_length num client embed
    (Chunker.chunk_text (Embedder.combined_text unicode_isalnum seq) 1500) w)
    as Hlen.
  destruct (EmbedderSpec.chunk_outcomes _ _ _ _ w) as [outcomes w1].
  cbn [fst snd] in *. split_and!; [done| |intros; apply embed_sequences_split].
  rewrite <- (collect_vectors num 0 _ _ Hlen).
  destruct (EmbedderSpec.collect num 0 _ outcomes) as [|c cs]; [done|].
  cbn [fmap list_fmap]. intros Hsame.
  destruct (aggregate_mean num nadd ndiv unicode_isalnum seq c cs Hsame)
    as (d & Hd & Hchunks & _ & Hlenv & Hmean).
  exists d. split_and!; try done.
  - by rewrite Hchunks.
  - intros k x xs Hx Hxs. rewrite (Hmean k x xs Hx Hxs).
    by rewrite length_fmap.
  - intros Hnil Hone. apply fmap_nil_inv in Hnil. subst cs.
    destruct (aggregate_single num nadd ndiv unicode_isalnum seq c Hone)
      as (d' & Hd' & Hv).
    congruence.
Qed.

Lemma aggregate_is_mean_witness :
  ∃ d, (Embedder.embed_sequence Z Z.add Samples.zdiv nat
          Samples.second_model_only ascii_isalnum Samples.hello
          Samples.start).1 = Some d
    ∧ Embedder.doc_embedding_vector d = [1; 2].
Proof.
  pose proof (aggregate_is_mean Z Z.add Samples.zdiv nat
                Samples.second_model_only ascii_isalnum Samples.hello
                Samples.start) as H.
  cbv zeta in H. destruct H as (_ & H & _).
  set (vs := EmbedderSpec.vectors_of _ _) in H.
  vm_compute in vs. subst vs. cbv beta iota in H.
  destruct (H (Forall_nil_2 _)) as (d & Hd & _ & _ & _ & Hone).
  exists d. split; [exact Hd|]. apply Hone; [done|].
  intros x. unfold Samples.zdiv. apply Z.div_1_r.
Defined.

(** Two vectors of different lengths: the mean cannot be taken and the
    document has no entry, although two chunks got a vector. *)
Example aggregate_ragged_vectors :
  Embedder.aggregate Z Z.add Samples.zdiv ascii_isalnum Samples.hello
    [Embedder.ChunkEmbedding 0 (py "a.") [1; 2] Embedder.voyage_large_2;
     Embedder.ChunkEmbedding 1 (py "b.") [3] Embedder.voyage_02]
  = None.
Proof. reflexivity. Qed.

(** Two vectors of one length: the mean, coordinate by coordinate. *)
Example aggregate_two_vectors :
  Embedder.doc_embedding_vector
  <$> Embedder.aggregate Z Z.add Samples.zdiv ascii_isalnum Samples.hello
        [Embedder.ChunkEmbedding 0 (py "a.") [1; 2] Embedder.voyage_large_2;
         Embedder.ChunkEmbedding 1 (py "b.") [3; 6] Embedder.voyage_02]
  = Some [2; 4].
Proof. reflexivity. Qed.

(** ** The index manager *)

Section IndexFacts.
Import Index.

Variable num : Type.
Variable qclient : Type.
Variable qdrant : qclient → qcall num → qreply num * qclient.

Abbreviation reset_and_upsert' := (reset_and_upsert num qclient qdrant).

(** The calls of [save_to_qdrant]: delete, create, and, once the creation
    has succeeded, one upsert with the points as they are.  The function
    raises when the creation or the upsert does, and only then. *)
Lemma reset_and_upsert_calls collection_name vector_size points w :
  let run := reset_and_upsert' collection_name vector_size points w in
  let deleted := qdrant (qservice w) (DeleteCollection collection_name) in
  let created := qdrant deleted.2 (CreateCollection collection_name vector_size) in
  let upserted := qdrant created.2 (Upsert collection_name points) in
  match created.1 with
  | QRaises =>
      run = (Raised,
             QWorld created.2
               (qtrace w
                  ++ [DeleteCollection collection_name;
                      CreateCollection collection_name vector_size]))
  | QReturns _ =>
      run = (match upserted.1 with
             | QRaises => Raised
             | QReturns _ => Returned collection_name
             end,
             QWorld upserted.2
               (qtrace w
                  ++ [DeleteCollection collection_name;
                      CreateCollection collection_name vector_size;
                      Upsert collection_name points]))
  end.
Proof.
  cbv zeta. unfold reset_and_upsert, mbind, State_bind, call, mret, State_ret.
  destruct w as [q tr]. simpl.
  destruct (qdrant q _) as [r0 q1]. simpl.
  destruct (qdrant q1 _) as [r1 q2]. simpl.
  destruct r1 as [|hits1]; simpl.
  - by rewrite <- app_assoc.
  - destruct (qdrant q2 _) as [r2 q3]. simpl. rewrite <- !app_assoc.
    by destruct r2.
Qed.



End IndexFacts.




(** ** The workflow and the question loop *)

Section WorkflowFacts.
Import Workflow WorkflowSpec.

Variable str_lower : str → str.
Variable r : retriever.

Abbreviation try_block' := (try_block str_lower r).
Abbreviation iteration' := (iteration str_lower r).
Abbreviation interactive_qa' := (interactive_qa str_lower r).
Abbreviation ends_loop' := (ends_loop str_lower r).
Abbreviation escapes' := (escapes str_lower r).

(** The Retrieve node: one call of the retriever, on the question as it
    stands. *)
Lemma retrieve_documents_effects t state :
  retrieve_documents r t state
  = match retriever_invoke t r (question state) with
    | inl e => ([Say MsgSearching; CallRetriever r (question state)], inl e)
    | inr docs =>
        ([Say MsgSearching; CallRetriever r (question state);
          Say (MsgRetrieved (length docs))],
         inr (MkRAGState (question state) docs []))
    end.
Proof.
  unfold retrieve_documents, mbind, Run_bind, say, perform, mret, Run_ret.
  by destruct (retriever_invoke t r (question state)).
Qed.

(** A termination token: the farewell, and the loop is left. *)
Lemma iteration_token t line :
  stdin t = inr line →
  str_lower (strip line) ∈ termination_tokens →
  iteration' t = ([Prompt; Say MsgBye], Break).
Proof.
  intros Hin Htok. unfold iteration, try_block, perform. rewrite Hin.
  unfold mbind, Run_bind. by rewrite bool_decide_true.
Qed.

(** A blank line: nothing but the prompt. *)
Lemma iteration_blank t line :
  stdin t = inr line →
  str_lower (strip line) ∉ termination_tokens →
  strip line = [] →
  iteration' t = ([Prompt], Continue).
Proof.
  intros Hin Htok Hblank. unfold iteration, try_block, perform. rewrite Hin.
  unfold mbind, Run_bind. rewrite bool_decide_false by done.
  by rewrite Hblank.
Qed.

(** A question: what the [try] block does with it. *)
Lemma try_block_question t line :
  stdin t = inr line →
  str_lower (strip line) ∉ termination_tokens →
  strip line ≠ [] →
  try_block' t
  = match rag_app_invoke r t (MkRAGState (strip line) [] []) with
    | (log, inl e) => (Prompt :: Say MsgAnswering :: log, inl e)
    | (log, inr result) =>
        (Prompt :: Say MsgAnswering :: log
           ++ [Say (MsgAnswer (answer result));
               Say (MsgReferenced (length (documents result)))],
         inr Continue)
    end.
Proof.
  intros Hin Htok Hq. unfold try_block, perform. rewrite Hin.
  unfold mbind at 1. unfold Run_bind at 1.
  rewrite bool_decide_false by done.
  destruct (strip line) as [|c q] eqn:Hs; [done|].
  unfold mbind, Run_bind, say, mret, Run_ret.
  by destruct (rag_app_invoke r t _) as [log [e|result]]; simpl.
Qed.

(** How a pass ends, from how its [try] block ends. *)
Lemma iteration_of_try_block t :
  iteration' t
  = match try_block' t with
    | (log, inr c) => (log, c)
    | (log, inl KeyboardInterrupt) => (log ++ [Say MsgBye], Break)
    | (log, inl (Exception msg)) => (log ++ [Say (MsgError msg)], Continue)
    | (log, inl OtherBaseException) => (log, Propagate OtherBaseException)
    end.
Proof. done. Qed.

(** Only a termination token makes the [try] block break. *)
Lemma try_block_break t log :
  try_block' t = (log, inr Break) →
  ∃ line, stdin t = inr line ∧ str_lower (strip line) ∈ termination_tokens.
Proof.
  unfold try_block, perform. destruct (stdin t) as [e|line] eqn:Hin.
  - unfold mbind, Run_bind. done.
  - intros H. exists line. split; [done|].
    destruct (decide (str_lower (strip line) ∈ termination_tokens)) as [|Hno];
      [done|].
    exfalso. revert H. unfold mbind at 1. unfold Run_bind at 1.
    rewrite bool_decide_false by done.
    destruct (strip line); [done|].
    unfold mbind, Run_bind, say, mret, Run_ret.
    destruct (rag_app_invoke r t _) as [log' [e|result]]; simpl; done.
Qed.

(** A pass breaks the loop exactly on a token or an interrupt. *)
Lemma iteration_break t :
  (iteration' t).2 = Break ↔ ends_loop' t.
Proof.
  rewrite iteration_of_try_block. unfold ends_loop. split.
  - destruct (try_block' t) as [log [[|msg|]|c]] eqn:Htry; simpl; try done.
    + by right.
    + intros ->. left. by eapply try_block_break.
  - intros [(line & Hin & Htok)|Hint].
    + pose proof (iteration_token t line Hin Htok) as Hit.
      rewrite iteration_of_try_block in Hit. by rewrite Hit.
    + destruct (try_block' t) as [log res]. simpl in Hint. by subst res.
Qed.

Lemma iteration_propagate t e :
  (iteration' t).2 = Propagate e → escapes' t.
Proof.
  rewrite iteration_of_try_block. unfold escapes.
  destruct (try_block' t) as [log [[|msg|]|c]] eqn:Htry; simpl; try done.
  intros ->. exfalso. revert Htry. unfold try_block, perform.
  destruct (stdin t) as [e'|line]; [done|].
  unfold mbind at 1. unfold Run_bind at 1.
  destruct (bool_decide _); [done|].
  destruct (strip line); [done|].
  unfold mbind, Run_bind, say, mret, Run_ret.
  destruct (rag_app_invoke r t _) as [log' [e'|result]]; simpl; done.
Qed.

(** While no turn ends the loop or escapes it, the loop asks again. *)
Lemma loop_repeats script :
  Forall (λ t, ¬ ends_loop' t ∧ ¬ escapes' t) script →
  (interactive_qa' script).2 = AtPrompt.
Proof.
  induction 1 as [|t l [Hend Hesc] _ IH]; [done|]. simpl.
  destruct (iteration' t) as [log c] eqn:Hit.
  destruct c as [| |e].
  - by destruct (interactive_qa' l).
  - exfalso. apply Hend, iteration_break. by rewrite Hit.
  - exfalso. apply Hesc. eapply iteration_propagate. by rewrite Hit.
Qed.

(** The first turn that ends the loop makes the function return. *)
Lemma loop_exits pre t rest :
  Forall (λ t, ¬ ends_loop' t ∧ ¬ escapes' t) pre →
  ends_loop' t →
  (interactive_qa' (pre ++ t :: rest)).2 = Exited.
Proof.
  intros Hpre Hend. induction Hpre as [|t0 l [Hend0 Hesc0] _ IH]; simpl.
  - apply iteration_break in Hend. destruct (iteration' t) as [log c].
    simpl in Hend. by subst c.
  - destruct (iteration' t0) as [log c] eqn:Hit.
    destruct c as [| |e].
    + by destruct (interactive_qa' (l ++ t :: rest)).
    + exfalso. apply Hend0, iteration_break. by rewrite Hit.
    + exfalso. apply Hesc0. eapply iteration_propagate. by rewrite Hit.
Qed.

(** An [Exception] out of the [try] block is reported and the loop goes
    on with the next turn. *)
Lemma loop_survives_exception t rest log msg :
  try_block' t = (log, inl (Exception msg)) →
  interactive_qa' (t :: rest)
  = ((log ++ [Say (MsgError msg)]) ++ (interactive_qa' rest).1,
     (interactive_qa' rest).2).
Proof.
  intros Htry. simpl. rewrite iteration_of_try_block, Htry.
  by destruct (interactive_qa' rest).
Qed.

End WorkflowFacts.

(** A session: a question, a question on which the chain fails, a blank
    line, the token, and a line that is never read. *)
Example interactive_qa_session :
  Workflow.interactive_qa ascii_lower
    (Workflow.create_retriever_from_existing_data (py "docs"))
    [Samples.echo (inr (py " hi "));
     Samples.failing_chain (inr (py "why?"));
     Samples.echo (inr (py "   "));
     Samples.echo (inr (py " QUIT "));
     Samples.echo (inr (py "more"))]
  = (let r := Workflow.create_retriever_from_existing_data (py "docs") in
     [Workflow.Prompt;
      Workflow.Say Workflow.MsgAnswering;
      Workflow.Say Workflow.MsgSearching;
      Workflow.CallRetriever r (py "hi");
      Workflow.Say (Workflow.MsgRetrieved 1);
      Workflow.Say Workflow.MsgGenerating;
      Workflow.CallChain (py "hi") (py "hi");
      Workflow.Say Workflow.MsgGenerated;
      Workflow.Say (Workflow.MsgAnswer (py "hi"));
      Workflow.Say (Workflow.MsgReferenced 1);
      Workflow.Prompt;
      Workflow.Say Workflow.MsgAnswering;
      Workflow.Say Workflow.MsgSearching;
      Workflow.CallRetriever r (py "why?");
      Workflow.Say (Workflow.MsgRetrieved 1);
      Workflow.Say Workflow.MsgGenerating;
      Workflow.CallChain (py "why?") (py "why?");
      Workflow.Say (Workflow.MsgError (py "rate limit"));
      Workflow.Prompt;
      Workflow.Prompt;
      Workflow.Say Workflow.MsgBye],
     Workflow.Exited).
Proof. reflexivity. Qed.

(** C8: as long as no line is a termination token and no interrupt
    arrives, the loop is back at its prompt after every turn; the first
    turn whose line, stripped and lowered, is one of the tokens, or during
    which [KeyboardInterrupt] is raised, makes the function return after
    the farewell; an [Exception] raised in a turn, in particular while the
    question is answered, is reported and the loop goes on with the next
    turn. *)
Theorem interactive_qa_loop (str_lower : str → str) (r : Workflow.retriever)
    (pre : list Workflow.turn) (t : Workflow.turn) (rest : list Workflow.turn) :
  let quiet := λ t0, ¬ WorkflowSpec.ends_loop str_lower r t0
                     ∧ ¬ WorkflowSpec.escapes str_lower r t0 in
  (Forall quiet pre →
   (Workflow.interactive_qa str_lower r pre).2 = Workflow.AtPrompt)
  ∧ (Forall quiet pre → WorkflowSpec.ends_loop str_lower r t →
     (Workflow.interactive_qa str_lower r (pre ++ t :: rest)).2
     = Workflow.Exited)
  ∧ (∀ line, Workflow.stdin t = inr line →
       str_lower (strip line) ∈ Workflow.termination_tokens →
       Workflow.iteration str_lower r t
       = ([Workflow.Prompt; Workflow.Say Workflow.MsgBye], Workflow.Break))
  ∧ (∀ log, Workflow.try_block str_lower r t
            = (log, inl Workflow.KeyboardInterrupt) →
       Workflow.iteration str_lower r t
       = (log ++ [Workflow.Say Workflow.MsgBye], Workflow.Break))
  ∧ (∀ log msg, Workflow.try_block str_lower r t
                = (log, inl (Workflow.Exception msg)) →
       Workflow.interactive_qa str_lower r (t :: rest)
       = ((log ++ [Workflow.Say (Workflow.MsgError msg)])
            ++ (Workflow.interactive_qa str_lower r rest).1,
          (Workflow.interactive_qa str_lower r rest).2))
  ∧ (∀ line log msg,
       Workflow.stdin t = inr line →
       str_lower (strip line) ∉ Workflow.termination_tokens →
       strip line ≠ [] →
       Workflow.rag_app_invoke r t (Workflow.MkRAGState (strip line) [] [])
       = (log, inl (Workflow.Exception msg)) →
       Workflow.iteration str_lower r t
       = (Workflow.Prompt :: Workflow.Say Workflow.MsgAnswering :: log
            ++ [Workflow.Say (Workflow.MsgError msg)],
          Workflow.Continue)).
Proof.
  cbv zeta. split_and!.
  - apply loop_repeats.
  - apply loop_exits.
  - apply iteration_token.
  - intros log Htry. by rewrite iteration_of_try_block, Htry.
  - apply loop_survives_exception.
  - intros line log msg Hin Htok Hq Hrag.
    rewrite iteration_of_try_block.
    rewrite (try_block_question str_lower r t line Hin Htok Hq), Hrag.
    done.
Qed.

Lemma interactive_qa_loop_witness :
  (Workflow.interactive_qa ascii_lower
     (Workflow.create_retriever_from_existing_data (py "docs"))
     ([Samples.echo (inr (py " hi "));
       Samples.failing_chain (inr (py "why?"))]
      ++ Samples.echo (inr (py " QUIT ")) :: [Samples.echo (inr (py "more"))])).2
  = Workflow.Exited.
Proof.
  refine (proj1 (proj2
    (interactive_qa_loop ascii_lower
       (Workflow.create_retriever_from_existing_data (py "docs"))
       [Samples.echo (inr (py " hi "));
        Samples.failing_chain (inr (py "why?"))]
       (Samples.echo (inr (py " QUIT ")))
       [Samples.echo (inr (py "more"))])) _ _).
  - repeat constructor;
      try (rewrite <- iteration_break; vm_compute; discriminate);
      try (unfold WorkflowSpec.escapes; vm_compute; discriminate).
  - left. exists (py " QUIT "). split; [reflexivity|].
    by apply (bool_decide_unpack _).
Defined.

(** C10: a line that is empty once stripped gives a pass of the loop with
    no effect but the prompt: no call of the retriever, no call of the
    chain, nothing printed; and the loop goes on with the next turn. *)
Theorem blank_line_is_skipped (str_lower : str → str) (r : Workflow.retriever)
    (t : Workflow.turn) (line : str) (rest : list Workflow.turn) :
  str_lower [] = [] →
  Workflow.stdin t = inr line →
  strip line = [] →
  Workflow.iteration str_lower r t = ([Workflow.Prompt], Workflow.Continue)
  ∧ Workflow.interactive_qa str_lower r (t :: rest)
    = (Workflow.Prompt :: (Workflow.interactive_qa str_lower r rest).1,
       (Workflow.interactive_qa str_lower r rest).2).
Proof.
  intros Hlower Hin Hblank.
  assert (Workflow.iteration str_lower r t
          = ([Workflow.Prompt], Workflow.Continue)) as Hit.
  { apply (iteration_blank str_lower r t line Hin); [|done].
    rewrite Hblank, Hlower. by apply (bool_decide_unpack _). }
  split; [done|]. simpl. rewrite Hit.
  by destruct (Workflow.interactive_qa str_lower r rest).
Qed.

Lemma blank_line_is_skipped_witness :
  Workflow.iteration ascii_lower
    (Workflow.create_retriever_from_existing_data (py "docs"))
    (Samples.echo (inr (py "   ")))
  = ([Workflow.Prompt], Workflow.Continue).
Proof.
  refine (proj1
    (blank_line_is_skipped ascii_lower
       (Workflow.create_retriever_from_existing_data (py "docs"))
       (Samples.echo (inr (py "   "))) (py "   ") [] _ _ _));
    reflexivity.
Defined.

(** ** Query-time embedding *)

(** The calls of the fallback loop are on the one text, for the models of
    the list from its first on. *)
Lemma try_models_calls (num client : Type)
    (embed : client → str → list str → Embedder.response num * client)
    models text w :
  let tried := Embedder.try_models num client embed models text w in
  ∃ log rest,
    Embedder.trace tried.2 = Embedder.trace w ++ log
    ∧ Forall (λ e, Embedder.ev_texts e = [text]) log
    ∧ models = (Embedder.ev_model <$> log) ++ rest.
Proof.
  cbv zeta. pose proof (try_models_spec num client embed models text w) as H.
  destruct (Embedder.try_models _ _ _ _ _ w) as [found w'].
  destruct H as (log & Htr & _ & Htexts & Hfound). simpl.
  destruct found as [[v m]|].
  - destruct Hfound as (log0 & e & rest & -> & -> & _ & <- & _).
    exists (log0 ++ [e]), rest. split_and!; [done..|].
    by rewrite fmap_app, <- app_assoc.
  - destruct Hfound as [<- _]. exists log, []. by rewrite app_nil_r.
Qed.

(** [search_similar_documents]: the query is normalised, the fallback loop
    runs on it, and the search is made with the vector found. *)
Lemma search_similar_documents_steps (num qclient : Type)
    (qdrant : qclient → Index.qcall num → Index.qreply num * qclient)
    (client : Type)
    (embed : client → str → list str → Embedder.response num * client)
    (unicode_isalnum : char → bool)
    collection_name query_text limit vw qw :
  let processed := preprocess_korean_text unicode_isalnum query_text in
  let tried :=
    Embedder.try_models num client embed Embedder.models_to_try processed vw in
  let run :=
    Index.search_similar_documents num qclient qdrant client embed
      unicode_isalnum collection_name query_text limit vw qw in
  run.1.2 = tried.2
  ∧ match tried.1 with
    | None => run.1.1 = Index.Returned [] ∧ run.2 = qw
    | Some (query_vector, _) =>
        let search :=
          Index.SearchPoints collection_name query_vector (default 5%nat limit) in
        Index.qtrace run.2 = Index.qtrace qw ++ [search]
        ∧ run.1.1 = match (qdrant (Index.qservice qw) search).1 with
                    | Index.QRaises => Index.Raised
                    | Index.QReturns hits => Index.Returned hits
                    end
    end.
Proof.
  cbv zeta. unfold Index.search_similar_documents.
  destruct (Embedder.try_models _ _ _ _ _ vw) as [[[v m]|] vw']; [|done].
  unfold Index.call, Index.default_limit. simpl.
  destruct (qdrant _ _) as [[|hits] q']; done.
Qed.

(** C9, as stated, fails for the workflow: the Retrieve node hands the
    question ["a!"] to the retriever as it is, while its normalised form
    is ["a "], and the retriever embeds with one model, which is none of
    the fallback list. *)
Lemma retrieve_sends_raw_question :
  Workflow.retrieve_documents
    (Workflow.create_retriever_from_existing_data (py "docs"))
    (Samples.echo (inr (py "a!")))
    (Workflow.MkRAGState (py "a!") [] [])
  = ([Workflow.Say Workflow.MsgSearching;
      Workflow.CallRetriever
        (Workflow.Retriever (py "docs") (py "text-embedding-3-small") 10)
        (py "a!");
      Workflow.Say (Workflow.MsgRetrieved 1)],
     inr (Workflow.MkRAGState (py "a!")
            [Workflow.Document (py "a!") (py "src")] []))
  ∧ preprocess_korean_text ascii_isalnum (py "a!") = py "a "
  ∧ (py "text-embedding-3-small" ∉ Embedder.models_to_try).
Proof.
  split_and!; try reflexivity. by apply (bool_decide_unpack _).
Qed.

(** C9, amended: in the workflow's Retrieve node the question, as it is
    given (not normalised), is handed to the retriever, which is set up
    with the single embedding model text-embedding-3-small and the fixed
    top-K of 10; nothing else reaches the outside world there.  It is the
    ad hoc [search_similar_documents] of step2.py that normalises the
    query and embeds it, whole, with the fallback loop of the ingestion
    over the same model list, then searches the index with the vector
    found and the caller's limit (5 by default); when no model gives a
    vector it returns no result and makes no search. *)
Theorem retrieve_query_embedding (collection_name : str) (t : Workflow.turn)
    (state : Workflow.RAGState)
    (num qclient : Type)
    (qdrant : qclient → Index.qcall num → Index.qreply num * qclient)
    (client : Type)
    (embed : client → str → list str → Embedder.response num * client)
    (unicode_isalnum : char → bool)
    (query_text : str) (limit : option nat)
    (vw : Embedder.world num client) (qw : Index.qworld num qclient) :
  let r := Workflow.create_retriever_from_existing_data collection_name in
  let processed := preprocess_korean_text unicode_isalnum query_text in
  let tried :=
    Embedder.try_models num client embed Embedder.models_to_try processed vw in
  let run :=
    Index.search_similar_documents num qclient qdrant client embed
      unicode_isalnum collection_name query_text limit vw qw in
  (Workflow.retriever_k r = 10%nat
   ∧ Workflow.retriever_embedding_model r = py "text-embedding-3-small"
   ∧ Workflow.retrieve_documents r t state
     = match Workflow.retriever_invoke t r (Workflow.question state) with
       | inl e =>
           ([Workflow.Say Workflow.MsgSearching;
             Workflow.CallRetriever r (Workflow.question state)], inl e)
       | inr docs =>
           ([Workflow.Say Workflow.MsgSearching;
             Workflow.CallRetriever r (Workflow.question state);
             Workflow.Say (Workflow.MsgRetrieved (length docs))],
            inr (Workflow.MkRAGState (Workflow.question state) docs []))
       end)
  ∧ run.1.2 = tried.2
  ∧ (∃ log rest,
       Embedder.trace tried.2 = Embedder.trace vw ++ log
       ∧ Forall (λ e, Embedder.ev_texts e = [processed]) log
       ∧ Embedder.models_to_try = (Embedder.ev_model <$> log) ++ rest)
  ∧ match tried.1 with
    | None => run.1.1 = Index.Returned [] ∧ run.2 = qw
    | Some (query_vector, _) =>
        let search :=
          Index.SearchPoints collection_name query_vector (default 5%nat limit) in
        Index.qtrace run.2 = Index.qtrace qw ++ [search]
        ∧ run.1.1 = match (qdrant (Index.qservice qw) search).1 with
                    | Index.QRaises => Index.Raised
                    | Index.QReturns hits => Index.Returned hits
                    end
    end.
Proof.
  cbv zeta.
  pose proof (search_similar_documents_steps num qclient qdrant client embed
    unicode_isalnum collection_name query_text limit vw qw) as [Hvw Hrun].
  split_and!; try done.
  - apply retrieve_documents_effects.
  - apply (try_models_calls num client embed).
Qed.

(** ** One chunk per document *)

Section OneChunk.

Variable unicode_isalnum : char → bool.

(** The Unicode table has no sentence terminator among the alphanumeric
    characters. *)
Hypothesis terminators_not_alnum :
  ∀ c, is_terminator c = true → unicode_isalnum c = false.

Abbreviation plain := (Forall (λ c, is_terminator c = false)).

Lemma kept_not_terminator c :
  is_word unicode_isalnum c || is_space c || is_hangul c = true →
  is_terminator c = false.
Proof.
  intros Hkept. destruct (is_terminator c) eqn:Hterm; [|done].
  pose proof (terminators_not_alnum c Hterm) as Halnum.
  unfold is_word in Hkept. rewrite Halnum in Hkept.
  unfold is_terminator in Hterm.
  repeat (apply orb_prop in Hterm as [Hterm|Hterm]);
    apply N.eqb_eq in Hterm; subst c; by vm_compute in Hkept.
Qed.

Lemma collapse_ws_from_plain in_run s :
  plain s → plain (collapse_ws_from in_run s).
Proof.
  intros Hs. revert in_run. induction Hs as [|c s Hc _ IH]; intros in_run.
  - constructor.
  - simpl. destruct (is_space c); [destruct in_run|]; try apply IH;
      constructor; try done; apply IH.
Qed.

Lemma blank_specials_plain s : plain (blank_specials unicode_isalnum s).
Proof.
  unfold blank_specials. apply Forall_fmap, Forall_forall. intros c _. simpl.
  destruct (is_word unicode_isalnum c || is_space c || is_hangul c) eqn:Hkept;
    [by apply kept_not_terminator | done].
Qed.

Lemma preprocess_korean_text_plain text :
  plain (preprocess_korean_text unicode_isalnum text).
Proof. apply collapse_ws_from_plain, blank_specials_plain. Qed.

Lemma item_text_plain item :
  Forall plain (Embedder.item_text unicode_isalnum item).
Proof.
  destruct item as [content|content image_name caption];
    unfold Embedder.item_text.
  - pose proof (preprocess_korean_text_plain content) as H.
    destruct (preprocess_korean_text unicode_isalnum content);
      [constructor | by apply Forall_singleton].
  - destruct caption as [|c caption].
    + by repeat constructor.
    + apply Forall_singleton. apply Forall_app. split; [by repeat constructor|].
      apply Forall_app. split; [apply preprocess_korean_text_plain|].
      by repeat constructor.
Qed.

Lemma join_plain sep parts : plain sep → Forall plain parts → plain (join sep parts).
Proof.
  intros Hsep Hparts. induction Hparts as [|p l Hp Hl IH]; [constructor|].
  simpl. destruct l as [|q l]; [done|].
  apply Forall_app. split; [done|]. apply Forall_app. by split.
Qed.

Lemma combined_text_plain seq : plain (Embedder.combined_text unicode_isalnum seq).
Proof.
  unfold Embedder.combined_text. apply join_plain; [by repeat constructor|].
  apply Forall_bind. apply Forall_forall. intros item _. apply item_text_plain.
Qed.

End OneChunk.

(** A text without terminators gives one chunk, whatever the bound. *)
Lemma chunk_text_plain_text text max_length :
  Forall (λ c, is_terminator c = false) text →
  Chunker.chunk_text text max_length
  = if len text <=? max_length then [text]
    else match strip text with
         | [] => [text]
         | sentence => [sentence ++ [46%N]]
         end.
Proof.
  intros Hplain. destruct (Z.leb_spec (len text) max_length) as [Hle|Hgt].
  - unfold Chunker.chunk_text.
    by destruct (Z.leb_spec (len text) max_length); [|lia].
  - by apply chunk_text_one_sentence.
Qed.

(** X1: the text handed to the embedding service is always one chunk: the
    normaliser leaves no sentence terminator for the chunker to split at.
    The chunk is the combined text, or, past 1500 characters, its stripped
    form followed by a full stop. *)
Theorem one_chunk_per_document (unicode_isalnum : char → bool) (seq : sequence) :
  (∀ c, is_terminator c = true → unicode_isalnum c = false) →
  let text := Embedder.combined_text unicode_isalnum seq in
  Chunker.chunk_text text 1500
  = if len text <=? 1500 then [text]
    else match strip text with
         | [] => [text]
         | sentence => [sentence ++ [46%N]]
         end.
Proof.
  intros Halnum text. apply chunk_text_plain_text.
  by apply combined_text_plain.
Qed.

Lemma one_chunk_per_document_witness :
  Chunker.chunk_text (Embedder.combined_text ascii_isalnum Samples.hello) 1500
  = [py "hello world"].
Proof.
  refine (one_chunk_per_document ascii_isalnum Samples.hello _).
  intros c Hterm. unfold is_terminator in Hterm.
  repeat (apply orb_prop in Hterm as [Hterm|Hterm]);
    apply N.eqb_eq in Hterm; by subst c.
Defined.

(** X2: a document is embedded as one chunk, so its entry, when the
    fallback gives a vector for that chunk, carries exactly that vector
    (the mean of one vector, dividing by one changing nothing), and the
    document has no entry when every model fails. *)
Theorem document_vector_is_chunk_vector (num : Type) (nadd : num → num → num)
    (ndiv : num → nat → num) (client : Type)
    (embed : client → str → list str → Embedder.response num * client)
    (unicode_isalnum : char → bool)
    (seq : sequence) (w : Embedder.world num client) :
  (∀ c, is_terminator c = true → unicode_isalnum c = false) →
  (∀ x, ndiv x 1%nat = x) →
  ∃ chunk,
    Chunker.chunk_text (Embedder.combined_text unicode_isalnum seq) 1500
    = [chunk]
    ∧ let tried :=
        Embedder.try_models num client embed Embedder.models_to_try chunk w in
      let one :=
        Embedder.embed_sequence num nadd ndiv client embed unicode_isalnum
          seq w in
      one.2 = tried.2
      ∧ match tried.1 with
        | None => one.1 = None
        | Some (v, model_name) =>
            ∃ d, one.1 = Some d
              ∧ Embedder.doc_embedding_vector d = v
              ∧ Embedder.doc_chunks d
                = [Embedder.ChunkEmbedding 0 chunk v model_name]
        end.
Proof.
  intros Halnum Hone.
  pose proof (chunk_text_plain_text _ 1500
                (combined_text_plain unicode_isalnum Halnum seq)) as Hchunks.
  assert (∃ chunk,
            Chunker.chunk_text (Embedder.combined_text unicode_isalnum seq) 1500
            = [chunk]) as [chunk Hchunk].
  { rewrite Hchunks. destruct (_ <=? _); [by eexists|].
    destruct (strip _); by eexists. }
  exists chunk. split; [done|]. cbv zeta.
  rewrite embed_sequence_outcomes. cbv zeta. rewrite Hchunk.
  cbn [EmbedderSpec.chunk_outcomes]. unfold mbind, State_bind, mret, State_ret.
  destruct (Embedder.try_models _ _ _ _ _ w) as [[[v m]|] w'];
    cbn [fst snd EmbedderSpec.collect app]; [|done].
  split; [done|].
  destruct (aggregate_single num nadd ndiv unicode_isalnum seq
              (Embedder.ChunkEmbedding 0 chunk v m) Hone) as (d & Hd & Hv).
  exists d. split_and!; [done..|].
  unfold Embedder.aggregate in Hd.
  destruct (Embedder.np_mean _ _ _ _ _); by simplify_eq.
Qed.

Lemma document_vector_is_chunk_vector_witness :
  ∃ chunk,
    Chunker.chunk_text (Embedder.combined_text ascii_isalnum Samples.hello) 1500
    = [chunk]
    ∧ (Embedder.embed_sequence Z Z.add Samples.zdiv nat
         Samples.second_model_only ascii_isalnum Samples.hello
         Samples.start).2
      = (Embedder.try_models Z nat Samples.second_model_only
           Embedder.models_to_try chunk Samples.start).2.
Proof.
  destruct (document_vector_is_chunk_vector Z Z.add Samples.zdiv nat
              Samples.second_model_only ascii_isalnum Samples.hello
              Samples.start) as (chunk & Hchunk & Hw & _).
  - intros c Hterm. unfold is_terminator in Hterm.
    repeat (apply orb_prop in Hterm as [Hterm|Hterm]);
      apply N.eqb_eq in Hterm; by subst c.
  - intros x. unfold Samples.zdiv. apply Z.div_1_r.
  - exists chunk. by split.
Defined.

(** An ad hoc search: the query is normalised, the first model fails, the
    second gives the vector, and the index is searched with the default
    limit. *)
Example search_similar_documents_run :
  Index.search_similar_documents Z unit Samples.accepting nat
    Samples.second_model_only ascii_isalnum (py "docs") (py " What's  up? ")
    None Samples.start (Index.QWorld tt [])
  = (Index.Returned [],
     Embedder.World 2%nat
       [Embedder.CallEmbed Embedder.voyage_large_2 [py "What s up "]
          Embedder.Raises;
        Embedder.CallEmbed Embedder.voyage_02 [py "What s up "]
          (Embedder.Result [[1; 2]])],
     Index.QWorld tt [Index.SearchPoints (py "docs") [1; 2] 5]).
Proof. reflexivity. Qed.

(** A document of step2.py: the caption of the first image comes from the
    captioned markdown, the second marker has no image file. *)
Example step2_build_with_caption :
  multimodal_content
    (Step2Builder.build (λ _, Some (py "QQ"))
       (Step2Builder.PdfData (py "doc")
          (py "Intro ![fig](a.png) middle ![fig](b.png) end")
          ([91; 51060; 48120; 51648; 32; 52897; 49496; 58; 32]%N ++ py "a field]")
          [Path (py "dir") (py "image_000.png")]
          (Path (py "data/parsed/doc") (py "artifacts"))))
  = [TextSeg (py "Intro");
     ImageSeg (py "data:image/png;base64,QQ") (py "image_000.png") (py "a field");
     TextSeg (py "middle");
     TextSeg (py "end")].
Proof. reflexivity. Qed.

(** * Further facts *)

(** ** More on strings *)

Lemma strip_ends s c : last (strip s) = Some c → is_space c = false.
Proof.
  unfold strip, rstrip. rewrite last_reverse.
  destruct (lstrip (reverse (lstrip s))) as [|a u] eqn:Hu; [done|].
  simpl. intros [= <-]. by eapply lstrip_starts.
Qed.

(** A string that neither starts nor ends with whitespace is its own
    stripped form. *)
Lemma strip_fixed c r :
  is_space c = false →
  (∀ d, last (c :: r) = Some d → is_space d = false) →
  strip (c :: r) = c :: r.
Proof.
  intros Hc Hlast. unfold strip, rstrip. rewrite (lstrip_head _ _ Hc).
  destruct (reverse (c :: r)) as [|d u] eqn:Hrev.
  - apply (f_equal reverse) in Hrev. by rewrite reverse_involutive in Hrev.
  - assert (last (c :: r) = Some d) as Hd.
    { rewrite <- (reverse_involutive (c :: r)), Hrev, last_reverse. done. }
    rewrite (lstrip_head _ _ (Hlast d Hd)), <- Hrev.
    apply reverse_involutive.
Qed.

Lemma strip_idemp s : strip (strip s) = strip s.
Proof.
  destruct (strip s) as [|c r] eqn:Hs; [done|].
  apply strip_fixed.
  - by eapply strip_starts.
  - intros d Hd. apply (strip_ends s). by rewrite Hs.
Qed.

(** ** The shape of the chunks *)

Section ChunkShape.
Import Chunker.

Variable P : str → Prop.
Hypothesis P_flushed :
  ∀ c body, is_space c = false → P ((c :: body) ++ [46%N]).

Abbreviation inv := (ChunkShapeSpec.shaped P).

Lemma flush_shaped st : inv st → Forall P (flush st).
Proof.
  intros [Hcs Hcur]. unfold flush.
  destruct (current_chunk st) as [|a cur] eqn:Hst; [done|].
  destruct Hcur as [?|(c & body & Heq & Hc)]; [done|].
  apply Forall_app. split; [done|]. apply Forall_singleton.
  rewrite Heq, (strip_with_sep _ _ Hc). by apply P_flushed.
Qed.

Lemma loop_body_shaped max_length st sentence :
  inv st → inv (loop_body max_length st sentence).
Proof.
  intros Hst. unfold loop_body.
  destruct (strip sentence) as [|c r] eqn:Hs; [done|].
  pose proof (strip_starts _ _ _ Hs) as Hc.
  destruct (_ <? _).
  - destruct Hst as [Hcs Hcur]. split; [done|]. simpl. right.
    destruct Hcur as [Hcur|(c0 & body & Hcur & Hc0)]; rewrite Hcur.
    + by exists c, r.
    + exists c0, (body ++ sep ++ c :: r). split; [|done].
      simpl. by rewrite <- !app_assoc.
  - split; [by apply flush_shaped|]. simpl. right. by exists c, r.
Qed.

Lemma loop_flushes max_length sentences :
  Forall P
    (flush (fold_left (loop_body max_length) sentences (LoopState [] []))).
Proof.
  apply flush_shaped.
  assert (inv (LoopState [] [])) as Hinit by (split; [done | by left]).
  revert Hinit. generalize (LoopState [] []).
  induction sentences as [|s l IH]; intros st Hst; [done|].
  simpl. by apply IH, loop_body_shaped.
Qed.

End ChunkShape.

(** X3: [chunk_text] never returns an empty list; and for a text longer
    than the bound, either every chunk is a non-empty body followed by a
    full stop, with no whitespace at either end, or the text comes back
    alone because all its sentences are blank. *)
Theorem chunk_text_shape (text : str) (max_length : Z) :
  Chunker.chunk_text text max_length ≠ []
  ∧ (max_length < len text →
     Forall (λ c, (∃ body, body ≠ [] ∧ c = body ++ [46%N]) ∧ strip c = c)
       (Chunker.chunk_text text max_length)
     ∨ (Chunker.chunk_text text max_length = [text]
        ∧ Forall (λ s, strip s = []) (re_split text))).
Proof.
  unfold Chunker.chunk_text.
  destruct (Z.leb_spec (len text) max_length) as [Hle|Hgt].
  - split; [done | lia].
  - simpl. set (st := fold_left _ _ _).
    destruct (Chunker.flush st) as [|c0 cs] eqn:Hflush.
    + split; [done|]. intros _. right. split; [done|].
      apply flush_empty in Hflush. subst st.
      by apply loop_buffer_empty in Hflush as [_ ?].
    + split; [done|]. intros _. left. rewrite <- Hflush. subst st.
      apply loop_flushes. intros c body Hc. split.
      * by exists (c :: body).
      * rewrite <- app_comm_cons. apply strip_fixed; [done|].
        intros d. rewrite app_comm_cons, last_snoc. by intros [= <-].
Qed.

Lemma chunk_text_shape_witness :
  Forall (λ c, (∃ body, body ≠ [] ∧ c = body ++ [46%N]) ∧ strip c = c)
    (Chunker.chunk_text (py "ab. cd! ef") 6)
  ∨ (Chunker.chunk_text (py "ab. cd! ef") 6 = [py "ab. cd! ef"]
     ∧ Forall (λ s, strip s = []) (re_split (py "ab. cd! ef"))).
Proof. apply (proj2 (chunk_text_shape (py "ab. cd! ef") 6)). reflexivity. Defined.

(** ** The shape of normalised text *)

Lemma collapse_ws_from_head s c :
  head (collapse_ws_from true s) = Some c → is_space c = false.
Proof.
  induction s as [|a s IH]; simpl; [done|].
  destruct (is_space a) eqn:Ha; [done|]. simpl. by intros [= <-].
Qed.

Lemma collapse_ws_from_single_spaced in_run s :
  single_spaced (collapse_ws_from in_run s) = true.
Proof.
  revert in_run. induction s as [|a s IH]; intros in_run; [done|].
  simpl. destruct (is_space a) eqn:Ha.
  - destruct in_run; [apply IH|].
    pose proof (collapse_ws_from_head s) as Hhead. specialize (IH true).
    destruct (collapse_ws_from true s) as [|b u]; [done|].
    change (single_spaced (32%N :: b :: u))
      with (negb (is_space 32 && is_space b) && single_spaced (b :: u)).
    rewrite IH, (Hhead b eq_refl). by rewrite andb_false_r.
  - specialize (IH false).
    destruct (collapse_ws_from false s) as [|b u]; [done|].
    change (single_spaced (a :: b :: u))
      with (negb (is_space a && is_space b) && single_spaced (b :: u)).
    by rewrite IH, Ha.
Qed.

Lemma collapse_ws_from_chars in_run s :
  Forall (λ c, c = 32%N ∨ is_space c = false ∧ c ∈ s) (collapse_ws_from in_run s).
Proof.
  revert in_run. induction s as [|a s IH]; intros in_run; [constructor|].
  assert (∀ b, Forall (λ c, c = 32%N ∨ is_space c = false ∧ c ∈ a :: s)
                 (collapse_ws_from b s)) as IH'.
  { intros b. eapply Forall_impl; [apply IH|]. simpl.
    intros c [?|[? ?]]; [by left | right; split; [done | by right]]. }
  simpl. destruct (is_space a) eqn:Ha.
  - destruct in_run; [apply IH'|]. constructor; [by left | apply IH'].
  - constructor; [|apply IH']. right. split; [done | by left].
Qed.

Lemma collapse_ws_from_length in_run s :
  (length (collapse_ws_from in_run s) ≤ length s)%nat.
Proof.
  revert in_run. induction s as [|a s IH]; intros in_run; simpl; [done|].
  pose proof (IH true). pose proof (IH false).
  destruct (is_space a); [destruct in_run|]; simpl; lia.
Qed.

Lemma lstrip_length s : (length (lstrip s) ≤ length s)%nat.
Proof.
  induction s as [|a s IH]; simpl; [done|]. destruct (is_space a); simpl; lia.
Qed.

Lemma strip_length s : (length (strip s) ≤ length s)%nat.
Proof.
  unfold strip, rstrip. rewrite length_reverse.
  etrans; [apply lstrip_length|]. rewrite length_reverse. apply lstrip_length.
Qed.

(** X4: in the text [preprocess_korean_text] returns, whitespace occurs
    only as single ASCII spaces, every other character is a word
    character or a Hangul syllable, and the text is no longer than the
    one given. *)
Theorem preprocess_korean_text_shape (unicode_isalnum : char → bool)
    (text : str) :
  let out := preprocess_korean_text unicode_isalnum text in
  single_spaced out = true
  ∧ Forall (λ c, c = 32%N
                 ∨ is_space c = false
                   ∧ is_word unicode_isalnum c || is_hangul c = true) out
  ∧ (length out ≤ length text)%nat.
Proof.
  cbv zeta. unfold preprocess_korean_text, collapse_ws. split_and!.
  - apply collapse_ws_from_single_spaced.
  - eapply Forall_impl; [apply collapse_ws_from_chars|]. simpl.
    intros c [?|[Hns Hin]]; [by left|]. right. split; [done|].
    unfold blank_specials in Hin. apply list_elem_of_fmap in Hin as (a & -> & _).
    destruct (is_word unicode_isalnum a || is_space a || is_hangul a) eqn:Hkept;
      [|done].
    rewrite Hns in Hkept. by rewrite orb_false_r in Hkept.
  - etrans; [apply collapse_ws_from_length|].
    unfold blank_specials. rewrite length_fmap.
    etrans; [apply collapse_ws_from_length|]. apply strip_length.
Qed.

Example preprocess_korean_text_run :
  preprocess_korean_text ascii_isalnum (py "  What's   up?! (a_b) ")
  = py "What s up a_b ".
Proof. reflexivity. Qed.

(** ** The scan for markers *)

Section ScanFacts.
Import ScanSpec.

Variable match_at : str → option nat.

(** The length of a match does not exceed the text it is found in. *)
Hypothesis match_fits : ∀ u n, match_at u = Some n → (n ≤ length u)%nat.

Lemma chained_weaken lo lo' spans :
  (lo' ≤ lo)%nat → chained lo spans → chained lo' spans.
Proof.
  destruct spans as [|[a b] rest]; simpl; [done|].
  intros ? (? & ? & ?). split_and!; [lia | lia | done].
Qed.

Lemma finditer_from_spec s pos skip :
  let spans := finditer_from match_at pos skip s in
  chained (pos + skip) spans
  ∧ Forall (λ ab, (pos ≤ ab.1)%nat ∧ (ab.2 ≤ pos + length s)%nat
                  ∧ match_at (drop (ab.1 - pos) s) = Some (ab.2 - ab.1)%nat)
      spans
  ∧ ∀ p, (pos + skip ≤ p)%nat → (p < pos + length s)%nat →
         ¬ covered p spans →
         match_at (drop (p - pos) s) = None
         ∨ match_at (drop (p - pos) s) = Some 0%nat.
Proof.
  cbv zeta. revert pos skip. induction s as [|c s IH]; intros pos skip.
  - simpl. split_and!; [done | constructor | intros; lia].
  - assert (∀ k,
      Forall (λ ab, (S pos ≤ ab.1)%nat ∧ (ab.2 ≤ S pos + length s)%nat
                    ∧ match_at (drop (ab.1 - S pos) s) = Some (ab.2 - ab.1)%nat)
        (finditer_from match_at (S pos) k s) →
      Forall (λ ab, (pos ≤ ab.1)%nat ∧ (ab.2 ≤ pos + length (c :: s))%nat
                    ∧ match_at (drop (ab.1 - pos) (c :: s))
                      = Some (ab.2 - ab.1)%nat)
        (finditer_from match_at (S pos) k s)) as Hshift.
    { intros k Hk. eapply Forall_impl; [exact Hk|].
      intros [a b]. simpl. intros (Ha & Hb & Hm).
      split_and!; [lia..|].
      replace (a - pos)%nat with (S (a - S pos)) by lia. done. }
    assert (∀ k p, (S pos + k ≤ p)%nat →
      (match_at (drop (p - S pos) s) = None
       ∨ match_at (drop (p - S pos) s) = Some 0%nat) →
      match_at (drop (p - pos) (c :: s)) = None
      ∨ match_at (drop (p - pos) (c :: s)) = Some 0%nat) as Hdrop.
    { intros k p Hp. replace (p - pos)%nat with (S (p - S pos)) by lia. done. }
    cbn [finditer_from]. destruct skip as [|k].
    + destruct (match_at (c :: s)) as [[|n]|] eqn:Hm.
      * destruct (IH (S pos) 0%nat) as (Hch & Hall & Hnone).
        split_and!; [by eapply chained_weaken; [|done]; lia | by apply Hshift |].
        intros p Hp Hlt Hcov. destruct (decide (p = pos)) as [->|Hne].
        -- rewrite Nat.sub_diag. simpl. by right.
        -- apply (Hdrop 0%nat); [lia|]. apply Hnone; [lia | simpl in Hlt; lia | done].
      * destruct (IH (S pos) n) as (Hch & Hall & Hnone).
        split_and!.
        -- simpl. split_and!; [lia..|].
           by replace (pos + S n)%nat with (S pos + n)%nat by lia.
        -- constructor; [|by apply Hshift]. simpl. split_and!; [lia| |].
           ++ apply match_fits in Hm. simpl in Hm. lia.
           ++ rewrite Nat.sub_diag. simpl.
              by replace (pos + S n - pos)%nat with (S n) by lia.
        -- intros p Hp Hlt Hcov.
           assert (pos + S n ≤ p)%nat as Hpast.
           { destruct (decide (pos + S n ≤ p)%nat); [done|]. exfalso.
             apply Hcov. left. simpl. lia. }
           apply (Hdrop n); [lia|]. apply Hnone; [lia | simpl in Hlt; lia |].
           intros Hc. apply Hcov. by right.
      * destruct (IH (S pos) 0%nat) as (Hch & Hall & Hnone).
        split_and!; [by eapply chained_weaken; [|done]; lia | by apply Hshift |].
        intros p Hp Hlt Hcov. destruct (decide (p = pos)) as [->|Hne].
        -- rewrite Nat.sub_diag. simpl. by left.
        -- apply (Hdrop 0%nat); [lia|]. apply Hnone; [lia | simpl in Hlt; lia | done].
    + destruct (IH (S pos) k) as (Hch & Hall & Hnone).
      split_and!.
      * by replace (pos + S k)%nat with (S pos + k)%nat by lia.
      * by apply Hshift.
      * intros p Hp Hlt Hcov. apply (Hdrop k); [lia|].
        apply Hnone; [lia | simpl in Hlt; lia | done].
Qed.

(** [re.finditer]: the spans reported follow one another without
    overlap, each is a match of the pattern, within the text; and no
    position outside them starts a match. *)
Lemma finditer_spec s :
  let spans := finditer match_at s in
  chained 0 spans
  ∧ Forall (λ ab, (ab.2 ≤ length s)%nat
                  ∧ match_at (drop ab.1 s) = Some (ab.2 - ab.1)%nat) spans
  ∧ ∀ p, (p < length s)%nat → ¬ covered p spans →
         match_at (drop p s) = None ∨ match_at (drop p s) = Some 0%nat.
Proof.
  cbv zeta. unfold finditer.
  destruct (finditer_from_spec s 0 0) as (Hch & Hall & Hnone).
  split_and!; [done| |].
  - eapply Forall_impl; [done|]. intros [a b]. simpl.
    rewrite Nat.sub_0_r. by intros (_ & ? & ?).
  - intros p Hlt Hcov. specialize (Hnone p). rewrite Nat.sub_0_r in Hnone.
    apply Hnone; [lia | simpl; lia | done].
Qed.

End ScanFacts.

Lemma span_until_spec stop s :
  let '(pre, rest) := span_until stop s in
  s = pre ++ rest ∧ (stop ∉ pre) ∧ (rest = [] ∨ ∃ rest', rest = stop :: rest').
Proof.
  induction s as [|c s IH]; simpl.
  - split_and!; [done | apply not_elem_of_nil | by left].
  - destruct (N.eqb_spec c stop) as [->|Hne].
    + split_and!; [done | apply not_elem_of_nil | right; by eexists].
    + destruct (span_until stop s) as [pre rest].
      destruct IH as (-> & Hpre & Hrest). split_and!; [done| |done].
      apply not_elem_of_cons. by split.
Qed.

Lemma span_until_app stop pre rest :
  stop ∉ pre → span_until stop (pre ++ stop :: rest) = (pre, stop :: rest).
Proof.
  induction pre as [|c pre IH]; intros Hpre; simpl.
  - by rewrite N.eqb_refl.
  - apply not_elem_of_cons in Hpre as [Hc Hpre].
    destruct (N.eqb_spec c stop) as [->|_]; [done|]. by rewrite IH.
Qed.

Lemma strip_prefix_spec lit s rest :
  strip_prefix lit s = Some rest ↔ s = lit ++ rest.
Proof.
  revert s. induction lit as [|a lit IH]; intros s; simpl.
  - split; [by intros [= ->] | by intros ->].
  - destruct s as [|c s]; [done|].
    destruct (N.eqb_spec a c) as [->|Hne].
    + rewrite IH. split; [by intros -> | by intros [= ->]].
    + split; [done | by intros [= ? ?]].
Qed.

Lemma slice_take_drop s a b :
  (a ≤ b)%nat → slice s a b = take (b - a) (drop a s).
Proof.
  intros Hab. unfold slice. rewrite take_drop_commute.
  by replace (a + (b - a))%nat with b by lia.
Qed.

(** The marker of v_embed.py matches exactly where the text continues
    with it. *)
Lemma vembed_pattern_spec u n :
  VEmbedBuilder.image_pattern u = Some n
  ↔ n = length VEmbedBuilder.marker ∧ take n u = VEmbedBuilder.marker.
Proof.
  unfold VEmbedBuilder.image_pattern.
  destruct (strip_prefix VEmbedBuilder.marker u) as [rest|] eqn:Hpre.
  - apply strip_prefix_spec in Hpre as ->. split.
    + intros [= <-]. split; [done|].
      exact (take_app_length VEmbedBuilder.marker rest).
    + by intros [-> _].
  - split; [done|]. intros [-> Htake]. exfalso.
    assert (strip_prefix VEmbedBuilder.marker u
            = Some (drop (length VEmbedBuilder.marker) u)) as H; [|congruence].
    apply strip_prefix_spec.
    rewrite <- (take_drop (length VEmbedBuilder.marker) u) at 1.
    by rewrite Htake.
Qed.

(** The image reference of step2.py: what a match is made of. *)
Lemma step2_pattern_spec u n :
  Step2Builder.image_pattern u = Some n
  ↔ ∃ alt url rest,
      u = [33; 91]%N ++ alt ++ [93; 40]%N ++ url ++ 41%N :: rest
      ∧ (93%N ∉ alt) ∧ (41%N ∉ url) ∧ url ≠ []
      ∧ n = (length alt + length url + 5)%nat.
Proof.
  split.
  - unfold Step2Builder.image_pattern.
    destruct u as [|c0 u]; [done|]. split_char c0.
    destruct u as [|c1 s1]; [done|]. split_char c1.
    pose proof (span_until_spec 93 s1) as Halt.
    destruct (span_until 93 s1) as [alt s2]. destruct Halt as (-> & Halt & _).
    destruct s2 as [|d0 s2]; [done|]. split_char d0.
    destruct s2 as [|d1 s3]; [done|]. split_char d1.
    pose proof (span_until_spec 41 s3) as Hurl.
    destruct (span_until 41 s3) as [url s4]. destruct Hurl as (-> & Hurl & _).
    destruct url as [|e url]; [done|].
    destruct s4 as [|f s5]; [done|]. split_char f.
    intros [= <-]. by exists alt, (e :: url), s5.
  - intros (alt & url & rest & -> & Halt & Hurl & Hne & ->).
    unfold Step2Builder.image_pattern. simpl.
    rewrite (span_until_app 93 alt _ Halt).
    change (url ++ 41%N :: rest) with (url ++ 41%N :: rest).
    rewrite (span_until_app 41 url _ Hurl).
    by destruct url.
Qed.

Lemma vembed_pattern_fits u n :
  VEmbedBuilder.image_pattern u = Some n → (n ≤ length u)%nat.
Proof.
  intros [-> Htake]%vembed_pattern_spec.
  apply (f_equal length) in Htake. rewrite length_take in Htake. lia.
Qed.

Lemma step2_pattern_fits u n :
  Step2Builder.image_pattern u = Some n → (n ≤ length u)%nat.
Proof.
  intros (alt & url & rest & -> & _ & _ & _ & ->)%step2_pattern_spec.
  repeat (rewrite ?length_app, ?length_cons; simpl length). lia.
Qed.

(** X5: the markers of a document, as both scripts find them: the spans
    follow one another without overlap, each lies within the text and
    holds a marker (the comment of v_embed.py; in step2.py an exclamation
    mark, a bracketed text free of closing brackets, and a parenthesised
    target, not empty and free of closing parentheses); and no position
    outside the spans starts a marker. *)
Theorem markers_found (md : str) :
  let spansv := finditer VEmbedBuilder.image_pattern md in
  let spans2 := finditer Step2Builder.image_pattern md in
  (ScanSpec.chained 0 spansv
   ∧ Forall (λ ab, (ab.2 ≤ length md)%nat
                   ∧ slice md ab.1 ab.2 = VEmbedBuilder.marker) spansv
   ∧ ∀ p, ¬ ScanSpec.covered p spansv →
          take (length VEmbedBuilder.marker) (drop p md) ≠ VEmbedBuilder.marker)
  ∧ (ScanSpec.chained 0 spans2
     ∧ Forall (λ ab, (ab.2 ≤ length md)%nat
                     ∧ ∃ alt url,
                         slice md ab.1 ab.2
                         = [33; 91]%N ++ alt ++ [93; 40]%N ++ url ++ [41%N]
                         ∧ (93%N ∉ alt) ∧ (41%N ∉ url) ∧ url ≠ []) spans2
     ∧ ∀ p, ¬ ScanSpec.covered p spans2 →
            ¬ ∃ alt url rest,
                drop p md
                = [33; 91]%N ++ alt ++ [93; 40]%N ++ url ++ 41%N :: rest
                ∧ (93%N ∉ alt) ∧ (41%N ∉ url) ∧ url ≠ []).
Proof.
  cbv zeta. split.
  - destruct (finditer_spec _ vembed_pattern_fits md) as (Hch & Hall & Hnone).
    split_and!; [done| |].
    + eapply Forall_impl; [done|]. intros [a b]. simpl. intros [Hb Hm].
      split; [done|]. apply vembed_pattern_spec in Hm as [Hn Htake].
      rewrite slice_take_drop; [done|]. change (length VEmbedBuilder.marker) with 14%nat in Hn. lia.
    + intros p Hcov Htake.
      assert (VEmbedBuilder.image_pattern (drop p md)
              = Some (length VEmbedBuilder.marker)) as Hm
        by (by apply vembed_pattern_spec).
      destruct (decide (p < length md)%nat) as [Hlt|Hge].
      * destruct (Hnone p Hlt Hcov) as [H|H]; rewrite H in Hm; done.
      * rewrite drop_ge in Htake by lia. done.
  - destruct (finditer_spec _ step2_pattern_fits md) as (Hch & Hall & Hnone).
    split_and!; [done| |].
    + eapply Forall_impl; [done|]. intros [a b]. simpl. intros [Hb Hm].
      split; [done|].
      apply step2_pattern_spec in Hm
        as (alt & url & rest & Hdrop & Halt & Hurl & Hne & Hn).
      exists alt, url. split_and!; try done.
      rewrite slice_take_drop by lia. rewrite Hdrop, Hn.
      replace ([33%N; 91%N] ++ alt ++ [93%N; 40%N] ++ url ++ 41%N :: rest)
        with (([33%N; 91%N] ++ alt ++ [93%N; 40%N] ++ url ++ [41%N]) ++ rest)
        by (by rewrite <- !app_assoc).
      apply take_app_length'.
      repeat (rewrite ?length_app, ?length_cons; simpl length). lia.
    + intros p Hcov (alt & url & rest & Hdrop & Halt & Hurl & Hne).
      assert (Step2Builder.image_pattern (drop p md)
              = Some (length alt + length url + 5)%nat) as Hm.
      { apply step2_pattern_spec. by exists alt, url, rest. }
      destruct (decide (p < length md)%nat) as [Hlt|Hge].
      * destruct (Hnone p Hlt Hcov) as [H|H]; rewrite H in Hm; [done|].
        injection Hm. lia.
      * rewrite drop_ge in Hdrop by lia. done.
Qed.

(** ** The segments of a sequence *)

Lemma nonspace_app s1 s2 : nonspace (s1 ++ s2) = nonspace s1 ++ nonspace s2.
Proof. apply filter_app. Qed.

Lemma nonspace_lstrip s : nonspace (lstrip s) = nonspace s.
Proof.
  induction s as [|c s IH]; [done|]. simpl.
  destruct (is_space c) eqn:Hc; [|done]. rewrite IH. unfold nonspace.
  rewrite filter_cons_False; [done|]. by rewrite Hc.
Qed.

Lemma nonspace_strip s : nonspace (strip s) = nonspace s.
Proof.
  unfold strip, rstrip, nonspace.
  rewrite filter_reverse. fold (nonspace (lstrip (reverse (lstrip s)))).
  rewrite nonspace_lstrip. unfold nonspace. rewrite filter_reverse.
  rewrite reverse_involutive. apply nonspace_lstrip.
Qed.

Section SegmentFacts.
Import SequenceBuilder SequenceSpec ScanSpec.

Variable read_b64 : path → option str.
Variable caption_for : nat → str → str.
Variable md_content : str.
Variable image_files : list path.

Lemma gaps_stripped pos matches :
  Forall (λ t, strip t = t) (gaps md_content pos matches).
Proof.
  revert pos. induction matches as [|[a b] l IH]; intros pos; simpl.
  - apply Forall_singleton, strip_idemp.
  - constructor; [apply strip_idemp | apply IH].
Qed.

Lemma gaps_raw pos matches :
  gaps md_content pos matches = strip <$> raw_gaps md_content pos matches.
Proof.
  revert pos. induction matches as [|[a b] l IH]; intros pos; simpl; [done|].
  by rewrite IH.
Qed.

Lemma interleave_length k pos matches :
  (length (interleave read_b64 caption_for md_content image_files k pos matches)
   ≤ 2 * length matches)%nat.
Proof.
  revert k pos. induction matches as [|[a b] l IH]; intros k pos; simpl; [done|].
  rewrite !length_app. specialize (IH (S k) b).
  assert (length (text_part md_content pos a) ≤ 1)%nat
    by (unfold text_part; destruct (strip _); simpl; lia).
  assert (length (image_part read_b64 caption_for image_files k) ≤ 1)%nat.
  { unfold image_part. destruct (image_files !! k) as [f|]; [|simpl; lia].
    destruct (read_b64 f); simpl; lia. }
  lia.
Qed.

Lemma concat_filter_nonempty (l : list str) :
  concat (filter (λ t, t ≠ []) l) = concat l.
Proof.
  induction l as [|t l IH]; [done|].
  destruct t as [|c t].
  - rewrite filter_cons_False by (by intros ?). by simpl.
  - rewrite filter_cons_True by done. simpl. by rewrite IH.
Qed.

Lemma nonspace_concat_strip (l : list str) :
  nonspace (concat (strip <$> l)) = nonspace (concat l).
Proof.
  induction l as [|t l IH]; [done|]. rewrite fmap_cons. simpl concat.
  by rewrite !nonspace_app, nonspace_strip, IH.
Qed.

Lemma drop_split (lo hi : nat) :
  (lo ≤ hi)%nat → (hi ≤ length md_content)%nat →
  drop lo md_content = slice md_content lo hi ++ drop hi md_content.
Proof.
  intros Hle Hhi. unfold slice.
  rewrite <- (take_drop hi md_content) at 1.
  apply drop_app_le. rewrite length_take. lia.
Qed.

(** The stretches outside the spans, with the spans between them, make
    up the text from [pos] on. *)
Lemma reassemble_drop pos spans :
  chained pos spans →
  Forall (λ ab, (ab.2 ≤ length md_content)%nat) spans →
  (pos ≤ length md_content)%nat →
  reassemble md_content pos spans = drop pos md_content.
Proof.
  revert pos. induction spans as [|[a b] l IH]; intros pos Hch Hall Hpos.
  - simpl. unfold slice. by rewrite take_ge by lia.
  - simpl in Hch. destruct Hch as (Ha & Hab & Hch).
    apply Forall_cons in Hall as [Hb Hall]. simpl in Hb.
    simpl. rewrite (IH b Hch Hall Hb).
    rewrite (drop_split pos a) by lia. f_equal.
    symmetry. apply drop_split; lia.
Qed.

Lemma images_of_interleave_length k pos matches :
  (length (images_of
     (interleave read_b64 caption_for md_content image_files k pos matches))
   ≤ length matches `min` (length image_files - k))%nat.
Proof.
  revert k pos. induction matches as [|[a b] l IH]; intros k pos;
    cbn [interleave length]; [simpl; lia|].
  rewrite !images_of_app, images_of_text_part, !length_app.
  specialize (IH (S k) b). unfold image_part.
  destruct (image_files !! k) as [f|] eqn:Hf.
  - apply lookup_lt_Some in Hf.
    destruct (read_b64 f);
      [change (length (images_of [ImageSeg ?[c] ?[n] ?[cap]])) with 1%nat
      |change (length (images_of [])) with 0%nat];
      rewrite length_nil; lia.
  - change (length (images_of [])) with 0%nat. rewrite length_nil. lia.
Qed.

Lemma build_content_nonspace matches :
  nonspace (concat (texts_of
    (build_content read_b64 caption_for md_content matches image_files)))
  = nonspace (concat (raw_gaps md_content 0 matches)).
Proof.
  rewrite build_content_texts. destruct matches as [|m l].
  - simpl. unfold slice. by rewrite take_ge, drop_0 by lia.
  - by rewrite concat_filter_nonempty, gaps_raw, nonspace_concat_strip.
Qed.

End SegmentFacts.

(** X6: the segments of a sequence, in both scripts. Without a marker
    the sequence is the whole text as one Text segment, unstripped and
    possibly empty. With markers every Text segment is stripped and not
    empty, there is at most one more Text segment than markers, at most
    one Image segment per marker and per image file, and so at most
    twice as many segments as markers plus one. *)
Theorem sequence_segments (read_b64 : path → option str)
    (caption_for : nat → str → str) (md_content : str)
    (matches : list (nat * nat)) (image_files : list path) :
  let out := SequenceBuilder.build_content read_b64 caption_for md_content
               matches image_files in
  match matches with
  | [] => out = [TextSeg md_content]
  | _ :: _ => Forall (λ t, t ≠ [] ∧ strip t = t) (SequenceSpec.texts_of out)
  end
  ∧ (length (SequenceSpec.texts_of out) ≤ length matches + 1)%nat
  ∧ (length (SequenceSpec.images_of out)
     ≤ length matches `min` length image_files)%nat
  ∧ (length out ≤ 2 * length matches + 1)%nat.
Proof.
  cbv zeta.
  destruct matches as [|m l]; [simpl; split_and!; [done|lia..]|].
  assert (∀ pos ms, length (SequenceSpec.gaps md_content pos ms)
                    = S (length ms)) as Hgaps.
  { intros pos ms. revert pos.
    induction ms as [|[a b] ms IH]; intros pos; simpl; [done|].
    by rewrite IH. }
  split_and!.
  - rewrite build_content_texts.
    apply Forall_forall. intros t [Hne Hin]%list_elem_of_filter.
    split; [done|].
    pose proof (gaps_stripped md_content 0 (m :: l)) as Hall.
    rewrite Forall_forall in Hall. by apply Hall.
  - rewrite build_content_texts.
    etrans; [apply length_filter|]. rewrite Hgaps. lia.
  - rewrite build_content_interleave, images_of_app, images_of_text_part.
    rewrite app_nil_r.
    etrans; [apply images_of_interleave_length|]. lia.
  - rewrite build_content_interleave, length_app.
    pose proof (interleave_length read_b64 caption_for md_content
                  image_files 0 0 (m :: l)).
    assert (length (SequenceBuilder.text_part md_content
              (default 0%nat (snd <$> last (m :: l))) (length md_content))
            ≤ 1)%nat
      by (unfold SequenceBuilder.text_part; destruct (strip _); simpl; lia).
    lia.
Qed.

(** X7: no text of the document is lost between the markers, in either
    script: the spans of the markers and the stretches outside them make
    up the markdown text again, and the Text segments of the sequence
    hold, whitespace apart, exactly the characters of the stretches
    outside the markers, in order. *)
Theorem sequence_keeps_text (read_b64 : path → option str)
    (d2 : Step2Builder.pdf_data) (dv : VEmbedBuilder.pdf_data) :
  (let md := Step2Builder.md_content d2 in
   let spans := finditer Step2Builder.image_pattern md in
   reassemble md 0 spans = md
   ∧ nonspace (concat (SequenceSpec.texts_of
                 (multimodal_content (Step2Builder.build read_b64 d2))))
     = nonspace (concat (ScanSpec.raw_gaps md 0 spans)))
  ∧ (let md := VEmbedBuilder.md_content dv in
     let spans := finditer VEmbedBuilder.image_pattern md in
     reassemble md 0 spans = md
     ∧ nonspace (concat (SequenceSpec.texts_of
                   (multimodal_content (VEmbedBuilder.build read_b64 dv))))
       = nonspace (concat (ScanSpec.raw_gaps md 0 spans))).
Proof.
  cbv zeta. split; (split; [|apply build_content_nonspace]).
  - destruct (finditer_spec _ step2_pattern_fits (Step2Builder.md_content d2))
      as (Hch & Hall & _).
    rewrite reassemble_drop; [done|done| |lia].
    eapply Forall_impl; [done|]. by intros ? [? _].
  - destruct (finditer_spec _ vembed_pattern_fits (VEmbedBuilder.md_content dv))
      as (Hch & Hall & _).
    rewrite reassemble_drop; [done|done| |lia].
    eapply Forall_impl; [done|]. by intros ? [? _].
Qed.

(** ** The batch of embeddings *)

Section BatchFacts.
Import Embedder EmbedderSpec BatchSpec.

Variable num : Type.
Variable nadd : num → num → num.
Variable ndiv : num → nat → num.
Variable client : Type.
Variable embed : client → str → list str → response num * client.
Variable unicode_isalnum : char → bool.

Abbreviation calls' := (calls num client embed).

Lemma calls_refl w : calls' 0 0 w w.
Proof.
  exists []. rewrite app_nil_r. split_and!; [done|constructor|constructor|done..].
Qed.

Lemma calls_trans a b c d w w1 w2 :
  calls' a b w w1 → calls' c d w1 w2 → calls' (a + c) (b + d) w w2.
Proof.
  intros (log1 & Ht1 & Hs1 & Hf1 & ? & ?) (log2 & Ht2 & Hs2 & Hf2 & ? & ?).
  exists (log1 ++ log2). split_and!.
  - by rewrite Ht2, Ht1, <- app_assoc.
  - by eapply served_app.
  - by apply Forall_app.
  - rewrite length_app. lia.
  - rewrite length_app. lia.
Qed.

(** One chunk costs between one and three calls. *)
Lemma try_models_budget text w :
  calls' 1 3 w (try_models num client embed models_to_try text w).2.
Proof.
  pose proof (try_models_spec num client embed models_to_try text w) as H.
  destruct (try_models _ _ _ _ _ w) as [found w'].
  destruct H as (log & Htr & Hserved & Htexts & Hfound). simpl.
  exists log. split_and!; [done..| | |].
  - assert (Forall (λ e, ev_model e ∈ models_to_try) log) as Hmodels.
    { apply Forall_forall. intros e He.
      assert (ev_model e ∈ ev_model <$> log) as Hin
        by (by apply list_elem_of_fmap_2).
      destruct found as [[v m]|].
      - destruct Hfound as (log0 & e' & rest & -> & Hm & _ & <- & _).
        rewrite Hm. rewrite fmap_app in Hin. simpl in Hin.
        apply elem_of_app in Hin as [Hin|Hin%list_elem_of_singleton].
        + apply elem_of_app. by left.
        + apply elem_of_app. right. rewrite Hin. by left.
      - destruct Hfound as [<- _]. done. }
    apply Forall_forall. intros e He. split.
    + rewrite Forall_forall in Hmodels. by apply Hmodels.
    + rewrite Forall_forall in Htexts. by rewrite (Htexts e He).
  - destruct found as [[v m]|].
    + destruct Hfound as (log0 & e' & rest & -> & _).
      rewrite length_app. simpl. lia.
    + destruct Hfound as [Hm _]. apply (f_equal length) in Hm.
      rewrite length_fmap in Hm. rewrite Hm. simpl. lia.
  - destruct found as [[v m]|].
    + destruct Hfound as (log0 & e' & rest & -> & Hm & _).
      apply (f_equal length) in Hm.
      rewrite length_app, length_fmap in Hm. simpl in Hm.
      rewrite length_app. simpl. lia.
    + destruct Hfound as [Hm _]. apply (f_equal length) in Hm.
      rewrite length_fmap in Hm. rewrite Hm. simpl. lia.
Qed.

Lemma chunk_outcomes_budget text_chunks w :
  calls' (length text_chunks) (3 * length text_chunks) w
    (chunk_outcomes num client embed text_chunks w).2.
Proof.
  revert w. induction text_chunks as [|c l IH]; intros w.
  - apply calls_refl.
  - cbn [chunk_outcomes]. unfold mbind, State_bind, mret, State_ret.
    pose proof (try_models_budget c w) as H1.
    destruct (try_models _ _ _ _ _ w) as [r w1].
    pose proof (IH w1) as H2.
    destruct (chunk_outcomes num client embed l w1) as [rs w2].
    simpl in *.
    replace (S (length l)) with (1 + length l)%nat by lia.
    replace (S (length l + S (length l + S (length l + 0))))%nat
      with (3 + 3 * length l)%nat by lia.
    by eapply calls_trans.
Qed.

Lemma embed_sequence_entry seq w d :
  (embed_sequence num nadd ndiv client embed unicode_isalnum seq w).1 = Some d →
  entry_of num unicode_isalnum d seq.
Proof.
  rewrite embed_sequence_outcomes. cbv zeta. cbn [fst].
  unfold aggregate. destruct (collect _ _ _ _) as [|c cs]; [done|].
  destruct (np_mean _ _ _ _ _); [|done]. intros [= <-]. by repeat split.
Qed.

(** The batch: the entries are those of a sublist of the documents, and
    the calls are those of the chunks. *)
Lemma embed_sequences_spec sequences w :
  let run := embed_sequences num nadd ndiv client embed unicode_isalnum
               sequences w in
  (∃ kept, sublist kept sequences
           ∧ Forall2 (entry_of num unicode_isalnum) run.1 kept)
  ∧ calls' (length (chunks_of unicode_isalnum sequences))
      (3 * length (chunks_of unicode_isalnum sequences)) w run.2.
Proof.
  cbv zeta. revert w. induction sequences as [|seq l IH]; intros w.
  - simpl. split; [by exists []|apply calls_refl].
  - pose proof (embed_sequences_split num nadd ndiv client embed
                  unicode_isalnum [] seq l w) as Hsplit.
    cbv zeta in Hsplit. simpl in Hsplit. rewrite Hsplit. clear Hsplit.
    pose proof (embed_sequence_entry seq w) as Hentry.
    pose proof (embed_sequence_outcomes num nadd ndiv client embed
                  unicode_isalnum seq w) as Hone.
    cbv zeta in Hone.
    pose proof (chunk_outcomes_budget
                  (Chunker.chunk_text (combined_text unicode_isalnum seq) 1500)
                  w) as Hcalls.
    apply (f_equal snd) in Hone. cbn [snd] in Hone. rewrite <- Hone in Hcalls.
    clear Hone.
    destruct (embed_sequence _ _ _ _ _ _ seq w) as [r w1]. cbn [fst snd] in *.
    destruct (IH w1) as [(kept & Hsub & Hall) Hrest]. split.
    + destruct r as [d|]; simpl.
      * exists (seq :: kept). split; [by constructor|].
        constructor; [by apply Hentry|done].
      * exists kept. split; [by constructor|done].
    + unfold chunks_of. cbn [mbind list_bind]. fold (chunks_of unicode_isalnum l).
      rewrite length_app.
      replace (3 * _)%nat with
        (3 * length (Chunker.chunk_text (combined_text unicode_isalnum seq) 1500)
         + 3 * length (chunks_of unicode_isalnum l))%nat by lia.
      by eapply calls_trans.
Qed.

End BatchFacts.

Lemma chunks_of_length (unicode_isalnum : char → bool) sequences :
  (∀ c, is_terminator c = true → unicode_isalnum c = false) →
  length (BatchSpec.chunks_of unicode_isalnum sequences) = length sequences.
Proof.
  intros Halnum. induction sequences as [|seq l IH]; [done|].
  unfold BatchSpec.chunks_of. cbn [mbind list_bind].
  fold (BatchSpec.chunks_of unicode_isalnum l).
  rewrite length_app, IH.
  rewrite (chunk_text_plain_text _ 1500
             (combined_text_plain unicode_isalnum Halnum seq)).
  destruct (_ <=? _); [done|]. by destruct (strip _).
Qed.

(** X8: the entries that [create_voyage_multimodal_embeddings] returns
    are those of the documents that were not dropped, in the order of the
    documents: each entry carries the name and the segments of its
    document, the combined text that was chunked, and at least one
    embedded chunk; no document has two entries and none is made up. *)
Theorem embeddings_follow_sequences (num : Type) (nadd : num → num → num)
    (ndiv : num → nat → num) (client : Type)
    (embed : client → str → list str → Embedder.response num * client)
    (list_models : client → client) (unicode_isalnum : char → bool)
    (sequences : list sequence) (w : Embedder.world num client) :
  let run :=
    Embedder.create_voyage_multimodal_embeddings num nadd ndiv client embed
      list_models unicode_isalnum sequences w in
  ∃ kept,
    sublist kept sequences
    ∧ Forall2 (λ d seq,
        Embedder.doc_pdf_name d = seq_pdf_name seq
        ∧ Embedder.doc_content d = multimodal_content seq
        ∧ Embedder.doc_text d = Embedder.combined_text unicode_isalnum seq
        ∧ Embedder.doc_chunks d ≠ []) run.1 kept.
Proof.
  cbv zeta. unfold Embedder.create_voyage_multimodal_embeddings.
  destruct (embed_sequences_spec num nadd ndiv client embed unicode_isalnum
              sequences
              (Embedder.World (list_models (Embedder.service w))
                 (Embedder.trace w))) as [(kept & Hsub & Hall) _].
  by exists kept.
Qed.

(** X9: what a batch costs. Every call that
    [create_voyage_multimodal_embeddings] makes on [embed] is for one of
    the three models and sends one text; and since every document is one
    chunk, a batch of n documents makes at least n and at most 3n calls. *)
Theorem embedding_call_budget (num : Type) (nadd : num → num → num)
    (ndiv : num → nat → num) (client : Type)
    (embed : client → str → list str → Embedder.response num * client)
    (list_models : client → client) (unicode_isalnum : char → bool)
    (sequences : list sequence) (w : Embedder.world num client) :
  (∀ c, is_terminator c = true → unicode_isalnum c = false) →
  let run :=
    Embedder.create_voyage_multimodal_embeddings num nadd ndiv client embed
      list_models unicode_isalnum sequences w in
  ∃ log,
    Embedder.trace run.2 = Embedder.trace w ++ log
    ∧ EmbedderSpec.served num client embed
        (list_models (Embedder.service w)) log (Embedder.service run.2)
    ∧ Forall (λ e, Embedder.ev_model e ∈ Embedder.models_to_try
                   ∧ length (Embedder.ev_texts e) = 1%nat) log
    ∧ (length sequences ≤ length log)%nat
    ∧ (length log ≤ 3 * length sequences)%nat.
Proof.
  intros Halnum. cbv zeta.
  unfold Embedder.create_voyage_multimodal_embeddings.
  destruct (embed_sequences_spec num nadd ndiv client embed unicode_isalnum
              sequences
              (Embedder.World (list_models (Embedder.service w))
                 (Embedder.trace w))) as [_ Hcalls].
  rewrite (chunks_of_length unicode_isalnum sequences Halnum) in Hcalls.
  exact Hcalls.
Qed.

Lemma embedding_call_budget_witness :
  ∃ log,
    Embedder.trace
      (Embedder.create_voyage_multimodal_embeddings Z Z.add Samples.zdiv nat
         Samples.second_model_only (λ c, c) ascii_isalnum
         [Samples.hello; Samples.hello] Samples.start).2
    = Embedder.trace Samples.start ++ log
    ∧ (2 ≤ length log)%nat ∧ (length log ≤ 6)%nat.
Proof.
  destruct (embedding_call_budget Z Z.add Samples.zdiv nat
              Samples.second_model_only (λ c, c) ascii_isalnum
              [Samples.hello; Samples.hello] Samples.start)
    as (log & Htrace & _ & _ & Hlo & Hhi).
  - intros c Hterm. unfold is_terminator in Hterm.
    repeat (apply orb_prop in Hterm as [Hterm|Hterm]);
      apply N.eqb_eq in Hterm; by subst c.
  - exists log. split_and!; done.
Defined.

(** ** The calls of the workflow *)

Section GraphFacts.
Import Workflow EffectSpec.

Variable str_lower : str → str.
Variable r : retriever.

Lemma retriever_calls_app l1 l2 :
  retriever_calls (l1 ++ l2) = retriever_calls l1 ++ retriever_calls l2.
Proof. apply omap_app. Qed.

Lemma chain_calls_app l1 l2 :
  chain_calls (l1 ++ l2) = chain_calls l1 ++ chain_calls l2.
Proof. apply omap_app. Qed.

Lemma prompts_app l1 l2 : prompts (l1 ++ l2) = (prompts l1 + prompts l2)%nat.
Proof. unfold prompts. by rewrite omap_app, length_app. Qed.

(** The graph, case by case. *)
Lemma rag_app_invoke_cases t state :
  rag_app_invoke r t state
  = let q := question state in
    match retriever_invoke t r q with
    | inl e => ([Say MsgSearching; CallRetriever r q], inl e)
    | inr docs =>
        let context := join [10; 10]%N (page_content <$> docs) in
        match chain_invoke t context q with
        | inl e =>
            ([Say MsgSearching; CallRetriever r q;
              Say (MsgRetrieved (length docs));
              Say MsgGenerating; CallChain context q], inl e)
        | inr a =>
            ([Say MsgSearching; CallRetriever r q;
              Say (MsgRetrieved (length docs));
              Say MsgGenerating; CallChain context q; Say MsgGenerated],
             inr (MkRAGState q docs a))
        end
    end.
Proof.
  cbv zeta. unfold rag_app_invoke. rewrite retrieve_documents_effects.
  destruct (retriever_invoke t r (question state)) as [e|docs]; [done|].
  unfold mbind, Run_bind, generate_answer, say, perform, mret, Run_ret.
  cbn [question documents].
  by destruct (chain_invoke t _ (question state)) as [e|a].
Qed.

(** The calls of one run of the graph. *)
Lemma rag_app_invoke_calls t state :
  let run := rag_app_invoke r t state in
  prompts run.1 = 0%nat
  ∧ retriever_calls run.1 = [(r, question state)]
  ∧ (length (chain_calls run.1) ≤ 1)%nat
  ∧ Forall (λ cq, cq.2 = question state) (chain_calls run.1).
Proof.
  cbv zeta. rewrite rag_app_invoke_cases. cbv zeta.
  destruct (retriever_invoke t r (question state)) as [e|docs].
  - simpl. split_and!; [done|done|lia|constructor].
  - destruct (chain_invoke t _ (question state)) as [e|a]; simpl;
      (split_and!; [done|done|lia|by repeat constructor]).
Qed.

Lemma pass_ok_quiet log :
  log = [Prompt] ∨ (∃ m, log = [Prompt; Say m]) →
  LoopSpec.pass_ok str_lower r log.
Proof.
  intros [->|[m ->]]; unfold LoopSpec.pass_ok; simpl;
    (split_and!; [done|lia|lia|constructor|constructor]).
Qed.

Lemma pass_ok_asked t q tail :
  q ≠ [] → strip q = q → str_lower q ∉ termination_tokens →
  prompts tail = 0%nat → retriever_calls tail = [] → chain_calls tail = [] →
  LoopSpec.pass_ok str_lower r
    (Prompt :: Say MsgAnswering
       :: (rag_app_invoke r t (MkRAGState q [] [])).1 ++ tail).
Proof.
  intros Hq Hs Htok Hp' Hr' Hc'.
  destruct (rag_app_invoke_calls t (MkRAGState q [] [])) as (Hp & Hr & Hc & Hcq).
  cbn [question] in Hr, Hcq. unfold LoopSpec.pass_ok.
  change (Prompt :: Say MsgAnswering :: ?l)
    with ([Prompt; Say MsgAnswering] ++ l).
  rewrite !prompts_app, !retriever_calls_app, !chain_calls_app.
  rewrite Hp, Hr, Hp', Hr', Hc'. simpl. rewrite app_nil_r.
  split_and!; [done|lia|lia| |].
  - by constructor; [|constructor].
  - eapply Forall_impl; [exact Hcq|]. intros cq ->. by left.
Qed.

(** The calls of one pass of the loop. *)
Lemma iteration_calls t :
  LoopSpec.pass_ok str_lower r (iteration str_lower r t).1.
Proof.
  rewrite iteration_of_try_block.
  destruct (stdin t) as [e|line] eqn:Hin.
  { unfold try_block, perform. rewrite Hin. unfold mbind, Run_bind.
    destruct e as [|msg|]; apply pass_ok_quiet; simpl; eauto. }
  destruct (decide (str_lower (strip line) ∈ termination_tokens)) as [Htok|Htok].
  { pose proof (iteration_token str_lower r t line Hin Htok) as Hit.
    rewrite iteration_of_try_block in Hit. rewrite Hit.
    apply pass_ok_quiet; simpl; eauto. }
  destruct (decide (strip line = [])) as [Hblank|Hq].
  { pose proof (iteration_blank str_lower r t line Hin Htok Hblank) as Hit.
    rewrite iteration_of_try_block in Hit. rewrite Hit.
    apply pass_ok_quiet; simpl; eauto. }
  rewrite (try_block_question str_lower r t line Hin Htok Hq).
  pose proof (pass_ok_asked t (strip line)) as Hasked.
  specialize (λ tail, Hasked tail Hq (strip_idemp line) Htok).
  destruct (rag_app_invoke r t _) as [log [e|result]] eqn:Hrun;
    cbn [fst] in *.
  - destruct e as [|msg|]; cbn [fst].
    + rewrite <- 2!app_comm_cons. by apply Hasked.
    + rewrite <- 2!app_comm_cons. by apply Hasked.
    + specialize (Hasked []). rewrite app_nil_r in Hasked. by apply Hasked.
  - by apply Hasked.
Qed.

End GraphFacts.

(** X10: one run of the retrieve-generate graph. The retriever is called
    once, with the question of the state given (its documents and its
    answer are not read). When the retriever raises, the chain is not
    called and the exception leaves the graph. Otherwise the chain is
    called once, with the same question and with the contents of the
    documents joined by blank lines as context, also when no document
    came back; its answer is returned with the question and the
    documents, and its exception leaves the graph. *)
Theorem graph_calls (r : Workflow.retriever) (t : Workflow.turn)
    (state : Workflow.RAGState) :
  let run := Workflow.rag_app_invoke r t state in
  let q := Workflow.question state in
  EffectSpec.retriever_calls run.1 = [(r, q)]
  ∧ match Workflow.retriever_invoke t r q with
    | inl e => EffectSpec.chain_calls run.1 = [] ∧ run.2 = inl e
    | inr docs =>
        let context := join [10; 10]%N (Workflow.page_content <$> docs) in
        EffectSpec.chain_calls run.1 = [(context, q)]
        ∧ run.2 = match Workflow.chain_invoke t context q with
                  | inl e => inl e
                  | inr a => inr (Workflow.MkRAGState q docs a)
                  end
    end.
Proof.
  cbv zeta. rewrite rag_app_invoke_cases. cbv zeta.
  destruct (Workflow.retriever_invoke t r (Workflow.question state))
    as [e|docs]; [done|].
  by destruct (Workflow.chain_invoke t _ (Workflow.question state)) as [e|a].
Qed.

(** X11: what the question loop asks of its collaborators, whatever the
    session: it prompts at most once per turn, calls the retriever at
    most once per prompt and the chain at most once per call of the
    retriever; the retriever is always the one given and is only asked
    stripped questions that are neither empty nor a termination token;
    and the chain is only asked questions the retriever was asked. *)
Theorem loop_calls (str_lower : str → str) (r : Workflow.retriever)
    (script : list Workflow.turn) :
  let log := (Workflow.interactive_qa str_lower r script).1 in
  (EffectSpec.prompts log ≤ length script)%nat
  ∧ (length (EffectSpec.retriever_calls log) ≤ EffectSpec.prompts log)%nat
  ∧ (length (EffectSpec.chain_calls log)
     ≤ length (EffectSpec.retriever_calls log))%nat
  ∧ Forall (λ rq, rq.1 = r ∧ rq.2 ≠ [] ∧ strip rq.2 = rq.2
                  ∧ (str_lower rq.2 ∉ Workflow.termination_tokens))
      (EffectSpec.retriever_calls log)
  ∧ Forall (λ cq, cq.2 ∈ (EffectSpec.retriever_calls log).*2)
      (EffectSpec.chain_calls log).
Proof.
  cbv zeta. induction script as [|t rest IH].
  - simpl. split_and!; [done|done|done|constructor|constructor].
  - cbn [Workflow.interactive_qa].
    pose proof (iteration_calls str_lower r t) as (Hp & Hr & Hc & Hrq & Hcq).
    destruct (Workflow.iteration str_lower r t) as [log c]. cbn [fst] in *.
    assert ((EffectSpec.prompts log ≤ length (t :: rest))%nat
            ∧ (length (EffectSpec.retriever_calls log)
               ≤ EffectSpec.prompts log)%nat
            ∧ (length (EffectSpec.chain_calls log)
               ≤ length (EffectSpec.retriever_calls log))%nat
            ∧ Forall (λ rq, rq.1 = r ∧ rq.2 ≠ [] ∧ strip rq.2 = rq.2
                            ∧ (str_lower rq.2 ∉ Workflow.termination_tokens))
                (EffectSpec.retriever_calls log)
            ∧ Forall (λ cq, cq.2 ∈ (EffectSpec.retriever_calls log).*2)
                (EffectSpec.chain_calls log)) as Hone.
    { simpl. split_and!; [lia|lia|done..]. }
    destruct c as [| |e]; [|done..].
    destruct (Workflow.interactive_qa str_lower r rest) as [log' s].
    cbn [fst] in *. destruct IH as (Hp' & Hr' & Hc' & Hrq' & Hcq').
    rewrite prompts_app, retriever_calls_app, chain_calls_app, !length_app.
    simpl. split_and!; [lia|lia|lia| |].
    + by apply Forall_app.
    + rewrite fmap_app. apply Forall_app. split.
      * eapply Forall_impl; [exact Hcq|]. intros cq Hin.
        apply elem_of_app. by left.
      * eapply Forall_impl; [exact Hcq'|]. intros cq Hin.
        apply elem_of_app. by right.
Qed.

(** X12: the end of the input does not end the loop. When reading a line
    raises an [Exception] (as [input] does with [EOFError] once the
    input is closed), the pass reports it and the loop prompts again: a
    session in which every read fails so is still at the prompt after
    every turn, having called neither the retriever nor the chain. *)
Theorem loop_survives_end_of_input (str_lower : str → str)
    (r : Workflow.retriever) (script : list Workflow.turn) :
  Forall (λ t, ∃ msg, Workflow.stdin t = inl (Workflow.Exception msg)) script →
  let run := Workflow.interactive_qa str_lower r script in
  run.2 = Workflow.AtPrompt
  ∧ EffectSpec.prompts run.1 = length script
  ∧ EffectSpec.retriever_calls run.1 = []
  ∧ EffectSpec.chain_calls run.1 = [].
Proof.
  cbv zeta. induction 1 as [|t rest [msg Hin] _ IH]; [done|].
  cbn [Workflow.interactive_qa].
  assert (Workflow.iteration str_lower r t
          = ([Workflow.Prompt; Workflow.Say (Workflow.MsgError msg)],
             Workflow.Continue)) as ->.
  { unfold Workflow.iteration, Workflow.try_block, Workflow.perform.
    rewrite Hin. unfold mbind, Workflow.Run_bind. done. }
  destruct (Workflow.interactive_qa str_lower r rest) as [log s].
  cbn [fst snd] in *. destruct IH as (-> & Hp & Hr & Hc).
  rewrite prompts_app, retriever_calls_app, chain_calls_app, Hp, Hr, Hc.
  done.
Qed.

Lemma loop_survives_end_of_input_witness :
  (Workflow.interactive_qa ascii_lower
     (Workflow.create_retriever_from_existing_data (py "docs"))
     [Samples.echo (inl (Workflow.Exception (py "EOF when reading a line")));
      Samples.echo (inl (Workflow.Exception (py "EOF when reading a line")))]).2
  = Workflow.AtPrompt.
Proof.
  refine (proj1 (loop_survives_end_of_input ascii_lower
    (Workflow.create_retriever_from_existing_data (py "docs"))
    [Samples.echo (inl (Workflow.Exception (py "EOF when reading a line")));
     Samples.echo (inl (Workflow.Exception (py "EOF when reading a line")))]
    _)).
  repeat constructor; by eexists.
Defined.

(** ** Captions by image name (v_embed.py) *)

Lemma caption_map_lookup (captions : list VEmbedBuilder.caption_entry)
    (m : gmap (list N) VEmbedBuilder.caption_entry) (name : str) :
  fold_left (λ m c, <[VEmbedBuilder.image c := c]> m) captions m !! name
  = match last (filter (λ c, VEmbedBuilder.image c = name) captions) with
    | Some c => Some c
    | None => m !! name
    end.
Proof.
  revert m. induction captions as [|c l IH]; intros m; [done|].
  simpl. rewrite IH.
  destruct (decide (VEmbedBuilder.image c = name)) as [Heq|Hne].
  - rewrite filter_cons_True by done.
    destruct (filter _ l) as [|c' l'] eqn:Hf.
    + simpl. by rewrite <- Heq, lookup_insert_eq.
    + rewrite last_cons_cons.
      destruct (last (c' :: l')) eqn:Hl; [done|].
      by apply last_None in Hl.
  - rewrite filter_cons_False by done.
    destruct (last (filter _ l)); [done|].
    by rewrite lookup_insert_ne.
Qed.

(** X13: in v_embed.py the caption of an image is found by the name of
    its file, whatever the position of its marker: it is the caption of
    the last entry of the captions file that names the image, and the
    empty text when no entry names it or that entry has no caption. *)
Theorem caption_by_image_name (captions : list VEmbedBuilder.caption_entry)
    (i : nat) (image_name : str) :
  VEmbedBuilder.caption_for captions i image_name
  = match last (filter (λ c, VEmbedBuilder.image c = image_name) captions) with
    | Some c => default [] (VEmbedBuilder.caption c)
    | None => []
    end.
Proof.
  unfold VEmbedBuilder.caption_for, VEmbedBuilder.caption_map.
  rewrite caption_map_lookup.
  by destruct (last _).
Qed.

(** ** What is stored with a vector *)

Lemma bind_image_info content :
  content ≫= Index.step2_image_info
  = (λ x, Index.ImageInfo x.1.2 x.2 (Index.preview x.1.1))
    <$> SequenceSpec.images_of content.
Proof.
  induction content as [|item l IH]; [done|].
  cbn [mbind list_bind]. fold (l ≫= Index.step2_image_info). rewrite IH.
  by destruct item.
Qed.

Lemma segments_length content :
  length content
  = (length (SequenceSpec.texts_of content)
     + length (SequenceSpec.images_of content))%nat.
Proof.
  induction content as [|item l IH]; [done|].
  change (item :: l) with ([item] ++ l).
  rewrite texts_of_app, images_of_app, !length_app, IH.
  destruct item; simpl; [done | by rewrite Nat.add_succ_r].
Qed.

Lemma preview_length content : (length (Index.preview content) ≤ 103)%nat.
Proof.
  unfold Index.preview, len.
  destruct (Z.ltb_spec 100 (Z.of_nat (length content))).
  - rewrite length_app, length_take.
    change (length [46; 46; 46]%N) with 3%nat. lia.
  - lia.
Qed.

(** X14: the payload step2.py stores with a vector. The content count
    is the number of Text segments plus the number of Image segments,
    the image count is the number of Image segments and of entries of
    the image list, which name the images and their captions in the
    order of the document; and the stored image path is never a path:
    it is the data URL of the image cut after 100 characters and marked
    with three dots, so that of an image built by
    [create_multimodal_sequences] at most 78 characters of its data are
    kept. *)
Theorem step2_payload_counts (num : Type) (uuid4 : nat → str) (i : nat)
    (emb_data : Embedder.doc_embedding num) :
  let p := Index.point_payload (Index.step2_point num uuid4 i emb_data) in
  let content := Embedder.doc_content emb_data in
  let pictures := SequenceSpec.images_of content in
  Index.content_count p
  = (length (SequenceSpec.texts_of content) + length pictures)%nat
  ∧ Index.image_count p = Some (length pictures)
  ∧ (∃ infos,
       Index.images p = Some infos
       ∧ Index.info_image_name <$> infos = (λ x, x.1.2) <$> pictures
       ∧ Index.info_caption <$> infos = (λ x, x.2) <$> pictures
       ∧ Forall (λ info, (length (Index.info_image_path info) ≤ 103)%nat) infos
       ∧ Forall2 (λ info x,
           ∀ img_data, x.1.1 = SequenceBuilder.data_url_prefix ++ img_data →
             Index.info_image_path info
             = if 78 <? len img_data
               then SequenceBuilder.data_url_prefix ++ take 78 img_data
                      ++ [46; 46; 46]%N
               else x.1.1) infos pictures).
Proof.
  cbv zeta. unfold Index.step2_point. cbn [Index.point_payload
    Index.content_count Index.image_count Index.images].
  rewrite bind_image_info, length_fmap.
  split_and!; [apply segments_length|done|].
  eexists. split; [done|]. split_and!.
  - rewrite <- list_fmap_compose. by apply list_fmap_ext.
  - rewrite <- list_fmap_compose. by apply list_fmap_ext.
  - apply Forall_fmap, Forall_forall. intros x _. apply preview_length.
  - apply Forall2_fmap_l, Forall_Forall2_diag, Forall_forall.
    intros x _ img_data Hx. cbn [Index.info_image_path]. rewrite Hx.
    unfold Index.preview, len. rewrite length_app.
    change (length SequenceBuilder.data_url_prefix) with 22%nat.
    destruct (Z.ltb_spec 78 (Z.of_nat (length img_data)));
      destruct (Z.ltb_spec 100 (Z.of_nat (22 + length img_data))); try lia.
    + rewrite take_app_ge by (simpl; lia). simpl length.
      by rewrite <- app_assoc.
    + done.
Qed.

(** ** The run of step2.py *)

Section Step2MainFacts.
Import Step2Main Step2MainSpec.

Variable num : Type.
Variable client : Type.
Variable embed : client → str → list str → Embedder.response num * client.
Variable unicode_isalnum : char → bool.
Variable qclient : Type.
Variable qdrant : qclient → Index.qcall num → Index.qreply num * qclient.

Abbreviation search_each' :=
  (search_each num client embed unicode_isalnum qclient qdrant).

(** The test searches: at most one search of the index per query, each
    for three hits, and between no and three embedding calls per query. *)
Lemma search_each_calls collection_name queries vw qw :
  let run := search_each' collection_name queries vw qw in
  (∃ searches,
     Index.qtrace run.2 = Index.qtrace qw ++ searches
     ∧ Forall (is_test_search collection_name) searches
     ∧ (length searches ≤ length queries)%nat
     ∧ (run.1.1 = Index.Raised → searches ≠ []))
  ∧ BatchSpec.calls num client embed 0 (3 * length queries) vw run.1.2.
Proof.
  cbv zeta. revert vw qw. induction queries as [|query rest IH]; intros vw qw.
  - simpl. split; [|apply calls_refl].
    exists []. rewrite app_nil_r. by split_and!; [|constructor|..].
  - cbn [search_each].
    pose proof (search_similar_documents_steps num qclient qdrant client embed
                  unicode_isalnum collection_name query (Some 3%nat) vw qw)
      as Hsteps.
    cbv zeta in Hsteps. destruct Hsteps as [Hvw Hq].
    pose proof (try_models_budget num client embed
                  (preprocess_korean_text unicode_isalnum query) vw) as Hbudget.
    rewrite <- Hvw in Hbudget. clear Hvw.
    destruct (Embedder.try_models _ _ _ _ _ vw) as [[[v m]|] vw0];
      cbn [fst snd] in Hq;
      destruct (Index.search_similar_documents _ _ _ _ _ _ _ _ _ vw qw)
        as [[r vw1] qw1]; cbn [fst snd] in *.
    + destruct Hq as [Htrace Hr].
      assert (BatchSpec.calls num client embed 0 3 vw vw1) as Hone.
      { destruct Hbudget as (log & ? & ? & ? & ? & ?).
        exists log. split_and!; [done..|lia|done]. }
      destruct r as [|hits].
      * cbn [fst snd]. split.
        -- eexists. split; [exact Htrace|].
           split_and!; [by repeat constructor|simpl; lia|done].
        -- destruct Hone as (log & ? & ? & ? & ? & ?).
           exists log. split_and!; [done..|lia|simpl; lia].
      * destruct (IH vw1 qw1) as [(searches & Ht & Hall & Hlen & Hraised) Hcalls].
        split.
        -- eexists (_ :: searches). rewrite Ht, Htrace, <- app_assoc.
           split; [done|].
           split_and!; [by repeat constructor|simpl; lia|done].
        -- replace (3 * length (query :: rest))%nat
             with (3 + 3 * length rest)%nat by (simpl; lia).
           change 0%nat with (0 + 0)%nat. by eapply calls_trans.
    + destruct Hq as [-> ->].
      assert (BatchSpec.calls num client embed 0 3 vw vw1) as Hone.
      { destruct Hbudget as (log & ? & ? & ? & ? & ?).
        exists log. split_and!; [done..|lia|done]. }
      destruct (IH vw1 qw) as [(searches & Ht & Hall & Hlen & Hraised) Hcalls].
      split.
      * exists searches. split_and!; [done|done|simpl; lia|done].
      * replace (3 * length (query :: rest))%nat
          with (3 + 3 * length rest)%nat by (simpl; lia).
        change 0%nat with (0 + 0)%nat. by eapply calls_trans.
Qed.

End Step2MainFacts.

(** X15: how a run of step2.py uses the index. A run that stops for a
    missing key or for want of processed data calls no service; a run
    without any embedding leaves the index as it was; the test for an
    empty list of sequences never succeeds. In every other run the
    collection is deleted and created again with the length of the first
    embedding as its size, so that the default of 1536 is never used.
    When the creation raises, the run fails and nothing more is sent;
    otherwise all the points go to one upsert, and then come at most
    eight searches of that collection, each for three hits. *)
Theorem step2_main_index_use (num : Type) (nadd : num → num → num)
    (ndiv : num → nat → num) (client : Type)
    (embed : client → str → list str → Embedder.response num * client)
    (list_models : client → client) (unicode_isalnum : char → bool)
    (qclient : Type)
    (qdrant : qclient → Index.qcall num → Index.qreply num * qclient)
    (uuid4 : nat → str) (read_b64 : path → option str)
    (api_key : option str) (processed_data : list Step2Builder.pdf_data)
    (vw : Embedder.world num client) (qw : Index.qworld num qclient) :
  let run :=
    Step2Main.main num nadd ndiv client embed list_models unicode_isalnum
      qclient qdrant uuid4 read_b64 api_key processed_data vw qw in
  let embeddings :=
    (Embedder.create_voyage_multimodal_embeddings num nadd ndiv client embed
       list_models unicode_isalnum
       (Step2Builder.create_multimodal_sequences read_b64 processed_data)
       vw).1 in
  let docs := Step2Main.default_collection in
  match run.1.1 with
  | Step2Main.MissingApiKey | Step2Main.NoProcessedData =>
      run.1.2 = vw ∧ run.2 = qw
  | Step2Main.NoSequences => False
  | Step2Main.NoEmbeddings => embeddings = [] ∧ run.2 = qw
  | (Step2Main.Failed | Step2Main.Completed) as ending =>
      ∃ first others rest,
        embeddings = first :: others
        ∧ Index.qtrace run.2
          = Index.qtrace qw
            ++ Index.DeleteCollection docs
               :: Index.CreateCollection docs
                    (length (Embedder.doc_embedding_vector first))
               :: rest
        ∧ (rest = [] ∧ ending = Step2Main.Failed
           ∨ ∃ searches,
               rest = Index.Upsert docs
                        (imap (Index.step2_point num uuid4) (first :: others))
                      :: searches
               ∧ Forall (Step2MainSpec.is_test_search docs) searches
               ∧ (length searches ≤ 8)%nat)
  end.
Proof.
  cbv zeta. unfold Step2Main.main.
  destruct api_key as [[|k key]|]; [done| |done].
  destruct processed_data as [|d l]; [done|].
  cbn [Step2Builder.create_multimodal_sequences fmap list_fmap].
  set (sequences := Step2Builder.build read_b64 d
                      :: list_fmap _ _ (Step2Builder.build read_b64) l).
  destruct (Embedder.create_voyage_multimodal_embeddings _ _ _ _ _ _ _ _ vw)
    as [[|first others] vw1]; [done|].
  cbn [fst snd]. unfold Index.step2_save_to_qdrant.
  pose proof (reset_and_upsert_calls num qclient qdrant
                Step2Main.default_collection
                (Index.step2_vector_size num (first :: others))
                (imap (Index.step2_point num uuid4) (first :: others)) qw)
    as Hsave.
  cbv zeta in Hsave. cbn [Index.step2_vector_size] in *.
  destruct (qdrant (qdrant _ _).2 (Index.CreateCollection _ _)).1 eqn:Hcreated.
  - rewrite Hsave. cbn [fst snd].
    exists first, others, []. split_and!; [done|done|by left].
  - rewrite Hsave. clear Hsave.
    destruct (qdrant _ (Index.Upsert _ _)).1 eqn:Hupserted.
    + cbn [fst snd].
      exists first, others,
        [Index.Upsert Step2Main.default_collection
           (imap (Index.step2_point num uuid4) (first :: others))].
      split_and!; [done|done|]. right. exists [].
      split_and!; [done|constructor|simpl; lia].
    + unfold Step2Main.test_search_functionality.
      match goal with
      | |- context [Step2Main.search_each _ _ _ _ _ _ ?n ?qs ?v ?q] =>
          pose proof (search_each_calls num client embed unicode_isalnum
                        qclient qdrant n qs v q) as Hsearch
      end.
      destruct Hsearch
        as [(searches & Htrace & Hall & Hlen & _) _].
      cbv zeta in Htrace.
      destruct (Step2Main.search_each _ _ _ _ _ _ _ _ _ _) as [[r vw2] qw2].
      cbn [fst snd Index.qtrace] in Htrace.
      assert (∃ rest,
                Index.qtrace qw2
                = Index.qtrace qw
                  ++ Index.DeleteCollection Step2Main.default_collection
                     :: Index.CreateCollection Step2Main.default_collection
                          (length (Embedder.doc_embedding_vector first))
                     :: rest
                ∧ ∃ searches,
                    rest = Index.Upsert Step2Main.default_collection
                             (imap (Index.step2_point num uuid4)
                                (first :: others)) :: searches
                    ∧ Forall (Step2MainSpec.is_test_search
                                Step2Main.default_collection) searches
                    ∧ (length searches ≤ 8)%nat) as (rest & Hq & Hrest).
      { eexists. split; [by rewrite Htrace, <- app_assoc|].
        exists searches. by split_and!. }
      destruct r; cbn [fst snd]; exists first, others, rest;
        (split_and!; [done|done|by right]).
Qed.

(** ** The embeddings of v_embed.py *)

Lemma vembed_loop (num client : Type)
    (embed : client → list VEmbed.input_item → str → str
             → Embedder.response num * client)
    sequences acc w :
  let run := for_each (VEmbed.sequence_body num client embed) sequences acc w in
  ∃ responses,
    length responses = length sequences
    ∧ VEmbed.trace run.2
      = VEmbed.trace w
        ++ zip_with (λ seq r,
             VEmbed.CallEmbed (VEmbed.to_input <$> multimodal_content seq)
               VEmbed.voyage_multimodal_3 VEmbed.input_document r)
             sequences responses
    ∧ run.1
      = acc ++ omap (λ sr,
                 Index.VEmbedDoc (seq_pdf_name sr.1) (multimodal_content sr.1)
                 <$> Embedder.first_embedding sr.2)
               (zip sequences responses).
Proof.
  cbv zeta. revert acc w. induction sequences as [|seq l IH]; intros acc w.
  - exists []. simpl. by rewrite !app_nil_r.
  - destruct (embed (VEmbed.service w)
                (VEmbed.to_input <$> multimodal_content seq)
                VEmbed.voyage_multimodal_3 VEmbed.input_document)
      as [r c] eqn:Hcall.
    assert (for_each (VEmbed.sequence_body num client embed) (seq :: l) acc w
            = for_each (VEmbed.sequence_body num client embed) l
                match Embedder.first_embedding r with
                | Some embedding =>
                    acc ++ [Index.VEmbedDoc (seq_pdf_name seq)
                              (multimodal_content seq) embedding]
                | None => acc
                end
                (VEmbed.World c
                   (VEmbed.trace w
                    ++ [VEmbed.CallEmbed
                          (VEmbed.to_input <$> multimodal_content seq)
                          VEmbed.voyage_multimodal_3 VEmbed.input_document r]))) as ->.
    { rewrite for_each_cons. unfold VEmbed.sequence_body at 1.
      unfold mbind, State_bind, mret, State_ret, VEmbed.call_embed.
      by rewrite Hcall. }
    match goal with
    | |- context [for_each _ l ?a ?v] => destruct (IH a v) as (rs & Hlen & Ht & Hout)
    end.
    exists (r :: rs). split_and!.
    + simpl. by rewrite Hlen.
    + rewrite Ht. cbn [VEmbed.trace zip_with]. by rewrite <- app_assoc.
    + rewrite Hout. cbn [zip zip_with omap list_omap fst snd].
      destruct (Embedder.first_embedding r); simpl; by rewrite <- ?app_assoc.
Qed.

(** X16: in v_embed.py every document costs exactly one call of the
    embedding service, in the order of the documents, with no second
    attempt: the call sends the segments of the document one for one,
    texts and image data as they are, to the model
    voyage-multimodal-3 as a document; and the entries returned are those
    of the documents whose call gave a vector, in order, each with that
    vector. *)
Theorem vembed_one_call_per_document (num client : Type)
    (embed : client → list VEmbed.input_item → str → str
             → Embedder.response num * client)
    (sequences : list sequence) (w : VEmbed.world num client) :
  let run :=
    VEmbed.create_voyage_multimodal_embeddings num client embed sequences w in
  ∃ responses,
    length responses = length sequences
    ∧ VEmbed.trace run.2
      = VEmbed.trace w
        ++ zip_with (λ seq r,
             VEmbed.CallEmbed (VEmbed.to_input <$> multimodal_content seq)
               VEmbed.voyage_multimodal_3 VEmbed.input_document r)
             sequences responses
    ∧ run.1
      = omap (λ sr,
          Index.VEmbedDoc (seq_pdf_name sr.1) (multimodal_content sr.1)
          <$> Embedder.first_embedding sr.2)
          (zip sequences responses).
Proof.
  cbv zeta. unfold VEmbed.create_voyage_multimodal_embeddings.
  destruct (vembed_loop num client embed sequences [] w)
    as (responses & Hlen & Ht & Hout).
  by exists responses.
Qed.

(** X17: a search of v_embed.py embeds the query in one call, the text
    as it is given (it is not normalised), with the image when one is
    given, on the model voyage-multimodal-3 as a query. When the call
    gives no vector the search returns no hit and the index is not
    asked; otherwise the index is searched once, with that vector and
    the limit given, five by default, and a failure of that search is
    not caught. *)
Theorem vembed_search_steps (num client : Type)
    (embed : client → list VEmbed.input_item → str → str
             → Embedder.response num * client)
    (qclient : Type)
    (qdrant : qclient → Index.qcall num → Index.qreply num * qclient)
    (collection_name query_text : str) (query_image : option str)
    (limit : option nat)
    (vw : VEmbed.world num client) (qw : Index.qworld num qclient) :
  let run :=
    VEmbed.search_similar_documents num client embed qclient qdrant
      collection_name query_text query_image limit vw qw in
  ∃ response,
    VEmbed.trace run.1.2
    = VEmbed.trace vw
      ++ [VEmbed.CallEmbed
            (VEmbed.InText query_text
             :: match query_image with
                | Some (c :: image) => [VEmbed.InImage (c :: image)]
                | _ => []
                end)
            VEmbed.voyage_multimodal_3 VEmbed.input_query response]
    ∧ match Embedder.first_embedding response with
      | None => run.1.1 = Index.Returned [] ∧ run.2 = qw
      | Some query_vector =>
          let search :=
            Index.SearchPoints collection_name query_vector
              (default 5%nat limit) in
          Index.qtrace run.2 = Index.qtrace qw ++ [search]
          ∧ run.1.1 = match (qdrant (Index.qservice qw) search).1 with
                      | Index.QRaises => Index.Raised
                      | Index.QReturns hits => Index.Returned hits
                      end
      end.
Proof.
  cbv zeta. unfold VEmbed.search_similar_documents, VEmbed.call_embed.
  destruct (embed (VEmbed.service vw) _ _ _) as [r c] eqn:Hcall.
  exists r. split.
  - destruct (Embedder.first_embedding r) as [v|]; cbn [fst snd].
    + unfold Index.call. destruct (qdrant _ _) as [[|hits] q']; cbn [fst snd];
        unfold VEmbed.query_input; by destruct query_image as [[|? ?]|].
    + unfold VEmbed.query_input; by destruct query_image as [[|? ?]|].
  - destruct (Embedder.first_embedding r) as [v|]; [|done].
    unfold Index.call. by destruct (qdrant _ _) as [[|hits] q'].
Qed.

(** ** The run of step3.py *)

Section Step3MainFacts.
Import Step3Main.

Variable qclient : Type.
Variable get_collections : qclient → option (list str) * qclient.
Variable get_collection : qclient → str → option nat * qclient.
Variable scroll : qclient → str → nat → option (list stored_point) * qclient.

Lemma describe_each_calls names w :
  let run := describe_each qclient get_collection names w in
  ∃ asked,
    strace run.2 = strace w ++ (GetCollection <$> asked)
    ∧ asked `prefix_of` names
    ∧ (run.1 = true → asked = names).
Proof.
  cbv zeta. revert w. induction names as [|name rest IH]; intros w.
  - exists []. simpl. by rewrite app_nil_r.
  - cbn [describe_each]. unfold mbind, State_bind, call_get_collection.
    destruct (get_collection (sservice w) name) as [[n|] q].
    + match goal with
      | |- context [describe_each _ _ rest ?v] =>
          destruct (IH v) as (asked & Ht & Hpre & Hall)
      end.
      exists (name :: asked). split_and!.
      * rewrite Ht. cbn [strace fmap list_fmap]. by rewrite <- app_assoc.
      * by apply prefix_cons.
      * intros Hb. by rewrite (Hall Hb).
    + exists [name]. simpl. split_and!; [done| |done].
      by apply prefix_cons, prefix_nil.
Qed.

Lemma check_existing_calls w :
  let run :=
    check_existing_qdrant_collections qclient get_collections get_collection w in
  ∃ asked,
    strace run.2 = strace w ++ GetCollections :: (GetCollection <$> asked)
    ∧ (run.1 ≠ [] → asked = run.1).
Proof.
  cbv zeta. unfold check_existing_qdrant_collections, mbind, State_bind,
    call_get_collections, mret, State_ret.
  destruct (get_collections (sservice w)) as [[names|] q].
  - match goal with
    | |- context [describe_each _ _ names ?v] =>
        destruct (describe_each_calls names v) as (asked & Ht & _ & Hall)
    end.
    destruct (describe_each _ _ names _) as [[|] w1]; cbn [fst snd] in *.
    + exists asked. rewrite Ht. cbn [strace]. rewrite <- app_assoc.
      split; [done|]. intros _. by apply Hall.
    + exists asked. rewrite Ht. cbn [strace]. by rewrite <- app_assoc.
  - exists []. by simpl.
Qed.

Lemma load_existing_calls collection_name w :
  let run :=
    load_existing_qdrant_data qclient get_collection scroll collection_name w in
  ∃ rest,
    strace run.2 = strace w ++ GetCollection collection_name :: rest
    ∧ (rest = [] ∨ rest = [Scroll collection_name 1000])
    ∧ (run.1 ≠ [] →
       rest = [Scroll collection_name 1000]
       ∧ ∃ q, (scroll q collection_name 1000).1 = Some run.1).
Proof.
  cbv zeta. unfold load_existing_qdrant_data, mbind, State_bind,
    call_get_collection, call_scroll, mret, State_ret.
  destruct (get_collection (sservice w) collection_name) as [[n|] q];
    cbn [sservice strace fst snd].
  - destruct (scroll q collection_name 1000) as [[points|] q'] eqn:Hscroll;
      cbn [fst snd strace]; eexists; rewrite <- app_assoc;
      (split_and!; [done|by right|]); [|done].
    destruct (previewable points); [|done].
    intros _. split; [done|]. exists q. by rewrite Hscroll.
  - exists []. by split_and!; [|left|].
Qed.

End Step3MainFacts.

(** X18: how a run of step3.py reaches the question loop. The index is
    only read: the collections are listed, the information of each is
    asked for, and, if the list is not empty and none of these calls
    raised, the information of voyage-multimodal-docs and one page of at
    most 1000 of its points. The loop is entered only after that page
    came back with at least one point, with a retriever for that
    collection; in every other case the run returns without a prompt and
    without a call of the retriever or of the chain. *)
Theorem step3_main_gate (qclient : Type)
    (get_collections : qclient → option (list str) * qclient)
    (get_collection : qclient → str → option nat * qclient)
    (scroll : qclient → str → nat
              → option (list Step3Main.stored_point) * qclient)
    (str_lower : str → str) (script : list Workflow.turn)
    (w : Step3Main.sworld qclient) :
  let run :=
    Step3Main.main qclient get_collections get_collection scroll str_lower
      script w in
  let docs := Step3Main.default_collection in
  match run.1.1 with
  | Step3Main.NoCollections =>
      run.1.2 = []
      ∧ ∃ asked,
          Step3Main.strace run.2
          = Step3Main.strace w
            ++ Step3Main.GetCollections :: (Step3Main.GetCollection <$> asked)
  | Step3Main.NoData =>
      run.1.2 = []
      ∧ ∃ names rest,
          names ≠ []
          ∧ Step3Main.strace run.2
            = Step3Main.strace w
              ++ Step3Main.GetCollections
                 :: (Step3Main.GetCollection <$> names)
                 ++ Step3Main.GetCollection docs :: rest
          ∧ (rest = [] ∨ rest = [Step3Main.Scroll docs 1000])
  | Step3Main.Asked s =>
      (run.1.2, s)
      = Workflow.interactive_qa str_lower
          (Workflow.create_retriever_from_existing_data docs) script
      ∧ (∃ names,
           names ≠ []
           ∧ Step3Main.strace run.2
             = Step3Main.strace w
               ++ Step3Main.GetCollections
                  :: (Step3Main.GetCollection <$> names)
                  ++ [Step3Main.GetCollection docs; Step3Main.Scroll docs 1000])
      ∧ ∃ q points,
          (scroll q docs 1000%nat).1 = Some points ∧ points ≠ []
  end.
Proof.
  cbv zeta. unfold Step3Main.main.
  destruct (check_existing_calls qclient get_collections get_collection w)
    as (asked & Ht & Hall).
  destruct (Step3Main.check_existing_qdrant_collections _ _ _ w)
    as [[|name names] w1]; cbn [fst snd] in *.
  { split; [done|]. by exists asked. }
  rewrite (Hall ltac:(done)) in Ht. clear Hall asked.
  destruct (load_existing_calls qclient get_collection scroll
              Step3Main.default_collection w1) as (rest & Ht2 & Hrest & Hdata).
  destruct (Step3Main.load_existing_qdrant_data _ _ _ _ w1)
    as [[|p points] w2]; cbn [fst snd] in *.
  - split; [done|]. exists (name :: names), rest. split_and!; [done| |done].
    rewrite Ht2, Ht. by rewrite <- app_assoc.
  - destruct (Workflow.interactive_qa _ _ script) as [log s]. cbn [fst snd].
    destruct (Hdata ltac:(done)) as (-> & q & Hpage).
    split_and!; [done| |by exists q, (p :: points)].
    exists (name :: names). split; [done|].
    rewrite Ht2, Ht. by rewrite <- app_assoc.
Qed.

(** ** The conversion of step1.py *)

Section Step1Facts.
Import Step1 Step1Spec.

Variable outside : Type.
Variable perform : outside → action → bool * outside.

Lemma convert_one_log pdf_name w :
  let run := convert_one outside perform pdf_name w in
  ∃ log,
    ctrace run.2 = ctrace w ++ log
    ∧ conversions log = [pdf_path pdf_name]
    ∧ (saved log = [] ∧ run.1 = false ∨ saved log = [md_filename pdf_name]).
Proof.
  cbv zeta. unfold convert_one, mbind, State_bind, act, mret, State_ret.
  destruct (perform (coutside w) _) as [[|] o1]; cbn [coutside ctrace fst snd].
  - destruct (perform o1 _) as [[|] o2]; cbn [coutside ctrace fst snd].
    + destruct (perform o2 _) as [ok o3]; cbn [coutside ctrace fst snd].
      eexists [_; _; _]. rewrite <- !app_assoc.
      split_and!; [done|done|by right].
    + eexists [_; _]. rewrite <- !app_assoc.
      split_and!; [done|done|by left].
  - eexists [_]. split_and!; [done|done|by left].
Qed.

Lemma count_loop pdf_files counts w :
  let run := for_each (count_one outside perform) pdf_files counts w in
  ∃ log,
    ctrace run.2 = ctrace w ++ log
    ∧ conversions log = pdf_path <$> pdf_files
    ∧ saved log `sublist_of` (md_filename <$> pdf_files)
    ∧ (run.1.1 + run.1.2 = counts.1 + counts.2 + length pdf_files)%nat
    ∧ (counts.1 ≤ run.1.1)%nat
    ∧ (run.1.1 ≤ counts.1 + length (saved log))%nat.
Proof.
  cbv zeta. revert counts w.
  induction pdf_files as [|pdf_name rest IH]; intros counts w.
  - exists []. simpl. rewrite app_nil_r. split_and!; [done|done|done|lia..].
  - rewrite for_each_cons.
    destruct (count_one outside perform counts pdf_name w) as [counts1 w1']
      eqn:Hbody.
    revert Hbody. unfold count_one, mbind, State_bind, mret, State_ret.
    destruct (convert_one_log pdf_name w) as (log1 & Ht1 & Hc1 & Hs1).
    destruct (convert_one outside perform pdf_name w) as [ok w1].
    intros [= <- <-]. cbn [fst snd] in *.
    match goal with
    | |- context [for_each _ rest ?c ?v] =>
        destruct (IH c v) as (log2 & Ht2 & Hc2 & Hs2 & Hsum & Hlo & Hhi);
        destruct (for_each _ rest c v) as [[s f] w2]
    end.
    cbn [fst snd] in *. exists (log1 ++ log2).
    unfold conversions, saved in *. rewrite !omap_app, Hc1, Hc2, length_app.
    split_and!.
    + by rewrite Ht2, Ht1, <- app_assoc.
    + done.
    + rewrite fmap_cons.
      apply (sublist_app _ [md_filename pdf_name]); [|done].
      destruct Hs1 as [[-> _]| ->]; [apply sublist_nil_l|done].
    + destruct ok; cbn [fst snd length] in *; lia.
    + destruct ok; cbn [fst snd] in *; lia.
    + destruct Hs1 as [[-> ->]| ->]; [cbn [fst snd length] in *; lia|].
      destruct ok; cbn [fst snd length] in *; lia.
Qed.

End Step1Facts.

(** X19: the conversion stage of step1.py. Every PDF is converted once,
    in the order of the listing, also after a failure; a markdown file is
    only written for a PDF of the listing, under its own name; the two
    counters add up to the number of PDFs, and there are at least as many
    attempts to write a markdown file as successes counted. With no PDF
    the function returns nothing, and [main], which unpacks the result
    into two counters, ends in a [TypeError]; otherwise [main] runs the
    two later stages when at least one PDF succeeded and only prints a
    line when none did. *)
Theorem step1_conversion (outside : Type)
    (perform : outside → Step1.action → bool * outside)
    (pdf_files : list str) (w : Step1.cworld outside) :
  let run := Step1.process_pdf_files outside perform pdf_files w in
  let ending := (Step1.main outside perform pdf_files w).1 in
  ∃ log,
    Step1.ctrace run.2 = Step1.ctrace w ++ log
    ∧ Step1Spec.conversions log = Step1.pdf_path <$> pdf_files
    ∧ Step1Spec.saved log `sublist_of` (Step1.md_filename <$> pdf_files)
    ∧ match pdf_files with
      | [] => run.1 = None ∧ ending = Step1.RaisesTypeError
      | _ :: _ =>
          ∃ successful failed,
            run.1 = Some (successful, failed)
            ∧ (successful + failed = length pdf_files)%nat
            ∧ (successful ≤ length (Step1Spec.saved log))%nat
            ∧ ending = if (0 <? successful)%nat then Step1.StagesRun
                       else Step1.NothingProcessed
      end.
Proof.
  cbv zeta. unfold Step1.main, Step1.process_pdf_files.
  destruct pdf_files as [|pdf_name rest].
  - exists []. simpl. by rewrite app_nil_r.
  - unfold mbind, State_bind, mret, State_ret.
    destruct (count_loop outside perform (pdf_name :: rest) (0, 0)%nat w)
      as (log & Ht & Hc & Hs & Hsum & _ & Hhi).
    destruct (for_each _ (pdf_name :: rest) _ w) as [[s f] w1].
    cbn [fst snd] in *. exists log. split_and!; [done..|].
    exists s, f. split_and!; [done|lia|lia|done].
Qed.

(** ** The captions of step1.py *)

Lemma base64_unbound : Step1Captions.bound (py "base64") = false.
Proof. by vm_compute. Qed.

Section Step1CaptionsFacts.
Import Step1Captions Step1CaptionsSpec.

Variable outside : Type.
Variable path_exists : outside → str → bool * outside.
Variable open_file : outside → str → bool * outside.
Variable read_file : outside → str → option (list N) * outside.
Variable llm_invoke : outside → str → option str * outside.
Variable b64encode : list N → str.
Variable joinpath : str → str → str.

Abbreviation caption_one' :=
  (caption_one outside path_exists open_file read_file llm_invoke b64encode
     joinpath).

Lemma caption_one_skips pdf_dir content m w :
  let run := caption_one' pdf_dir content m w in
  run.1 = content
  ∧ ∃ log, ctrace run.2 = ctrace w ++ log
           ∧ invocations log = [] ∧ reads log = [].
Proof.
  cbv zeta. unfold caption_one. destruct m as [alt_text image_path].
  rewrite base64_unbound.
  unfold mbind, State_bind, check, open_image, mret, State_ret.
  destruct (path_exists (coutside w) _) as [[|] o1]; cbn [coutside ctrace].
  - destruct (open_file o1 _) as [[|] o2]; cbn [fst snd ctrace];
      (split; [done|]); eexists [_; _]; by rewrite <- app_assoc.
  - cbn [fst snd ctrace]. split; [done|]. by eexists [_].
Qed.

Lemma caption_loop_skips pdf_dir matches content w :
  let run := for_each (caption_one' pdf_dir) matches content w in
  run.1 = content
  ∧ ∃ log, ctrace run.2 = ctrace w ++ log
           ∧ invocations log = [] ∧ reads log = [].
Proof.
  cbv zeta. revert w. induction matches as [|m rest IH]; intros w.
  - simpl. split; [done|]. exists []. by rewrite app_nil_r.
  - rewrite for_each_cons.
    destruct (caption_one_skips pdf_dir content m w)
      as (Hc & log1 & Ht1 & Hi1 & Hr1).
    destruct (caption_one' pdf_dir content m w) as [content1 w1].
    cbn [fst snd] in *. subst content1.
    destruct (IH w1) as (Hc & log2 & Ht2 & Hi2 & Hr2).
    split; [done|]. exists (log1 ++ log2).
    unfold invocations, reads in *. rewrite !omap_app, Hi1, Hi2, Hr1, Hr2.
    by rewrite Ht2, Ht1, <- app_assoc.
Qed.

End Step1CaptionsFacts.

(** X20: the caption stage of step1.py makes no caption. The name
    [base64] is bound nowhere in step1.py, so that for every image
    reference whose file exists and opens, the lookup of that name raises
    [NameError] inside the [try] block: no image is read, the model is
    never invoked, and the text written to the captioned markdown file
    is the text of the markdown file itself, whatever the document, the
    files and the model. *)
Theorem step1_captions_unchanged (outside : Type)
    (path_exists : outside → str → bool * outside)
    (open_file : outside → str → bool * outside)
    (read_file : outside → str → option (list N) * outside)
    (llm_invoke : outside → str → option str * outside)
    (b64encode : list N → str) (joinpath : str → str → str)
    (pdf_dir content : str) (w : Step1Captions.cworld outside) :
  let run :=
    Step1Captions.caption_document outside path_exists open_file read_file
      llm_invoke b64encode joinpath pdf_dir content w in
  run.1 = content
  ∧ ∃ log,
      Step1Captions.ctrace run.2 = Step1Captions.ctrace w ++ log
      ∧ Step1CaptionsSpec.invocations log = []
      ∧ Step1CaptionsSpec.reads log = [].
Proof.
  cbv zeta. unfold Step1Captions.caption_document.
  apply caption_loop_skips.
Qed.

(** ** The retry of llama_parse.py *)

Section LlamaParseFacts.
Import LlamaParse LlamaParseSpec LlamaRetrySpec.

Variable outside : Type.
Variable file_exists : outside → str → bool * outside.
Variable get_pages : outside → str → (str + list page) * outside.
Variable write_json : outside → str → option str * outside.
Variable write_text : outside → str → str → option str * outside.

Abbreviation on_exception' := (on_exception outside get_pages).

Lemma on_exception_log pdf_path msg w :
  let run := on_exception' pdf_path msg w in
  ltrace run.2 = ltrace w
  ∨ ltrace run.2 = ltrace w ++ [Waited30; Parsed pdf_path].
Proof.
  cbv zeta. unfold on_exception.
  destruct (_ || _); [|by left]. right.
  unfold mbind, State_bind, log_event, parse, mret, State_ret.
  cbn [loutside ltrace]. destruct (get_pages _ _) as [r o].
  cbn [snd ltrace]. by rewrite <- app_assoc.
Qed.

End LlamaParseFacts.

(** X21: one PDF in the loop of llama_parse.py. A PDF whose JSON result
    exists is passed over after that one check. Otherwise the parser is
    called once or twice; a second call comes only after the wait of
    thirty seconds of the rate-limit branch and is the last thing done
    for the PDF, so that what it returns is written nowhere. Files are
    written only before that: the JSON result and then the markdown
    file, whose text is assembled from a non-empty list of pages. *)
Theorem llama_retry_discarded (outside : Type)
    (file_exists : outside → str → bool * outside)
    (get_pages : outside → str → (str + list LlamaParse.page) * outside)
    (write_json : outside → str → option str * outside)
    (write_text : outside → str → str → option str * outside)
    (i : nat) (pdf_name : str) (w : LlamaParse.lworld outside) :
  let run :=
    LlamaParse.parse_one outside file_exists get_pages write_json write_text
      i pdf_name w in
  let json := LlamaParse.json_output_path pdf_name in
  let pdf := Step1.pdf_path pdf_name in
  ∃ log,
    LlamaParse.ltrace run.2 = LlamaParse.ltrace w ++ log
    ∧ (if (file_exists (LlamaParse.loutside w) json).1
       then log = [LlamaParse.Existed json]
       else (1 ≤ length (LlamaParseSpec.parses log))%nat)
    ∧ (length (LlamaParseSpec.parses log) ≤ 2)%nat
    ∧ Forall (λ p, p = pdf) (LlamaParseSpec.parses log)
    ∧ match LlamaRetrySpec.after_wait log with
      | None => (length (LlamaParseSpec.parses log) ≤ 1)%nat
      | Some rest => rest = [LlamaParse.Parsed pdf]
      end
    ∧ LlamaParseSpec.written log
      `prefix_of` [json; LlamaParse.md_output_path pdf_name]
    ∧ Forall (λ e, match e with
                   | LlamaParse.WroteMarkdown _ content =>
                       ∃ json_dicts,
                         json_dicts ≠ []
                         ∧ content
                           = LlamaParse.markdown_content pdf_name json_dicts
                   | _ => True
                   end) log.
Proof.
  cbv zeta. unfold LlamaParse.parse_one.
  unfold mbind at 1. unfold State_bind at 1. unfold LlamaParse.check at 1.
  destruct (file_exists (LlamaParse.loutside w) _) as [[|] o0]; cbn [fst snd].
  { unfold mret, State_ret. cbn [snd LlamaParse.ltrace]. eexists [_].
    split_and!; [done|done|simpl; lia|constructor|simpl; lia
                |apply prefix_nil|by repeat constructor]. }
  set (delay := if (1 <? i)%nat then [LlamaParse.Delayed] else []).
  set (w0 := LlamaParse.LWorld o0
               (LlamaParse.ltrace w
                ++ [LlamaParse.Existed (LlamaParse.json_output_path pdf_name)])).
  assert (((if (1 <? i)%nat then LlamaParse.log_event outside LlamaParse.Delayed
            else mret tt) w0)
          = (tt, LlamaParse.LWorld o0 (LlamaParse.ltrace w0 ++ delay))) as Hdelay.
  { subst delay w0. destruct (1 <? i)%nat; [done|].
    unfold mret, State_ret. cbn [LlamaParse.ltrace]. by rewrite app_nil_r. }
  unfold mbind at 1. unfold State_bind at 1. rewrite Hdelay. clear Hdelay.
  unfold mbind at 1. unfold State_bind at 1. unfold LlamaParse.parse at 1.
  cbn [LlamaParse.loutside LlamaParse.ltrace].
  destruct (get_pages o0 _) as [[msg|json_dicts] o1].
  - match goal with
    | |- context [LlamaParse.on_exception _ _ ?p ?m ?v] =>
        destruct (on_exception_log outside get_pages p m v) as [Ht|Ht];
        destruct (LlamaParse.on_exception _ _ p m v) as [[] w1]
    end; cbn [fst snd LlamaParse.ltrace] in *; subst w0;
      cbn [LlamaParse.ltrace] in Ht; rewrite Ht, <- ?app_assoc;
      eexists; (split; [reflexivity|]); subst delay;
      destruct (1 <? i)%nat; cbn;
      (split_and!; [lia|lia|by repeat constructor|try done; lia
                   |apply prefix_nil|by repeat constructor]).
  - destruct json_dicts as [|p0 ps].
    { unfold mret, State_ret. cbn [snd LlamaParse.ltrace]. subst w0.
      cbn [LlamaParse.ltrace]. rewrite <- ?app_assoc.
      eexists; (split; [reflexivity|]); subst delay;
      destruct (1 <? i)%nat; cbn;
      (split_and!; [lia|lia|by repeat constructor|lia
                   |apply prefix_nil|by repeat constructor]). }
    unfold mbind at 1. unfold State_bind at 1.
    unfold LlamaParse.dump_json at 1.
    cbn [LlamaParse.loutside LlamaParse.ltrace].
    destruct (write_json o1 _) as [[msg|] o2].
    + match goal with
      | |- context [LlamaParse.on_exception _ _ ?p ?m ?v] =>
          destruct (on_exception_log outside get_pages p m v) as [Ht|Ht];
          destruct (LlamaParse.on_exception _ _ p m v) as [[] w1]
      end; cbn [fst snd LlamaParse.ltrace] in *; subst w0;
        cbn [LlamaParse.ltrace] in Ht; rewrite Ht, <- ?app_assoc;
        eexists; (split; [reflexivity|]); subst delay;
        destruct (1 <? i)%nat; cbn;
        (split_and!; [lia|lia|by repeat constructor|try done; lia
                     |by apply prefix_cons, prefix_nil|by repeat constructor]).
    + unfold mbind at 1. unfold State_bind at 1.
      unfold LlamaParse.write_markdown at 1.
      cbn [LlamaParse.loutside LlamaParse.ltrace].
      destruct (write_text o2 _ _) as [[msg|] o3].
      * match goal with
        | |- context [LlamaParse.on_exception _ _ ?p ?m ?v] =>
            destruct (on_exception_log outside get_pages p m v) as [Ht|Ht];
            destruct (LlamaParse.on_exception _ _ p m v) as [[] w1]
        end; cbn [fst snd LlamaParse.ltrace] in *; subst w0;
          cbn [LlamaParse.ltrace] in Ht; rewrite Ht, <- ?app_assoc;
          eexists; (split; [reflexivity|]); subst delay;
          destruct (1 <? i)%nat; cbn;
          (split_and!; [lia|lia|by repeat constructor|try done; lia
                       |done
                       |repeat constructor; by exists (p0 :: ps)]).
      * unfold mret, State_ret. cbn [snd LlamaParse.ltrace]. subst w0.
        cbn [LlamaParse.ltrace]. rewrite <- ?app_assoc.
        eexists; (split; [reflexivity|]); subst delay;
        destruct (1 <? i)%nat; cbn;
        (split_and!; [lia|lia|by repeat constructor|lia
                     |done
                     |repeat constructor; by exists (p0 :: ps)]).
Qed.

(** ** Decimal numbers and file names (dc_parse.py) *)

Example decimal_runs :
  decimal 0 = py "0" ∧ decimal 9 = py "9" ∧ decimal 10 = py "10"
  ∧ decimal 209 = py "209".
Proof. by vm_compute. Qed.

Lemma succ_digits_digits l :
  Forall DcParseSpec.is_digit l → Forall DcParseSpec.is_digit (succ_digits l).
Proof.
  induction 1 as [|d rest [Hlo Hhi] Hrest IH]; simpl.
  - repeat constructor; unfold DcParseSpec.is_digit; lia.
  - destruct (N.eqb_spec d 57) as [->|Hne].
    + constructor; [unfold DcParseSpec.is_digit; lia|done].
    + constructor; [unfold DcParseSpec.is_digit; lia|done].
Qed.

Lemma iter_digits n :
  Forall DcParseSpec.is_digit (Nat.iter n succ_digits [48%N]).
Proof.
  induction n as [|n IH].
  - repeat constructor; unfold DcParseSpec.is_digit; lia.
  - rewrite Nat.iter_succ. by apply succ_digits_digits.
Qed.

Lemma value_succ l :
  Forall DcParseSpec.is_digit l →
  DcParseSpec.value (succ_digits l) = S (DcParseSpec.value l).
Proof.
  assert (∀ d rest, DcParseSpec.value (d :: rest)
                    = (N.to_nat d - 48 + 10 * DcParseSpec.value rest)%nat)
    as Hcons by done.
  induction 1 as [|d rest [Hlo Hhi] Hrest IH]; [done|].
  cbn [succ_digits]. destruct (N.eqb_spec d 57) as [->|Hne].
  - rewrite !Hcons, IH.
    change (N.to_nat 48 - 48)%nat with 0%nat.
    change (N.to_nat 57 - 48)%nat with 9%nat. lia.
  - rewrite !Hcons. lia.
Qed.

Lemma value_iter n : DcParseSpec.value (Nat.iter n succ_digits [48%N]) = n.
Proof.
  induction n as [|n IH]; [done|].
  rewrite Nat.iter_succ, value_succ by apply iter_digits. by rewrite IH.
Qed.

(** Two numbers with one decimal form are one number. *)
Lemma decimal_inj n m : decimal n = decimal m → n = m.
Proof.
  unfold decimal. intros H%(inj reverse).
  by rewrite <- (value_iter n), <- (value_iter m), H.
Qed.

Lemma decimal_digits n : Forall DcParseSpec.is_digit (decimal n).
Proof. unfold decimal. apply Forall_reverse, iter_digits. Qed.

Lemma decimal_free n c :
  ((c < 48)%N ∨ (57 < c)%N) → c ∉ decimal n.
Proof.
  intros Hc Hin. pose proof (decimal_digits n) as Hd.
  rewrite Forall_forall in Hd. destruct (Hd c Hin). lia.
Qed.

Lemma app_stop_inj (stop : char) l1 r1 l2 r2 :
  stop ∉ l1 → stop ∉ l2 → l1 ++ stop :: r1 = l2 ++ stop :: r2 → l1 = l2.
Proof.
  intros H1 H2 Heq. apply (f_equal (span_until stop)) in Heq.
  rewrite !span_until_app in Heq by done. by injection Heq.
Qed.

(** The file name of a picture tells its index. *)
Lemma filename_inj page_no idx page_no' idx' :
  DcParse.filename page_no idx = DcParse.filename page_no' idx' → idx = idx'.
Proof.
  unfold DcParse.filename. intros H%(f_equal reverse).
  rewrite !reverse_app, <- !app_assoc in H. apply app_inv_head in H.
  change (reverse (py "_img_")) with ([95%N] ++ py "gmi_") in H.
  rewrite <- !app_assoc in H.
  change ([95%N] ++ ?l) with (95%N :: l) in H.
  apply app_stop_inj in H.
  - apply (inj reverse), decimal_inj in H. lia.
  - rewrite elem_of_reverse. apply decimal_free. lia.
  - rewrite elem_of_reverse. apply decimal_free. lia.
Qed.

Lemma filename_no_slash page_no idx : 47%N ∉ DcParse.filename page_no idx.
Proof.
  assert ((47%N ∉ py "page_") ∧ (47%N ∉ py "_img_") ∧ (47%N ∉ py ".png"))
    as (H1 & H2 & H3)
    by (split_and!; apply (bool_decide_unpack _); by vm_compute).
  unfold DcParse.filename. rewrite !elem_of_app.
  intros [H|[H|[H|[H|H]]]]; [done| |done| |done];
    revert H; apply decimal_free; lia.
Qed.

Lemma path_name_from_plain acc file :
  47%N ∉ file → DcParse.path_name_from acc file = acc.
Proof.
  revert acc. induction file as [|c file IH]; intros acc Hfile; [done|].
  apply not_elem_of_cons in Hfile as [Hc Hfile]. simpl.
  destruct (N.eqb_spec c 47) as [->|_]; [done|]. by apply IH.
Qed.

Lemma path_name_from_app acc pre file :
  47%N ∉ file → DcParse.path_name_from acc (pre ++ 47%N :: file) = file.
Proof.
  intros Hfile. revert acc. induction pre as [|c pre IH]; intros acc; simpl.
  - by apply path_name_from_plain.
  - destruct (c =? 47)%N; apply IH.
Qed.

(** The name of the file a picture is saved in is its file name. *)
Lemma path_name_image pdf_name page_no idx :
  DcParse.path_name
    (DcParse.image_path pdf_name (DcParse.filename page_no idx))
  = DcParse.filename page_no idx.
Proof.
  unfold DcParse.path_name, DcParse.image_path.
  exact (path_name_from_app _ (DcParse.images_dir pdf_name) _
           (filename_no_slash page_no idx)).
Qed.

(** ** The images and captions of dc_parse.py *)

Lemma enumerate_indices {A} (l : list A) k :
  (imap (λ i a, ((k + i)%nat, a)) l).*1 = seq k (length l).
Proof.
  revert k. induction l as [|a l IH]; intros k; [done|].
  cbn [imap fmap list_fmap length seq fst]. rewrite Nat.add_0_r. f_equal.
  rewrite <- IH. f_equal. apply imap_ext. intros i x _. simpl. f_equal. lia.
Qed.

Lemma nodup_fst_inj {A B} (l : list (A * B)) x y :
  NoDup l.*1 → x ∈ l → y ∈ l → x.1 = y.1 → x = y.
Proof.
  induction l as [|z l IH]; intros Hnd Hx Hy Heq.
  - by apply elem_of_nil in Hx.
  - rewrite fmap_cons in Hnd. apply NoDup_cons in Hnd as [Hz Hnd].
    apply elem_of_cons in Hx as [->|Hx]; apply elem_of_cons in Hy as [->|Hy].
    + done.
    + exfalso. apply Hz. rewrite Heq. by apply list_elem_of_fmap_2.
    + exfalso. apply Hz. rewrite <- Heq. by apply list_elem_of_fmap_2.
    + by apply IH.
Qed.

Section DcParseFacts.
Import DcParse DcParseSpec.

Variable outside : Type.
Variable decodes : str → bool.
Variable save_image : outside → str → bool * outside.
Variable pdf_name : str.

Abbreviation save_one' := (save_one outside decodes save_image pdf_name).

Lemma save_loop ips acc w :
  let run := for_each save_one' ips acc w in
  ∃ kept,
    kept `sublist_of` ips
    ∧ run.1 = acc ++ (saved_for pdf_name <$> kept)
    ∧ Forall (λ ip, ∃ u, uri ip.2 = Some u ∧ 44%N ∈ u) kept.
Proof.
  cbv zeta. revert acc w. induction ips as [|[idx p] ips IH]; intros acc w.
  - exists []. simpl. by rewrite app_nil_r.
  - rewrite for_each_cons.
    destruct (save_one' acc (idx, p) w) as [acc1 w1] eqn:Hbody.
    destruct (IH acc1 w1) as (kept & Hsub & Hout & Hall).
    revert Hbody. unfold save_one.
    destruct (uri p) as [u|] eqn:Hu; last first.
    { intros [= <- <-]. exists kept. split_and!; [by constructor|done..]. }
    destruct (bool_decide (44%N ∈ u)) eqn:Hcomma; last first.
    { intros [= <- <-]. exists kept. split_and!; [by constructor|done..]. }
    apply bool_decide_eq_true in Hcomma.
    destruct (decodes _); last first.
    { intros [= <- <-]. exists kept. split_and!; [by constructor|done..]. }
    unfold mbind, State_bind, logged, mret, State_ret.
    destruct (save_image _ _) as [[|] o].
    + intros [= <- <-]. exists ((idx, p) :: kept). split_and!.
      * by constructor.
      * etrans; [exact Hout|]. by rewrite <- app_assoc.
      * constructor; [by exists u|done].
    + intros [= <- <-]. exists kept. split_and!; [by constructor|done..].
Qed.

Lemma saved_distinct (kept : list (nat * picture)) :
  NoDup kept.*1 → NoDup (filepath <$> (saved_for pdf_name <$> kept)).
Proof.
  intros Hnd. rewrite <- list_fmap_compose.
  apply NoDup_fmap_2_strong.
  - intros x y Hx Hy Heq. apply (nodup_fst_inj kept); [done..|].
    unfold saved_for, image_path in Heq. cbn [filepath compose] in Heq.
    apply app_inv_head, app_inv_head in Heq. by eapply filename_inj.
  - eapply NoDup_fmap_1. exact Hnd.
Qed.

End DcParseFacts.

Lemma extract_images_kept (outside : Type)
    (convert : outside → str → option (list DcParse.picture) * outside)
    (mkdir : outside → str → bool * outside)
    (decodes : str → bool)
    (save_image : outside → str → bool * outside)
    (pdf_path pdf_name : str) (w : DcParse.dworld outside) :
  let run :=
    DcParse.extract_images_from_pdf outside convert mkdir decodes save_image
      pdf_path pdf_name w in
  match run.1 with
  | None => True
  | Some saved_images =>
      ∃ pictures kept,
        (convert (DcParse.doutside w) pdf_path).1 = Some pictures
        ∧ kept `sublist_of` enumerate pictures
        ∧ saved_images = DcParseSpec.saved_for pdf_name <$> kept
        ∧ Forall (λ ip, ∃ u, DcParse.uri ip.2 = Some u ∧ 44%N ∈ u) kept
        ∧ NoDup kept.*1
  end.
Proof.
  cbv zeta. unfold DcParse.extract_images_from_pdf.
  unfold mbind at 1. unfold State_bind at 1. unfold DcParse.logged at 1.
  destruct (convert (DcParse.doutside w) pdf_path) as [[pictures|] o1];
    [|done].
  unfold mbind at 1. unfold State_bind at 1. unfold DcParse.logged at 1.
  cbn [DcParse.doutside DcParse.dtrace].
  destruct (mkdir o1 _) as [[|] o2]; [|done].
  unfold mbind, State_bind, mret, State_ret.
  match goal with
  | |- context [for_each _ ?ips ?a ?v] =>
      destruct (save_loop outside decodes save_image pdf_name ips a v)
        as (kept & Hsub & Hout & Hall);
      destruct (for_each _ ips a v) as [saved w2]
  end.
  cbn [fst snd] in *. subst saved. rewrite app_nil_l.
  exists pictures, kept. split_and!; [done..|].
  apply (sublist_NoDup _ (enumerate pictures).*1).
  - pose proof (enumerate_indices pictures 0) as Hidx.
    unfold enumerate. simpl in Hidx. rewrite Hidx. apply NoDup_seq.
  - by apply fmap_sublist.
Qed.

(** X22: the images [extract_images_from_pdf] saves. The entries
    returned are those of the pictures that have a data URI with a comma
    and could be decoded and saved, in the order of the document, each
    with the page number of the picture (0 without provenance) and its
    position counted from one; the file paths of the entries are
    pairwise different, so that no image of a PDF is written over
    another; and the name of each file is page_P_img_N.png for its page
    and position. *)
Theorem extracted_images_distinct (outside : Type)
    (convert : outside → str → option (list DcParse.picture) * outside)
    (mkdir : outside → str → bool * outside)
    (decodes : str → bool)
    (save_image : outside → str → bool * outside)
    (pdf_path pdf_name : str) (w : DcParse.dworld outside) :
  let run :=
    DcParse.extract_images_from_pdf outside convert mkdir decodes save_image
      pdf_path pdf_name w in
  match run.1 with
  | None => True
  | Some saved_images =>
      ∃ pictures kept,
        (convert (DcParse.doutside w) pdf_path).1 = Some pictures
        ∧ kept `sublist_of` enumerate pictures
        ∧ saved_images = DcParseSpec.saved_for pdf_name <$> kept
        ∧ Forall (λ ip, ∃ u, DcParse.uri ip.2 = Some u ∧ 44%N ∈ u) kept
        ∧ NoDup (DcParse.filepath <$> saved_images)
        ∧ Forall (λ s,
            DcParse.path_name (DcParse.filepath s)
            = DcParse.filename (DcParse.saved_page_no s) (DcParse.index s - 1))
            saved_images
  end.
Proof.
  cbv zeta.
  pose proof (extract_images_kept outside convert mkdir decodes save_image
                pdf_path pdf_name w) as H.
  cbv zeta in H.
  destruct (DcParse.extract_images_from_pdf _ _ _ _ _ _ _ w).1
    as [saved_images|]; [|done].
  destruct H as (pictures & kept & Hconv & Hsub & -> & Hall & Hnd).
  exists pictures, kept. split_and!; [done..| |].
  - by apply saved_distinct.
  - apply Forall_fmap, Forall_forall. intros [idx p] _.
    unfold DcParseSpec.saved_for. cbn [DcParse.filepath DcParse.saved_page_no
      DcParse.index fst snd compose].
    rewrite path_name_image. f_equal. lia.
Qed.

Section DcCaptionFacts.
Import DcParse DcParseSpec DcCaptionSpec.

Variable outside : Type.
Variable export_markdown : outside → str → option str * outside.
Variable convert : outside → str → option (list picture) * outside.
Variable mkdir : outside → str → bool * outside.
Variable decodes : str → bool.
Variable save_image : outside → str → bool * outside.
Variable read_file : outside → str → option (list N) * outside.
Variable b64encode : list N → str.
Variable post : outside → str → option (nat * option str) * outside.






Abbreviation generate' :=
  (generate_image_caption_with_vlm outside read_file b64encode post).



End DcCaptionFacts.



